(** * FlashTalk: the realtime voice session hook [useLiveGemini]

    A shallow embedding of the session engine of FlashTalk
    (hooks/useLiveGemini.ts): the connection life cycle ([connect],
    [disconnect], [cleanup]), the transport callbacks ([onopen], [onmessage],
    [onclose], [onerror]), the playback scheduler, the reconciliation of the
    two transcript streams and the level meter; of the callers of the hook
    in the App component (the microphone button, the change of mode or
    voice); and of the text handling of the tools view
    (components/SmartTools.tsx): the table editor, the renderer of result
    texts and the history.

    Conventions of the embedding.
    - The hook's React state and its refs are the fields of one record,
      [World]; a callback is a computation in a state-and-exception monad [M]
      over it.
    - A JavaScript string is the list of its UTF-16 code units.
    - A JavaScript number that measures time (the cursor [nextStartTimeRef],
      the clock of the output audio context, the duration of a buffer) or a
      level (the volume) is a rational: the arithmetic of the scheduler and
      of the meter is exact, and the rounding of IEEE doubles is not part of
      the model.
    - An object of the browser or of the SDK (audio context, audio node,
      media stream, session promise) is a [Handle]; the calls made on such
      objects are appended to the [trace] of the world, in call order.
    - Callbacks run one at a time, in arrival order, each to completion (the
      awaits inside [connect] and [onmessage] do not let another callback
      in).
    - The three states that are set with a value ([connectionState],
      [volume], [error]) hold the value last set.  The transcript is set
      with updater functions, which read [currentOutputTransRef.current] and
      [Date.now()] when React runs them, not when they are passed to
      [setTranscript]: the world keeps the log of the last render and the
      queue of the updates dispatched since, and a render is a callback of
      its own, which runs the queue.  React runs an updater at once, and
      keeps its result for the render, when it holds no update for the
      component at the dispatch; whether it does is an input of the callback
      (the App component has state of its own), see [idle]. *)

From Stdlib Require Import List ZArith NArith QArith Qminmax Lqa Lia Bool.
From Stdlib Require Import Ascii String DecimalString Sorted.
Import ListNotations.

Open Scope list_scope.

(** ** JavaScript strings *)

(** A string is its sequence of UTF-16 code units. *)
Definition JSString : Type := list N.

(** The code units of a literal of the source (ASCII only). *)
Definition utf16 (s : string) : JSString :=
  map N_of_ascii (list_ascii_of_string s).

(** Truthiness of a string: [!!s]. *)
Definition truthy (s : JSString) : bool :=
  match s with
  | [] => false
  | _ :: _ => true
  end.

(** [s || d] on strings. *)
Definition orElse (s d : JSString) : JSString :=
  if truthy s then s else d.

(** [t || ""] for an optional text property. *)
Definition textOrEmpty (t : option JSString) : JSString :=
  match t with
  | Some s => orElse s []
  | None => []
  end.

(** The code units that [String.prototype.trim] strips: ECMAScript WhiteSpace
    (TAB, VT, FF, ZWNBSP and the Unicode space separators) and LineTerminator
    (LF, CR, LS, PS). *)
Definition isWhiteSpace (c : N) : bool :=
  ((9 <=? c) && (c <=? 13) || (c =? 32) || (c =? 160) || (c =? 5760)
   || (8192 <=? c) && (c <=? 8202) || (c =? 8232) || (c =? 8233)
   || (c =? 8239) || (c =? 8287) || (c =? 12288) || (c =? 65279))%N.

Fixpoint trimStart (s : JSString) : JSString :=
  match s with
  | [] => []
  | c :: r => if isWhiteSpace c then trimStart r else s
  end.

Definition trimEnd (s : JSString) : JSString := rev (trimStart (rev s)).

Definition trim (s : JSString) : JSString := trimEnd (trimStart s).

(** [s.includes(sub)]. *)
Fixpoint startsWith (s sub : JSString) : bool :=
  match sub, s with
  | [], _ => true
  | _ :: _, [] => false
  | c :: sub', d :: s' => (c =? d)%N && startsWith s' sub'
  end.

Fixpoint includes (s sub : JSString) : bool :=
  startsWith s sub
  || match s with
     | [] => false
     | _ :: s' => includes s' sub
     end.

(** [n.toString()] for an integral number. *)
Definition numberToString (n : Z) : JSString :=
  utf16 (NilZero.string_of_int (Z.to_int n)).

(** ** Data model (types.ts) *)

Inductive ConnectionState : Type :=
| DISCONNECTED
| CONNECTING
| CONNECTED
| ERROR.

Inductive Role : Type :=
| user
| assistant.

Definition Role_eqb (a b : Role) : bool :=
  match a, b with
  | user, user | assistant, assistant => true
  | _, _ => false
  end.

Record TranscriptMessage : Type := mkTranscriptMessage {
  id : JSString;
  role : Role;
  text : JSString;
  isPartial : bool;
  timestamp : Z
}.

(** A thrown JavaScript [Error] (or [DOMException]): its name and message. *)
Record Exn : Type := mkExn {
  name : JSString;
  message : JSString
}.

(** [new Error(msg)]. *)
Definition newError (msg : string) : Exn :=
  {| name := utf16 "Error"; message := utf16 msg |}.

(** ** Messages of the transport (the part of [LiveServerMessage] the hook
    reads) *)

Record Blob : Type := mkBlob {
  data : option JSString
}.

Record Part : Type := mkPart {
  inlineData : option Blob
}.

Record Content : Type := mkContent {
  parts : option (list Part)
}.

Record Transcription : Type := mkTranscription {
  transcriptionText : option JSString
}.

Record LiveServerContent : Type := mkLiveServerContent {
  interrupted : option bool;
  turnComplete : option bool;
  modelTurn : option Content;
  inputTranscription : option Transcription;
  outputTranscription : option Transcription
}.

Record LiveServerMessage : Type := mkLiveServerMessage {
  serverContent : option LiveServerContent
}.

(** [x?.flag] in a condition. *)
Definition flag (b : option bool) : bool :=
  match b with
  | Some true => true
  | _ => false
  end.

(** [message.serverContent?.interrupted] *)
Definition isInterrupted (message : LiveServerMessage) : bool :=
  match serverContent message with
  | Some sc => flag (interrupted sc)
  | None => false
  end.

(** [message.serverContent?.turnComplete] *)
Definition isTurnComplete (message : LiveServerMessage) : bool :=
  match serverContent message with
  | Some sc => flag (turnComplete sc)
  | None => false
  end.

(** [message.serverContent?.modelTurn?.parts?.[0]?.inlineData?.data] *)
Definition base64Audio (message : LiveServerMessage) : option JSString :=
  match serverContent message with
  | Some sc =>
      match modelTurn sc with
      | Some turn =>
          match parts turn with
          | Some (p :: _) =>
              match inlineData p with
              | Some blob => data blob
              | None => None
              end
          | _ => None
          end
      | None => None
      end
  | None => None
  end.

(** [message.serverContent?.inputTranscription] *)
Definition inputTrans (message : LiveServerMessage) : option Transcription :=
  match serverContent message with
  | Some sc => inputTranscription sc
  | None => None
  end.

(** [message.serverContent?.outputTranscription] *)
Definition outputTrans (message : LiveServerMessage) : option Transcription :=
  match serverContent message with
  | Some sc => outputTranscription sc
  | None => None
  end.

(** ** The updates of the transcript

    The updater functions that the message handler passes to
    [setTranscript]: [prev => [...prev, { ..., role: 'user', text: userText,
    ... }]], with [userText] a constant of the handler; the updater of the
    output-transcription branch, which reads
    [currentOutputTransRef.current]; and the updater of the turn-complete
    branch. *)
Inductive Updater : Type :=
| AppendUser (userText : JSString)
| UpsertPartial
| FinalizeLast.

(** An update that React holds until the next render: the state that the
    updater returned, when React ran it at the dispatch; the updater,
    otherwise. *)
Inductive Update : Type :=
| Computed (state : list TranscriptMessage)
| Queued (updater : Updater).

(** ** The world: React state, refs, and the calls made on the platform *)

(** Identity of an object of the browser or of the SDK. *)
Definition Handle : Type := nat.

Bind Scope nat_scope with Handle.

(** A decoded [AudioBuffer]; the scheduler reads its duration only. *)
Record AudioBuffer : Type := mkAudioBuffer {
  duration : Q
}.

(** Calls on the platform, as they appear in the trace. *)
Inductive Effect : Type :=
| NewAudioContext (ctx : Handle) (sampleRate : Q)
| CreateNode (ctx node : Handle)
| GetUserMedia
| LiveConnect (session : Handle)
| ContextResume (ctx : Handle)
| ContextClose (ctx : Handle)
| StopTracks (stream : Handle)
| SourceStart (source : Handle) (buffer : AudioBuffer) (when : Q)
| SourceStop (source : Handle)
| SessionClose (session : Handle).

Record World : Type := mkWorld {
  (* React state; the transcript is the log of the last render *)
  connectionState : ConnectionState;
  volume : Q;
  error : option JSString;
  transcript : list TranscriptMessage;
  (* the updates of the transcript dispatched since the last render *)
  transcriptQueue : list Update;
  (* audio context refs and the nodes of the two graphs *)
  inputAudioContextRef : option Handle;
  outputAudioContextRef : option Handle;
  inputSourceRef : option Handle;
  processorRef : option Handle;
  outputNodeRef : option Handle;
  compressorRef : option Handle;
  inputAnalyzerRef : option Handle;
  outputAnalyzerRef : option Handle;
  (* playback state; the Set iterates in insertion order *)
  nextStartTimeRef : Q;
  activeSourcesRef : list Handle;
  (* API session *)
  sessionRef : option Handle;
  streamRef : option Handle;
  (* transcription state *)
  currentInputTransRef : JSString;
  currentOutputTransRef : JSString;
  (* the platform: calls made so far, next fresh object identity *)
  trace : list Effect;
  nextObject : Handle
}.

(** Field updates. *)

Definition set_connectionState (v : ConnectionState) (w : World) : World :=
  mkWorld v (volume w) (error w) (transcript w) (transcriptQueue w)
    (inputAudioContextRef w) (outputAudioContextRef w) (inputSourceRef w)
    (processorRef w) (outputNodeRef w) (compressorRef w) (inputAnalyzerRef w)
    (outputAnalyzerRef w) (nextStartTimeRef w) (activeSourcesRef w)
    (sessionRef w) (streamRef w) (currentInputTransRef w)
    (currentOutputTransRef w) (trace w) (nextObject w).

Definition set_volume (v : Q) (w : World) : World :=
  mkWorld (connectionState w) v (error w) (transcript w) (transcriptQueue w)
    (inputAudioContextRef w) (outputAudioContextRef w) (inputSourceRef w)
    (processorRef w) (outputNodeRef w) (compressorRef w) (inputAnalyzerRef w)
    (outputAnalyzerRef w) (nextStartTimeRef w) (activeSourcesRef w)
    (sessionRef w) (streamRef w) (currentInputTransRef w)
    (currentOutputTransRef w) (trace w) (nextObject w).

Definition set_error (v : option JSString) (w : World) : World :=
  mkWorld (connectionState w) (volume w) v (transcript w) (transcriptQueue w)
    (inputAudioContextRef w) (outputAudioContextRef w) (inputSourceRef w)
    (processorRef w) (outputNodeRef w) (compressorRef w) (inputAnalyzerRef w)
    (outputAnalyzerRef w) (nextStartTimeRef w) (activeSourcesRef w)
    (sessionRef w) (streamRef w) (currentInputTransRef w)
    (currentOutputTransRef w) (trace w) (nextObject w).

Definition set_transcript (v : list TranscriptMessage) (w : World) : World :=
  mkWorld (connectionState w) (volume w) (error w) v (transcriptQueue w)
    (inputAudioContextRef w) (outputAudioContextRef w) (inputSourceRef w)
    (processorRef w) (outputNodeRef w) (compressorRef w) (inputAnalyzerRef w)
    (outputAnalyzerRef w) (nextStartTimeRef w) (activeSourcesRef w)
    (sessionRef w) (streamRef w) (currentInputTransRef w)
    (currentOutputTransRef w) (trace w) (nextObject w).

Definition set_transcriptQueue (v : list Update) (w : World) : World :=
  mkWorld (connectionState w) (volume w) (error w) (transcript w) v
    (inputAudioContextRef w) (outputAudioContextRef w) (inputSourceRef w)
    (processorRef w) (outputNodeRef w) (compressorRef w) (inputAnalyzerRef w)
    (outputAnalyzerRef w) (nextStartTimeRef w) (activeSourcesRef w)
    (sessionRef w) (streamRef w) (currentInputTransRef w)
    (currentOutputTransRef w) (trace w) (nextObject w).

Definition set_inputAudioContextRef (v : option Handle) (w : World) : World :=
  mkWorld (connectionState w) (volume w) (error w) (transcript w)
    (transcriptQueue w) v (outputAudioContextRef w) (inputSourceRef w)
    (processorRef w) (outputNodeRef w) (compressorRef w) (inputAnalyzerRef w)
    (outputAnalyzerRef w) (nextStartTimeRef w) (activeSourcesRef w)
    (sessionRef w) (streamRef w) (currentInputTransRef w)
    (currentOutputTransRef w) (trace w) (nextObject w).

Definition set_outputAudioContextRef (v : option Handle) (w : World) : World :=
  mkWorld (connectionState w) (volume w) (error w) (transcript w)
    (transcriptQueue w) (inputAudioContextRef w) v (inputSourceRef w)
    (processorRef w) (outputNodeRef w) (compressorRef w) (inputAnalyzerRef w)
    (outputAnalyzerRef w) (nextStartTimeRef w) (activeSourcesRef w)
    (sessionRef w) (streamRef w) (currentInputTransRef w)
    (currentOutputTransRef w) (trace w) (nextObject w).

Definition set_inputSourceRef (v : option Handle) (w : World) : World :=
  mkWorld (connectionState w) (volume w) (error w) (transcript w)
    (transcriptQueue w) (inputAudioContextRef w) (outputAudioContextRef w) v
    (processorRef w) (outputNodeRef w) (compressorRef w) (inputAnalyzerRef w)
    (outputAnalyzerRef w) (nextStartTimeRef w) (activeSourcesRef w)
    (sessionRef w) (streamRef w) (currentInputTransRef w)
    (currentOutputTransRef w) (trace w) (nextObject w).

Definition set_processorRef (v : option Handle) (w : World) : World :=
  mkWorld (connectionState w) (volume w) (error w) (transcript w)
    (transcriptQueue w) (inputAudioContextRef w) (outputAudioContextRef w)
    (inputSourceRef w) v (outputNodeRef w) (compressorRef w)
    (inputAnalyzerRef w) (outputAnalyzerRef w) (nextStartTimeRef w)
    (activeSourcesRef w) (sessionRef w) (streamRef w) (currentInputTransRef w)
    (currentOutputTransRef w) (trace w) (nextObject w).

Definition set_outputNodeRef (v : option Handle) (w : World) : World :=
  mkWorld (connectionState w) (volume w) (error w) (transcript w)
    (transcriptQueue w) (inputAudioContextRef w) (outputAudioContextRef w)
    (inputSourceRef w) (processorRef w) v (compressorRef w)
    (inputAnalyzerRef w) (outputAnalyzerRef w) (nextStartTimeRef w)
    (activeSourcesRef w) (sessionRef w) (streamRef w) (currentInputTransRef w)
    (currentOutputTransRef w) (trace w) (nextObject w).

Definition set_compressorRef (v : option Handle) (w : World) : World :=
  mkWorld (connectionState w) (volume w) (error w) (transcript w)
    (transcriptQueue w) (inputAudioContextRef w) (outputAudioContextRef w)
    (inputSourceRef w) (processorRef w) (outputNodeRef w) v
    (inputAnalyzerRef w) (outputAnalyzerRef w) (nextStartTimeRef w)
    (activeSourcesRef w) (sessionRef w) (streamRef w) (currentInputTransRef w)
    (currentOutputTransRef w) (trace w) (nextObject w).

Definition set_inputAnalyzerRef (v : option Handle) (w : World) : World :=
  mkWorld (connectionState w) (volume w) (error w) (transcript w)
    (transcriptQueue w) (inputAudioContextRef w) (outputAudioContextRef w)
    (inputSourceRef w) (processorRef w) (outputNodeRef w) (compressorRef w) v
    (outputAnalyzerRef w) (nextStartTimeRef w) (activeSourcesRef w)
    (sessionRef w) (streamRef w) (currentInputTransRef w)
    (currentOutputTransRef w) (trace w) (nextObject w).

Definition set_outputAnalyzerRef (v : option Handle) (w : World) : World :=
  mkWorld (connectionState w) (volume w) (error w) (transcript w)
    (transcriptQueue w) (inputAudioContextRef w) (outputAudioContextRef w)
    (inputSourceRef w) (processorRef w) (outputNodeRef w) (compressorRef w)
    (inputAnalyzerRef w) v (nextStartTimeRef w) (activeSourcesRef w)
    (sessionRef w) (streamRef w) (currentInputTransRef w)
    (currentOutputTransRef w) (trace w) (nextObject w).

Definition set_nextStartTimeRef (v : Q) (w : World) : World :=
  mkWorld (connectionState w) (volume w) (error w) (transcript w)
    (transcriptQueue w) (inputAudioContextRef w) (outputAudioContextRef w)
    (inputSourceRef w) (processorRef w) (outputNodeRef w) (compressorRef w)
    (inputAnalyzerRef w) (outputAnalyzerRef w) v (activeSourcesRef w)
    (sessionRef w) (streamRef w) (currentInputTransRef w)
    (currentOutputTransRef w) (trace w) (nextObject w).

Definition set_activeSourcesRef (v : list Handle) (w : World) : World :=
  mkWorld (connectionState w) (volume w) (error w) (transcript w)
    (transcriptQueue w) (inputAudioContextRef w) (outputAudioContextRef w)
    (inputSourceRef w) (processorRef w) (outputNodeRef w) (compressorRef w)
    (inputAnalyzerRef w) (outputAnalyzerRef w) (nextStartTimeRef w) v
    (sessionRef w) (streamRef w) (currentInputTransRef w)
    (currentOutputTransRef w) (trace w) (nextObject w).

Definition set_sessionRef (v : option Handle) (w : World) : World :=
  mkWorld (connectionState w) (volume w) (error w) (transcript w)
    (transcriptQueue w) (inputAudioContextRef w) (outputAudioContextRef w)
    (inputSourceRef w) (processorRef w) (outputNodeRef w) (compressorRef w)
    (inputAnalyzerRef w) (outputAnalyzerRef w) (nextStartTimeRef w)
    (activeSourcesRef w) v (streamRef w) (currentInputTransRef w)
    (currentOutputTransRef w) (trace w) (nextObject w).

Definition set_streamRef (v : option Handle) (w : World) : World :=
  mkWorld (connectionState w) (volume w) (error w) (transcript w)
    (transcriptQueue w) (inputAudioContextRef w) (outputAudioContextRef w)
    (inputSourceRef w) (processorRef w) (outputNodeRef w) (compressorRef w)
    (inputAnalyzerRef w) (outputAnalyzerRef w) (nextStartTimeRef w)
    (activeSourcesRef w) (sessionRef w) v (currentInputTransRef w)
    (currentOutputTransRef w) (trace w) (nextObject w).

Definition set_currentInputTransRef (v : JSString) (w : World) : World :=
  mkWorld (connectionState w) (volume w) (error w) (transcript w)
    (transcriptQueue w) (inputAudioContextRef w) (outputAudioContextRef w)
    (inputSourceRef w) (processorRef w) (outputNodeRef w) (compressorRef w)
    (inputAnalyzerRef w) (outputAnalyzerRef w) (nextStartTimeRef w)
    (activeSourcesRef w) (sessionRef w) (streamRef w) v
    (currentOutputTransRef w) (trace w) (nextObject w).

Definition set_currentOutputTransRef (v : JSString) (w : World) : World :=
  mkWorld (connectionState w) (volume w) (error w) (transcript w)
    (transcriptQueue w) (inputAudioContextRef w) (outputAudioContextRef w)
    (inputSourceRef w) (processorRef w) (outputNodeRef w) (compressorRef w)
    (inputAnalyzerRef w) (outputAnalyzerRef w) (nextStartTimeRef w)
    (activeSourcesRef w) (sessionRef w) (streamRef w) (currentInputTransRef w)
    v (trace w) (nextObject w).

Definition set_trace (v : list Effect) (w : World) : World :=
  mkWorld (connectionState w) (volume w) (error w) (transcript w)
    (transcriptQueue w) (inputAudioContextRef w) (outputAudioContextRef w)
    (inputSourceRef w) (processorRef w) (outputNodeRef w) (compressorRef w)
    (inputAnalyzerRef w) (outputAnalyzerRef w) (nextStartTimeRef w)
    (activeSourcesRef w) (sessionRef w) (streamRef w) (currentInputTransRef w)
    (currentOutputTransRef w) v (nextObject w).

Definition set_nextObject (v : Handle) (w : World) : World :=
  mkWorld (connectionState w) (volume w) (error w) (transcript w)
    (transcriptQueue w) (inputAudioContextRef w) (outputAudioContextRef w)
    (inputSourceRef w) (processorRef w) (outputNodeRef w) (compressorRef w)
    (inputAnalyzerRef w) (outputAnalyzerRef w) (nextStartTimeRef w)
    (activeSourcesRef w) (sessionRef w) (streamRef w) (currentInputTransRef w)
    (currentOutputTransRef w) (trace w) v.

(** ** Computations of the hook: state and exceptions *)

Inductive Res (A : Type) : Type :=
| Ok (a : A)
| Throw (e : Exn).

Arguments Ok {A} a.
Arguments Throw {A} e.

(** A computation runs on a world, and returns or throws; the world it
    leaves behind is the world at the return or at the throw. *)
Definition M (A : Type) : Type := World -> Res A * World.

Definition ret {A : Type} (a : A) : M A := fun w => (Ok a, w).

Definition bind {A B : Type} (m : M A) (k : A -> M B) : M B :=
  fun w =>
    match m w with
    | (Ok a, w') => k a w'
    | (Throw e, w') => (Throw e, w')
    end.

Definition throw {A : Type} (e : Exn) : M A := fun w => (Throw e, w).

(** [try { m } catch (e) { h e }] *)
Definition tryCatch {A : Type} (m : M A) (h : Exn -> M A) : M A :=
  fun w =>
    match m w with
    | (Ok a, w') => (Ok a, w')
    | (Throw e, w') => h e w'
    end.

Declare Scope hook_scope.
Delimit Scope hook_scope with hook.
Notation "x <- m ;; k" := (bind m (fun x => k))
  (at level 61, m at next level, right associativity) : hook_scope.
Notation "m ;; k" := (bind m (fun _ => k))
  (at level 61, right associativity) : hook_scope.
Open Scope hook_scope.

(** [ref.current] and [ref.current = v] (and the React state likewise). *)
Definition read {A : Type} (get : World -> A) : M A := fun w => (Ok (get w), w).

Definition write {A : Type} (set : A -> World -> World) (v : A) : M unit :=
  fun w => (Ok tt, set v w).

(** The result of a call that returns or throws without touching the hook. *)
Definition liftRes {A : Type} (r : Res A) : M A := fun w => (r, w).

(** A call on the platform, recorded in the trace. *)
Definition perform (e : Effect) : M unit :=
  fun w => (Ok tt, set_trace (trace w ++ [e]) w).

(** A freshly created object. *)
Definition newObject : M Handle :=
  fun w => (Ok (nextObject w), set_nextObject (S (nextObject w)) w).

(** A call that throws when the platform says so. *)
Definition throwIf (outcome : option Exn) : M unit :=
  match outcome with
  | Some e => throw e
  | None => ret tt
  end.

Definition when (b : bool) (m : M unit) : M unit :=
  if b then m else ret tt.

Fixpoint forEach {A : Type} (f : A -> M unit) (l : list A) : M unit :=
  match l with
  | [] => ret tt
  | x :: r => f x ;; forEach f r
  end.

(** The world a computation leaves behind. *)
Definition exec {A : Type} (m : M A) (w : World) : World := snd (m w).

(** ** Helpers on arrays, sets and numbers *)

(** [prev[prev.length - 1]] *)
Definition lastOpt {A : Type} (l : list A) : option A :=
  match l with
  | [] => None
  | x :: r => Some (last r x)
  end.

(** [set.add(x)] and [set.delete(x)] on a Set kept in insertion order. *)
Definition setAdd (x : Handle) (s : list Handle) : list Handle :=
  if existsb (Nat.eqb x) s then s else s ++ [x].

Definition setDelete (x : Handle) (s : list Handle) : list Handle :=
  filter (fun y => negb (Nat.eqb x y)) s.

(** [x < y] on numbers. *)
Definition Qltb (x y : Q) : bool :=
  match x ?= y with
  | Lt => true
  | _ => false
  end.

Fixpoint JSString_eqb (a b : JSString) : bool :=
  match a, b with
  | [], [] => true
  | c :: a', d :: b' => (c =? d)%N && JSString_eqb a' b'
  | _, _ => false
  end.

(** ** The React state setters *)

Definition setConnectionState (s : ConnectionState) : M unit :=
  write set_connectionState s.

Definition setVolume (v : Q) : M unit := write set_volume v.

Definition setError (e : option JSString) : M unit := write set_error e.

(** What the platform answers to the calls of one [connect]: [None] when
    the call succeeds, the exception otherwise. *)
Record Platform : Type := mkPlatform {
  newInputContext : option Exn;
  newOutputContext : option Exn;
  getUserMedia : option Exn;
  liveConnect : option Exn
}.

(** What a transport callback reads from its surroundings: the clock of the
    output audio context, [Date.now()], whether the output context is
    suspended, and whether React holds no update for the component when the
    callback runs. *)
Record Env : Type := mkEnv {
  currentTime : Q;
  dateNow : Z;
  suspended : bool;
  idle : bool
}.

(** The messages of the hook. *)
Definition API_KEY_MISSING : JSString :=
  utf16 "API Key is missing. Please check your environment configuration.".

Definition INIT_FAILED : JSString :=
  utf16 "Failed to initialize audio or connection.".

Definition CONNECTION_FAILED : JSString :=
  utf16 "Connection to Gemini failed. Please try again.".

(** [{ id: Date.now().toString(), role: 'user', text: userText,
       isPartial: false, timestamp: Date.now() }] *)
Definition userMessage (now : Z) (userText : JSString) : TranscriptMessage :=
  {| id := numberToString now; role := user; text := userText;
     isPartial := false; timestamp := now |}.

(** [{ id: Date.now().toString(), role: 'assistant', text: ...,
       isPartial: true, timestamp: Date.now() }] *)
Definition assistantPartial (now : Z) (t : JSString) : TranscriptMessage :=
  {| id := numberToString now; role := assistant; text := t;
     isPartial := true; timestamp := now |}.

(** The updater of the output-transcription branch, [t] being what it
    reads from [currentOutputTransRef.current]: replace the trailing
    assistant partial, or append a new partial. *)
Definition upsertPartial (now : Z) (t : JSString)
    (prev : list TranscriptMessage) : list TranscriptMessage :=
  match lastOpt prev with
  | Some last =>
      if Role_eqb (role last) assistant && isPartial last
      then removelast prev ++
           [ {| id := id last; role := role last; text := t;
                isPartial := isPartial last; timestamp := timestamp last |} ]
      else prev ++ [assistantPartial now t]
  | None => prev ++ [assistantPartial now t]
  end.

(** The updater of the turn-complete branch: the trailing entry, when it is
    an assistant message, is no longer partial. *)
Definition finalizeLast (prev : list TranscriptMessage)
    : list TranscriptMessage :=
  match lastOpt prev with
  | Some last =>
      if Role_eqb (role last) assistant
      then removelast prev ++
           [ {| id := id last; role := role last; text := text last;
                isPartial := false; timestamp := timestamp last |} ]
      else prev
  | None => prev
  end.

(** *** React: dispatch and render of the transcript *)

(** An updater run at wall clock [now], while the assistant accumulator
    holds [current], on the log [prev]. *)
Definition runUpdater (now : Z) (current : JSString) (updater : Updater)
    (prev : list TranscriptMessage) : list TranscriptMessage :=
  match updater with
  | AppendUser userText => prev ++ [userMessage now userText]
  | UpsertPartial => upsertPartial now current prev
  | FinalizeLast => finalizeLast prev
  end.

(** The updater returns the very array it was given ([return prev]). *)
Definition returnsPrev (updater : Updater) (prev : list TranscriptMessage)
    : bool :=
  match updater with
  | FinalizeLast =>
      match lastOpt prev with
      | Some last => negb (Role_eqb (role last) assistant)
      | None => true
      end
  | _ => false
  end.

(** The queue after the dispatch of [updater], [log] being the log of the
    last render and [current] what the assistant accumulator holds.  When
    the queue is empty and React holds no other update for the component,
    React runs the updater at once, on [log]: if the updater returns that
    very array there is nothing to do, otherwise the result is kept for the
    next render.  In any other case the updater is queued. *)
Definition dispatch (env : Env) (updater : Updater)
    (log : list TranscriptMessage) (current : JSString)
    (queue : list Update) : list Update :=
  match queue with
  | [] =>
      if idle env
      then
        if returnsPrev updater log
        then []
        else [Computed (runUpdater (dateNow env) current updater log)]
      else [Queued updater]
  | _ :: _ => queue ++ [Queued updater]
  end.

(** [setTranscript(updater)] *)
Definition setTranscript (env : Env) (updater : Updater) : M unit :=
  fun w =>
    (Ok tt,
     set_transcriptQueue
       (dispatch env updater (transcript w) (currentOutputTransRef w)
          (transcriptQueue w)) w).

(** One update of the queue, at a render at wall clock [now] while the
    assistant accumulator holds [current]. *)
Definition applyUpdate (now : Z) (current : JSString)
    (prev : list TranscriptMessage) (update : Update)
    : list TranscriptMessage :=
  match update with
  | Computed state => state
  | Queued updater => runUpdater now current updater prev
  end.

Definition processUpdates (now : Z) (current : JSString)
    (queue : list Update) (state : list TranscriptMessage)
    : list TranscriptMessage :=
  fold_left (applyUpdate now current) queue state.

(** The log that a render at wall clock [now] shows. *)
Definition rendered (now : Z) (w : World) : list TranscriptMessage :=
  processUpdates now (currentOutputTransRef w) (transcriptQueue w)
    (transcript w).

(** A render of the component: React runs the queue. *)
Definition render (now : Z) : M unit :=
  fun w =>
    (Ok tt, set_transcriptQueue [] (set_transcript (rendered now w) w)).

(** The hook before its first [connect]. *)
Definition initialWorld : World :=
  {| connectionState := DISCONNECTED; volume := 0; error := None;
     transcript := []; transcriptQueue := [];
     inputAudioContextRef := None; outputAudioContextRef := None;
     inputSourceRef := None; processorRef := None; outputNodeRef := None;
     compressorRef := None; inputAnalyzerRef := None;
     outputAnalyzerRef := None;
     nextStartTimeRef := 0; activeSourcesRef := [];
     sessionRef := None; streamRef := None;
     currentInputTransRef := []; currentOutputTransRef := [];
     trace := []; nextObject := O |}.

(** Messages that carry one thing only. *)
Definition inputDeltaMessage (t : JSString) : LiveServerMessage :=
  {| serverContent := Some
       {| interrupted := None; turnComplete := None; modelTurn := None;
          inputTranscription := Some {| transcriptionText := Some t |};
          outputTranscription := None |} |}.

Definition outputDeltaMessage (t : JSString) : LiveServerMessage :=
  {| serverContent := Some
       {| interrupted := None; turnComplete := None; modelTurn := None;
          inputTranscription := None;
          outputTranscription := Some {| transcriptionText := Some t |} |} |}.

Definition turnCompleteMessage : LiveServerMessage :=
  {| serverContent := Some
       {| interrupted := None; turnComplete := Some true; modelTurn := None;
          inputTranscription := None; outputTranscription := None |} |}.

Definition interruptedMessage : LiveServerMessage :=
  {| serverContent := Some
       {| interrupted := Some true; turnComplete := None; modelTurn := None;
          inputTranscription := None; outputTranscription := None |} |}.

Definition audioMessage (b64 : JSString) : LiveServerMessage :=
  {| serverContent := Some
       {| interrupted := None; turnComplete := None;
          modelTurn := Some {| parts := Some [ {| inlineData := Some {| data := Some b64 |} |} ] |};
          inputTranscription := None; outputTranscription := None |} |}.

(** A message that batches an input delta, an output delta and the
    turn-complete flag, each optional. *)
Definition batchMessage (input output : option JSString) (complete : bool)
    : LiveServerMessage :=
  {| serverContent := Some
       {| interrupted := None;
          turnComplete := if complete then Some true else None;
          modelTurn := None;
          inputTranscription :=
            match input with
            | Some t => Some {| transcriptionText := Some t |}
            | None => None
            end;
          outputTranscription :=
            match output with
            | Some t => Some {| transcriptionText := Some t |}
            | None => None
            end |} |}.

(** A message with the interrupted flag that carries everything else as
    well. *)
Definition interruptedWithPayload : LiveServerMessage :=
  {| serverContent := Some
       {| interrupted := Some true; turnComplete := Some true;
          modelTurn := Some {| parts := Some [ {| inlineData := Some {| data := Some (utf16 "AAAAAAAA") |} |} ] |};
          inputTranscription := Some {| transcriptionText := Some (utf16 "stop") |};
          outputTranscription := Some {| transcriptionText := Some (utf16 "and so") |} |} |}.

(** ** The smart tools (components/SmartTools.tsx)

    The part of the tools view that works on text: the table editor
    ([InteractiveTable]), which parses a markdown table into headers and
    rows and writes it back, the renderer ([SmartContentRenderer]), which
    cuts a result text into blocks of text and tables, and the history of
    results. *)

Module SmartTools.

(** The line feed and the vertical bar. *)
Definition LF : N := 10.
Definition BAR : N := 124.

(** [s.split(sep)], for a separator of one code unit. *)
Fixpoint split (sep : N) (s : JSString) : list JSString :=
  match s with
  | [] => [[]]
  | c :: r =>
      if (c =? sep)%N
      then [] :: split sep r
      else match split sep r with
           | piece :: pieces => (c :: piece) :: pieces
           | [] => [[c]]
           end
  end.

(** [pieces.join(sep)] *)
Fixpoint join (sep : JSString) (pieces : list JSString) : JSString :=
  match pieces with
  | [] => []
  | piece :: rest =>
      match rest with
      | [] => piece
      | _ :: _ => piece ++ sep ++ join sep rest
      end
  end.

(** [s.endsWith(sub)] *)
Definition endsWith (s sub : JSString) : bool :=
  startsWith (rev s) (rev sub).

(** [arr.filter((x, i) => f x i)], with the index of the first element. *)
Fixpoint filterFrom {A : Type} (f : A -> nat -> bool) (i : nat)
    (arr : list A) : list A :=
  match arr with
  | [] => []
  | x :: rest =>
      if f x i
      then x :: filterFrom f (S i) rest
      else filterFrom f (S i) rest
  end.

(** *** [InteractiveTable] *)

(** The state of the component: [headers] and [rows]. *)
Record Table : Type := mkTable {
  headers : list JSString;
  rows : list (list JSString)
}.

(** [splitRow] of the parsing effect: the cells between the bars, trimmed,
    without an empty first and an empty last one. *)
Definition splitRow (line : JSString) : list JSString :=
  let arr := map trim (split BAR line) in
  filterFrom
    (fun c i =>
       if (i =? 0)%nat && negb (truthy c) then false
       else if (i =? List.length arr - 1)%nat && negb (truthy c) then false
       else true)
    0%nat arr.

(** The parsing effect, run on [rawMarkdown]: the state it leaves.  With
    fewer than two lines that are not blank it returns before it sets
    anything. *)
Definition parseTable (rawMarkdown : JSString) (t : Table) : Table :=
  let lines :=
    filter (fun l => (0 <? List.length (trim l))%nat)
      (split LF (trim rawMarkdown)) in
  if (List.length lines <? 2)%nat
  then t
  else
    let headerRow := splitRow (nth 0 lines []) in
    let bodyRows :=
      filter (fun r => (0 <? List.length r)%nat)
        (map splitRow (skipn 2 lines)) in
    {| headers := headerRow; rows := bodyRows |}.

(** [`| ${cells.join(' | ')} |`], the template of the header line, of the
    separator line and of each body line. *)
Definition tableLine (cells : list JSString) : JSString :=
  utf16 "| " ++ join (utf16 " | ") cells ++ utf16 " |".

Definition serializeTable (currentHeaders : list JSString)
    (currentRows : list (list JSString)) : JSString :=
  let headerLine := tableLine currentHeaders in
  let separatorLine :=
    tableLine (map (fun _ => utf16 "---") currentHeaders) in
  let bodyLines := join [LF] (map tableLine currentRows) in
  headerLine ++ [LF] ++ separatorLine ++ [LF] ++ bodyLines.

(** The leftmost match of [/\[\s*\]/] in [s]: the text before it and the
    text after it.  After the opening bracket the white space is skipped
    (the star is greedy, and giving white space back cannot help, a
    closing bracket not being white space). *)
Fixpoint matchUnchecked (s : JSString) : option (JSString * JSString) :=
  match s with
  | [] => None
  | c :: r =>
      let further :=
        match matchUnchecked r with
        | Some (before, after) => Some (c :: before, after)
        | None => None
        end in
      if (c =? 91)%N
      then match trimStart r with
           | d :: after => if (d =? 93)%N then Some ([], after) else further
           | [] => further
           end
      else further
  end.

(** The leftmost match of [/\[x\]/i] in [s]. *)
Fixpoint matchChecked (s : JSString) : option (JSString * JSString) :=
  match s with
  | [] => None
  | c :: r =>
      let further :=
        match matchChecked r with
        | Some (before, after) => Some (c :: before, after)
        | None => None
        end in
      match r with
      | x :: d :: after =>
          if (c =? 91)%N && ((x =? 120)%N || (x =? 88)%N) && (d =? 93)%N
          then Some ([], after)
          else further
      | _ => further
      end
  end.

(** The value that [toggleCheckbox] writes into the cell. *)
Definition toggleCheckbox (currentVal : JSString) : JSString :=
  match matchUnchecked currentVal with
  | Some (before, after) => before ++ utf16 "[x]" ++ after
  | None =>
      match matchChecked currentVal with
      | Some (before, after) => before ++ utf16 "[ ]" ++ after
      | None => currentVal
      end
  end.

(** [addRow]: the state it sets and the markdown it passes to [onUpdate].
    [toLowerCase] is [String.prototype.toLowerCase]. *)
Definition addRow (toLowerCase : JSString -> JSString) (t : Table)
    : Table * JSString :=
  let newRow :=
    map (fun h =>
           if includes (toLowerCase h) (utf16 "status")
           then utf16 "[ ]"
           else [])
      (headers t) in
  let newRows := rows t ++ [newRow] in
  ({| headers := headers t; rows := newRows |},
   serializeTable (headers t) newRows).

(** [deleteRow] *)
Definition deleteRow (index : nat) (t : Table) : Table * JSString :=
  let newRows := filterFrom (fun _ i => negb (i =? index)%nat) 0%nat (rows t) in
  ({| headers := headers t; rows := newRows |},
   serializeTable (headers t) newRows).

(** *** [SmartContentRenderer] *)

(** What is rendered: a block of text, or a table with its markdown. *)
Inductive Block : Type :=
| TextBlock (text : JSString)
| TableBlock (rawMarkdown : JSString).

(** The variables of the rendering loop. *)
Record Renderer : Type := mkRenderer {
  renderedElements : list Block;
  currentTextBuffer : list JSString;
  tableBuffer : list JSString;
  inTable : bool
}.

Definition flushText (r : Renderer) : Renderer :=
  match currentTextBuffer r with
  | [] => r
  | _ :: _ =>
      {| renderedElements :=
           renderedElements r
           ++ [TextBlock (join [LF] (currentTextBuffer r))];
         currentTextBuffer := [];
         tableBuffer := tableBuffer r;
         inTable := inTable r |}
  end.

Definition flushTable (r : Renderer) : Renderer :=
  match tableBuffer r with
  | [] => r
  | _ :: _ =>
      {| renderedElements :=
           renderedElements r ++ [TableBlock (join [LF] (tableBuffer r))];
         currentTextBuffer := currentTextBuffer r;
         tableBuffer := [];
         inTable := inTable r |}
  end.

(** [trimmed.startsWith('|') && trimmed.endsWith('|')] *)
Definition isTableLine (line : JSString) : bool :=
  let trimmed := trim line in
  startsWith trimmed [BAR] && endsWith trimmed [BAR].

(** The body of [lines.forEach]. *)
Definition renderLine (r : Renderer) (line : JSString) : Renderer :=
  if isTableLine line
  then
    let r1 :=
      if negb (inTable r)
      then
        let r0 := flushText r in
        {| renderedElements := renderedElements r0;
           currentTextBuffer := currentTextBuffer r0;
           tableBuffer := tableBuffer r0;
           inTable := true |}
      else r in
    {| renderedElements := renderedElements r1;
       currentTextBuffer := currentTextBuffer r1;
       tableBuffer := tableBuffer r1 ++ [line];
       inTable := inTable r1 |}
  else
    let r1 :=
      if inTable r
      then
        let r0 := flushTable r in
        {| renderedElements := renderedElements r0;
           currentTextBuffer := currentTextBuffer r0;
           tableBuffer := tableBuffer r0;
           inTable := false |}
      else r in
    {| renderedElements := renderedElements r1;
       currentTextBuffer := currentTextBuffer r1 ++ [line];
       tableBuffer := tableBuffer r1;
       inTable := inTable r1 |}.

(** The blocks rendered for [content]. *)
Definition renderContent (content : JSString) : list Block :=
  let lines := split LF content in
  let start :=
    {| renderedElements := []; currentTextBuffer := []; tableBuffer := [];
       inTable := false |} in
  renderedElements (flushTable (flushText (fold_left renderLine lines start))).

(** The text of a block, as it is shown or handed to the table editor. *)
Definition blockText (b : Block) : JSString :=
  match b with
  | TextBlock text => text
  | TableBlock rawMarkdown => rawMarkdown
  end.

Definition isTable (b : Block) : bool :=
  match b with
  | TextBlock _ => false
  | TableBlock _ => true
  end.

(** *** The history of results *)

Inductive ToolType : Type :=
| VISION
| THINKING
| SEARCH
| MAPS
| FAST
| PLANNER
| CHAT.

(** An entry of the history; [Chunk] is the type of the grounding chunks,
    which the component passes on as they are. *)
Record HistoryItem (Chunk : Type) : Type := mkHistoryItem {
  id : JSString;
  tool : ToolType;
  query : JSString;
  result : JSString;
  grounding : list Chunk;
  timestamp : Z
}.

Arguments mkHistoryItem {Chunk} id tool query result grounding timestamp.
Arguments id {Chunk} h.
Arguments tool {Chunk} h.
Arguments query {Chunk} h.
Arguments result {Chunk} h.
Arguments grounding {Chunk} h.
Arguments timestamp {Chunk} h.

(** The state that the history functions work on: the history, the id of
    the entry on display, the result text, and what is kept under
    [velocity_history] in the local storage. *)
Record Store (Chunk : Type) : Type := mkStore {
  history : list (HistoryItem Chunk);
  currentHistoryId : option JSString;
  resultText : JSString;
  stored : option (list (HistoryItem Chunk))
}.

Arguments mkStore {Chunk} history currentHistoryId resultText stored.
Arguments history {Chunk} s.
Arguments currentHistoryId {Chunk} s.
Arguments resultText {Chunk} s.
Arguments stored {Chunk} s.

Definition saveToHistory {Chunk : Type} (now : Z) (tool : ToolType)
    (query result : JSString) (grounding : list Chunk) (s : Store Chunk)
    : Store Chunk :=
  let newItem :=
    {| id := numberToString now; tool := tool; query := query;
       result := result; grounding := grounding; timestamp := now |} in
  let updated := skipn 50 (newItem :: history s) in
  {| history := updated;
     currentHistoryId := Some (id newItem);
     resultText := resultText s;
     stored := Some updated |}.

Definition handleContentUpdate {Chunk : Type} (newContent : JSString)
    (s : Store Chunk) : Store Chunk :=
  match currentHistoryId s with
  | Some current =>
      if truthy current
      then
        let updatedHistory :=
          map (fun h =>
                 if JSString_eqb (id h) current
                 then {| id := id h; tool := tool h; query := query h;
                         result := newContent; grounding := grounding h;
                         timestamp := timestamp h |}
                 else h)
            (history s) in
        {| history := updatedHistory;
           currentHistoryId := currentHistoryId s;
           resultText := newContent;
           stored := Some updatedHistory |}
      else
        {| history := history s; currentHistoryId := currentHistoryId s;
           resultText := newContent; stored := stored s |}
  | None =>
      {| history := history s; currentHistoryId := currentHistoryId s;
         resultText := newContent; stored := stored s |}
  end.

Definition clearHistory {Chunk : Type} (s : Store Chunk) : Store Chunk :=
  {| history := []; currentHistoryId := None; resultText := resultText s;
     stored := None |}.

(** What the user and the tools do to the history. *)
Inductive HistoryAction (Chunk : Type) : Type :=
| Save (now : Z) (tool : ToolType) (query result : JSString)
    (grounding : list Chunk)
| Edit (newContent : JSString)
| Clear.

Arguments Save {Chunk} now tool query result grounding.
Arguments Edit {Chunk} newContent.
Arguments Clear {Chunk}.

Definition applyAction {Chunk : Type} (s : Store Chunk)
    (a : HistoryAction Chunk) : Store Chunk :=
  match a with
  | Save now tool query result grounding =>
      saveToHistory now tool query result grounding s
  | Edit newContent => handleContentUpdate newContent s
  | Clear => clearHistory s
  end.

(** *** Notions used to state the properties of the tools *)

(** A cell that a table line can carry: no bar, no line feed, and no white
    space at either end. *)
Definition plainCell (c : JSString) : Prop :=
  trim c = c /\ ~ In BAR c /\ ~ In LF c.

(** A cell with the space that a table line puts on each side of it. *)
Definition padded (c : JSString) : JSString := 32%N :: c ++ [32%N].

(** A row that a table line can carry: at least one cell, all plain. *)
Definition plainRow (row : list JSString) : Prop :=
  row <> [] /\ Forall plainCell row.

(** The blocks that the two flushes at the end of the rendering add: the
    lines still in the buffers. *)
Definition pending (r : Renderer) : list Block :=
  match currentTextBuffer r with
  | [] => []
  | _ :: _ => [TextBlock (join [LF] (currentTextBuffer r))]
  end
  ++ match tableBuffer r with
     | [] => []
     | _ :: _ => [TableBlock (join [LF] (tableBuffer r))]
     end.

(** No two blocks next to each other are of the same kind. *)
Fixpoint alternating (bs : list Block) : Prop :=
  match bs with
  | [] => True
  | b :: rest =>
      match rest with
      | [] => True
      | b' :: _ => isTable b <> isTable b'
      end /\ alternating rest
  end.

(** The rendering loop is in step with the lines it has read: the blocks
    rendered and pending, joined by line feeds, are the lines joined by
    line feeds; they alternate; and the buffers agree with [inTable]. *)
Definition inStep (r : Renderer) (lines : list JSString) : Prop :=
  (inTable r = true -> currentTextBuffer r = [] /\ tableBuffer r <> [])
  /\ (inTable r = false ->
      tableBuffer r = []
      /\ (currentTextBuffer r = [] -> renderedElements r = []))
  /\ alternating (renderedElements r ++ pending r)
  /\ join [LF] (map blockText (renderedElements r ++ pending r))
     = join [LF] lines
  /\ (renderedElements r ++ pending r = [] <-> lines = []).

End SmartTools.

(** ** A platform for the examples

    Stand-ins for what the development takes as given, used to run the hook
    on concrete inputs: sample rates, decoders that accept a payload of 4n
    characters as 3n bytes and an even number of bytes as 16-bit samples at
    24000 Hz, a [stop] that throws on sources of odd identity, and a
    [close] that always throws. *)

Definition demoDecodeBase64 (b64 : JSString) : Res (list N) :=
  if Nat.eqb (Nat.modulo (List.length b64) 4) 0
  then Ok (repeat 0%N (3 * Nat.div (List.length b64) 4))
  else Throw {| name := utf16 "InvalidCharacterError";
                message := utf16 "The string to be decoded is not correctly encoded." |}.

Definition demoDecodeAudioData (audioData : list N) (ctx : Handle)
    (sampleRate : Q) : Res AudioBuffer :=
  if Nat.even (List.length audioData)
  then Ok {| duration :=
               Z.of_nat (Nat.div (List.length audioData) 2) # 24000 |}
  else Throw {| name := utf16 "RangeError";
                message := utf16 "byte length of Int16Array should be a multiple of 2" |}.

Definition demoStopThrows (source : Handle) : option Exn :=
  if Nat.even source
  then None
  else Some {| name := utf16 "InvalidStateError";
               message := utf16 "cannot call stop without calling start first" |}.

Definition demoCloseThrows (session : Handle) : option Exn :=
  Some {| name := utf16 "Error"; message := utf16 "WebSocket is already closed" |}.

(** A platform on which every call of [connect] succeeds, one that denies
    the microphone, and one on which the transport fails to open. *)
Definition platformOk : Platform :=
  {| newInputContext := None; newOutputContext := None;
     getUserMedia := None; liveConnect := None |}.

Definition platformDeniesMicrophone : Platform :=
  {| newInputContext := None; newOutputContext := None;
     getUserMedia :=
       Some {| name := utf16 "NotAllowedError";
               message := utf16 "Permission denied" |};
     liveConnect := None |}.

Definition platformTransportFails : Platform :=
  {| newInputContext := None; newOutputContext := None;
     getUserMedia := None;
     liveConnect := Some {| name := utf16 "Error"; message := [] |} |}.

(** The surroundings of a callback at audio clock [clock] and wall clock
    [now], React holding no update for the component. *)
Definition at_ (clock : Q) (now : Z) : Env :=
  {| currentTime := clock; dateNow := now; suspended := false;
     idle := true |}.

(** The same, while React holds an update for the component. *)
Definition busyAt (clock : Q) (now : Z) : Env :=
  {| currentTime := clock; dateNow := now; suspended := false;
     idle := false |}.

(** ** The hook *)

Section UseLiveGemini.

(** From utils/audio, whose source is not part of the development: the two
    sample rates, and the two decoders, which return or throw. *)
Variable PCM_SAMPLE_RATE : Q.
Variable OUTPUT_SAMPLE_RATE : Q.
Variable decodeBase64 : JSString -> Res (list N).
Variable decodeAudioData : list N -> Handle -> Q -> Res AudioBuffer.

(** The platform's answer to [source.stop()] and to [session.close()]:
    the exception thrown, if any. *)
Variable stopThrows : Handle -> option Exn.
Variable closeThrows : Handle -> option Exn.

(** [try { source.stop(); } catch (e) { /* ignore */ }] *)
Definition stopIgnoringErrors (source : Handle) : M unit :=
  tryCatch
    (perform (SourceStop source) ;; throwIf (stopThrows source))
    (fun _ => ret tt).

Definition cleanup : M unit :=
  (* Stop all active sources *)
  sources <- read activeSourcesRef ;;
  forEach stopIgnoringErrors sources ;;
  write set_activeSourcesRef [] ;;
  (* Close microphone stream *)
  stream <- read streamRef ;;
  match stream with
  | Some s => perform (StopTracks s) ;; write set_streamRef None
  | None => ret tt
  end ;;
  (* Close AudioContexts *)
  ictx <- read inputAudioContextRef ;;
  match ictx with
  | Some ctx => perform (ContextClose ctx) ;; write set_inputAudioContextRef None
  | None => ret tt
  end ;;
  octx <- read outputAudioContextRef ;;
  match octx with
  | Some ctx => perform (ContextClose ctx) ;; write set_outputAudioContextRef None
  | None => ret tt
  end ;;
  (* Reset State *)
  setConnectionState DISCONNECTED ;;
  setVolume 0 ;;
  write set_sessionRef None ;;
  write set_currentInputTransRef [] ;;
  write set_currentOutputTransRef [] ;;
  write set_nextStartTimeRef 0.

(** [new AudioContextClass({ sampleRate, latencyHint })] *)
Definition newAudioContext (sampleRate : Q) (outcome : option Exn)
    : M Handle :=
  match outcome with
  | Some e => throw e
  | None =>
      ctx <- newObject ;;
      perform (NewAudioContext ctx sampleRate) ;;
      ret ctx
  end.

(** [ctx.createGain()], [ctx.createAnalyser()] and the like. *)
Definition createNode (ctx : Handle) : M Handle :=
  node <- newObject ;;
  perform (CreateNode ctx node) ;;
  ret node.

Definition initAudioContexts (p : Platform) : M unit :=
  tryCatch
    (ictx <- newAudioContext PCM_SAMPLE_RATE (newInputContext p) ;;
     write set_inputAudioContextRef (Some ictx) ;;
     octx <- newAudioContext OUTPUT_SAMPLE_RATE (newOutputContext p) ;;
     write set_outputAudioContextRef (Some octx))
    (fun _ =>
       throw (newError
         "Could not initialize AudioContext. Your browser may not support it.")).

Definition setupOutputPipeline : M unit :=
  octx <- read outputAudioContextRef ;;
  match octx with
  | Some ctx =>
      gain <- createNode ctx ;;
      write set_outputNodeRef (Some gain) ;;
      compressor <- createNode ctx ;;
      write set_compressorRef (Some compressor) ;;
      analyzer <- createNode ctx ;;
      write set_outputAnalyzerRef (Some analyzer) ;;
      ictx <- read inputAudioContextRef ;;
      match ictx with
      | Some ctx' =>
          inputAnalyzer <- createNode ctx' ;;
          write set_inputAnalyzerRef (Some inputAnalyzer)
      | None => ret tt
      end
  | None => ret tt
  end.

(** The [catch] of the microphone request: the error thrown in place of
    the one caught, chosen by its name. *)
Definition microphoneError (err : Exn) : Exn :=
  if JSString_eqb (name err) (utf16 "NotAllowedError")
     || JSString_eqb (name err) (utf16 "PermissionDeniedError")
  then newError
    "Microphone access denied. Please allow permissions in your browser settings."
  else if JSString_eqb (name err) (utf16 "NotFoundError")
          || JSString_eqb (name err) (utf16 "DevicesNotFoundError")
  then newError "No microphone found. Please check your input devices."
  else {| name := utf16 "Error";
          message := utf16 "Could not access microphone: " ++ message err |}.

Definition acquireMicrophone (p : Platform) : M unit :=
  tryCatch
    (perform GetUserMedia ;;
     throwIf (getUserMedia p) ;;
     stream <- newObject ;;
     write set_streamRef (Some stream))
    (fun err => throw (microphoneError err)).

(** [ai.live.connect(...)] returns the session promise, which is stored in
    [sessionRef] and then awaited: a failure to open the transport is the
    rejection of that promise. *)
Definition openSession (p : Platform) : M unit :=
  sessionPromise <- newObject ;;
  perform (LiveConnect sessionPromise) ;;
  write set_sessionRef (Some sessionPromise) ;;
  throwIf (liveConnect p).

(** The [try] block of [connect]. *)
Definition connectBody (p : Platform) : M unit :=
  setConnectionState CONNECTING ;;
  setError None ;;
  initAudioContexts p ;;
  setupOutputPipeline ;;
  acquireMicrophone p ;;
  openSession p.

(** The [catch] block of [connect]. *)
Definition connectFailed (err : Exn) : M unit :=
  let msg := orElse (message err) INIT_FAILED in
  setError (Some msg) ;;
  setConnectionState ERROR ;;
  cleanup.

(** [connect], with [apiKey] the value of [process.env.API_KEY]. *)
Definition connect (apiKey : option JSString) (p : Platform) : M unit :=
  match apiKey with
  | Some key =>
      if truthy key
      then tryCatch (connectBody p) connectFailed
      else setError (Some API_KEY_MISSING)
  | None => setError (Some API_KEY_MISSING)
  end.

(** [disconnect]; [fulfilled] tells whether the session promise resolved to
    a session with a [close] method. *)
Definition disconnect (fulfilled : bool) : M unit :=
  session <- read sessionRef ;;
  match session with
  | Some s =>
      when fulfilled
        (tryCatch
           (perform (SessionClose s) ;; throwIf (closeThrows s))
           (fun _ => ret tt)) ;;
      cleanup
  | None => cleanup
  end.

(** *** Transport callbacks *)

Definition onopen (inputSuspended : bool) : M unit :=
  setConnectionState CONNECTED ;;
  ictx <- read inputAudioContextRef ;;
  stream <- read streamRef ;;
  analyzer <- read inputAnalyzerRef ;;
  match ictx, stream, analyzer with
  | Some ctx, Some _, Some _ =>
      when inputSuspended (perform (ContextResume ctx)) ;;
      source <- createNode ctx ;;
      write set_inputSourceRef (Some source) ;;
      processor <- createNode ctx ;;
      write set_processorRef (Some processor)
  | _, _, _ => ret tt
  end.

Definition onclose : M unit := cleanup.

Definition onerror (err : Exn) : M unit :=
  when (truthy (message err)
        && negb (includes (message err) (utf16 "cancelled")))
    (setError (Some CONNECTION_FAILED)) ;;
  cleanup.

(** [source.onended] *)
Definition onended (source : Handle) : M unit :=
  sources <- read activeSourcesRef ;;
  write set_activeSourcesRef (setDelete source sources).

(** The [interrupted] branch of [onmessage]. *)
Definition interruption : M unit :=
  sources <- read activeSourcesRef ;;
  forEach stopIgnoringErrors sources ;;
  write set_activeSourcesRef [] ;;
  write set_nextStartTimeRef 0 ;;
  write set_currentOutputTransRef [].

(** The audio branch of [onmessage]: decode the payload and schedule it. *)
Definition playback (env : Env) (message : LiveServerMessage) : M unit :=
  octx <- read outputAudioContextRef ;;
  outputNode <- read outputNodeRef ;;
  match base64Audio message, octx, outputNode with
  | Some b64, Some ctx, Some _ =>
      when (truthy b64)
        (when (suspended env) (perform (ContextResume ctx)) ;;
         audioData <- liftRes (decodeBase64 b64) ;;
         audioBuffer <- liftRes (decodeAudioData audioData ctx OUTPUT_SAMPLE_RATE) ;;
         source <- newObject ;;
         (* Catch up if we fell behind to avoid latency drift *)
         next <- read nextStartTimeRef ;;
         when (Qltb next (currentTime env))
           (write set_nextStartTimeRef (currentTime env)) ;;
         startAt <- read nextStartTimeRef ;;
         perform (SourceStart source audioBuffer startAt) ;;
         write set_nextStartTimeRef (startAt + duration audioBuffer)%Q ;;
         sources <- read activeSourcesRef ;;
         write set_activeSourcesRef (setAdd source sources))
  | _, _, _ => ret tt
  end.

(** The flush of the pending user text, as both the output-transcription
    branch and the turn-complete branch do it. *)
Definition flushUser (env : Env) : M unit :=
  pending <- read currentInputTransRef ;;
  when (truthy (trim pending))
    (setTranscript env (AppendUser pending) ;;
     write set_currentInputTransRef []).

(** Transcription handling of [onmessage]. *)
Definition transcription (env : Env) (message : LiveServerMessage) : M unit :=
  match inputTrans message with
  | Some t =>
      pending <- read currentInputTransRef ;;
      write set_currentInputTransRef
        (pending ++ textOrEmpty (transcriptionText t))
  | None => ret tt
  end ;;
  match outputTrans message with
  | Some t =>
      flushUser env ;;
      pending <- read currentOutputTransRef ;;
      write set_currentOutputTransRef
        (pending ++ textOrEmpty (transcriptionText t)) ;;
      setTranscript env UpsertPartial
  | None => ret tt
  end ;;
  when (isTurnComplete message)
    (flushUser env ;;
     pending <- read currentOutputTransRef ;;
     when (truthy pending)
       (setTranscript env FinalizeLast ;;
        write set_currentOutputTransRef [])).

Definition onmessage (env : Env) (message : LiveServerMessage) : M unit :=
  if isInterrupted message
  then interruption
  else playback env message ;; transcription env message.

(** The world after the transport delivered [message]: the world the
    callback leaves, whether its promise is fulfilled or rejected. *)
Definition deliver (em : Env * LiveServerMessage) (w : World) : World :=
  exec (onmessage (fst em) (snd em)) w.

(** Messages delivered one after the other, in arrival order. *)
Definition deliverAll (ms : list (Env * LiveServerMessage)) (w : World)
    : World :=
  fold_left (fun w' em => deliver em w') ms w.

(** *** The level meter *)

(** [dataArray.reduce((a, b) => a + b, 0) / dataArray.length], on the bytes
    that [getByteFrequencyData] wrote into the array. *)
Definition mean (dataArray : list N) : Q :=
  inject_Z (Z.of_N (fold_left N.add dataArray 0%N))
  / inject_Z (Z.of_nat (List.length dataArray)).

(** One animation frame of the level meter; [inputData] and [outputData]
    are the frequency bytes that the two analyzers report in that frame. *)
Definition updateVisualizer (inputData outputData : list N) : M unit :=
  state <- read connectionState ;;
  match state with
  | CONNECTED =>
      inputAnalyzer <- read inputAnalyzerRef ;;
      outputAnalyzer <- read outputAnalyzerRef ;;
      let inputVol :=
        match inputAnalyzer with
        | Some _ => mean inputData
        | None => 0
        end in
      let outputVol :=
        match outputAnalyzer with
        | Some _ => mean outputData
        | None => 0
        end in
      setVolume (Qmax inputVol outputVol)
  | _ => setVolume 0
  end.

(** *** The callers of the hook (the App component) *)

(** [handleToggleConnection]: the microphone button and the space key. *)
Definition handleToggleConnection (apiKey : option JSString) (p : Platform)
    (fulfilled : bool) : M unit :=
  state <- read connectionState ;;
  match state with
  | CONNECTED => disconnect fulfilled
  | _ => connect apiKey p
  end.

(** What [onSelectMode] and [onSelectVoice] do to the hook:
    [if (isConnected) disconnect()]. *)
Definition onSelect (fulfilled : bool) : M unit :=
  state <- read connectionState ;;
  match state with
  | CONNECTED => disconnect fulfilled
  | _ => ret tt
  end.

(** Everything that runs code of the hook: the App component, the
    transport, a source that ends, an animation frame; and React, when it
    renders the component at wall clock [now]. *)
Inductive Callback : Type :=
| Connect (apiKey : option JSString) (p : Platform)
| Disconnect (fulfilled : bool)
| Toggle (apiKey : option JSString) (p : Platform) (fulfilled : bool)
| Select (fulfilled : bool)
| Open (inputSuspended : bool)
| Message (env : Env) (message : LiveServerMessage)
| Close
| Error (err : Exn)
| Ended (source : Handle)
| Frame (inputData outputData : list N)
| Render (now : Z).

Definition react (cb : Callback) : M unit :=
  match cb with
  | Connect apiKey p => connect apiKey p
  | Disconnect fulfilled => disconnect fulfilled
  | Toggle apiKey p fulfilled => handleToggleConnection apiKey p fulfilled
  | Select fulfilled => onSelect fulfilled
  | Open inputSuspended => onopen inputSuspended
  | Message env message => onmessage env message
  | Close => onclose
  | Error err => onerror err
  | Ended source => onended source
  | Frame inputData outputData => updateVisualizer inputData outputData
  | Render now => render now
  end.

(** The hook after a run of callbacks, each run to completion, in order. *)
Definition session (cbs : list Callback) (w : World) : World :=
  fold_left (fun w' cb => exec (react cb) w') cbs w.

(** ** Notions used to state the properties *)

(** The calls [cleanup] makes on the platform from a given world: stop each
    in-flight source, stop the tracks of the microphone stream, close the
    two audio contexts. *)
Definition teardownCalls (w : World) : list Effect :=
  map SourceStop (activeSourcesRef w)
  ++ match streamRef w with Some s => [StopTracks s] | None => [] end
  ++ match inputAudioContextRef w with Some c => [ContextClose c] | None => [] end
  ++ match outputAudioContextRef w with Some c => [ContextClose c] | None => [] end.

(** [process.env.API_KEY] is set to a non-empty string. *)
Definition configured (apiKey : option JSString) : bool :=
  match apiKey with
  | Some key => truthy key
  | None => false
  end.

(** Some call of [connect] on the platform throws. *)
Definition platformFails (p : Platform) : bool :=
  match newInputContext p, newOutputContext p, getUserMedia p, liveConnect p with
  | None, None, None, None => false
  | _, _, _, _ => true
  end.

(** The buffer that [playback] schedules for a message, if any: the payload
    is present and non-empty, the output context and the output node exist,
    and both decoders return. *)
Definition decodedAudio (message : LiveServerMessage) (w : World)
    : option AudioBuffer :=
  match base64Audio message, outputAudioContextRef w, outputNodeRef w with
  | Some b64, Some ctx, Some _ =>
      if truthy b64
      then match decodeBase64 b64 with
           | Ok audioData =>
               match decodeAudioData audioData ctx OUTPUT_SAMPLE_RATE with
               | Ok audioBuffer => Some audioBuffer
               | Throw _ => None
               end
           | Throw _ => None
           end
      else None
  | _, _, _ => None
  end.

(** [playback] gets to a decoder, and the decoder throws: the callback is
    left there, and the message is dropped. *)
Definition audioFails (message : LiveServerMessage) (w : World) : bool :=
  match base64Audio message, outputAudioContextRef w, outputNodeRef w with
  | Some b64, Some ctx, Some _ =>
      truthy b64
      && match decodeBase64 b64 with
         | Ok audioData =>
             match decodeAudioData audioData ctx OUTPUT_SAMPLE_RATE with
             | Ok _ => false
             | Throw _ => true
             end
         | Throw _ => true
         end
  | _, _, _ => false
  end.

(** The [resume] call that precedes the decoding. *)
Definition resumeCalls (env : Env) (message : LiveServerMessage) (w : World)
    : list Effect :=
  match base64Audio message, outputAudioContextRef w, outputNodeRef w with
  | Some b64, Some ctx, Some _ =>
      if truthy b64 && suspended env then [ContextResume ctx] else []
  | _, _, _ => []
  end.

(** The world after [playback] scheduled [audioBuffer]: the unit starts at
    the later of the cursor and the clock, the cursor moves to its end, and
    the new source joins the in-flight set. *)
Definition scheduled (env : Env) (message : LiveServerMessage)
    (audioBuffer : AudioBuffer) (w : World) : World :=
  mkWorld (connectionState w) (volume w) (error w) (transcript w) (transcriptQueue w)
    (inputAudioContextRef w) (outputAudioContextRef w) (inputSourceRef w)
    (processorRef w) (outputNodeRef w) (compressorRef w)
    (inputAnalyzerRef w) (outputAnalyzerRef w)
    (Qmax (nextStartTimeRef w) (currentTime env) + duration audioBuffer)%Q
    (setAdd (nextObject w) (activeSourcesRef w))
    (sessionRef w) (streamRef w)
    (currentInputTransRef w) (currentOutputTransRef w)
    (trace w ++ resumeCalls env message w
     ++ [SourceStart (nextObject w) audioBuffer
           (Qmax (nextStartTimeRef w) (currentTime env))])
    (S (nextObject w)).

(** The four cells the transcription handling works on: the log of the
    last render, the queue of updates, and the two accumulators. *)
Definition View : Type :=
  (list TranscriptMessage * list Update * JSString * JSString)%type.

Definition view (w : World) : View :=
  (transcript w, transcriptQueue w, currentInputTransRef w,
   currentOutputTransRef w).

Definition putView (v : View) (w : World) : World :=
  let '(log, queue, pendingIn, pendingOut) := v in
  set_currentOutputTransRef pendingOut
    (set_currentInputTransRef pendingIn
       (set_transcriptQueue queue (set_transcript log w))).

(** What one message carries for the transcript, in the order in which the
    handler looks at it. *)
Inductive Event : Type :=
| InputDelta (t : JSString)
| OutputDelta (t : JSString)
| TurnComplete.

Definition events (message : LiveServerMessage) : list Event :=
  match inputTrans message with
  | Some t => [InputDelta (textOrEmpty (transcriptionText t))]
  | None => []
  end
  ++ match outputTrans message with
     | Some t => [OutputDelta (textOrEmpty (transcriptionText t))]
     | None => []
     end
  ++ (if isTurnComplete message then [TurnComplete] else []).

(** Only white space (or nothing at all). *)
Definition blank (s : JSString) : bool := forallb isWhiteSpace s.

(** The handling of one event, in a callback with surroundings [env], on
    the four cells. *)
Definition flushView (env : Env) (v : View) : View :=
  let '(log, queue, pendingIn, pendingOut) := v in
  if blank pendingIn
  then v
  else (log, dispatch env (AppendUser pendingIn) log pendingOut queue, [],
        pendingOut).

Definition stepView (env : Env) (v : View) (e : Event) : View :=
  match e with
  | InputDelta t =>
      let '(log, queue, pendingIn, pendingOut) := v in
      (log, queue, pendingIn ++ t, pendingOut)
  | OutputDelta t =>
      let '(log, queue, pendingIn, pendingOut) := flushView env v in
      (log, dispatch env UpsertPartial log (pendingOut ++ t) queue,
       pendingIn, pendingOut ++ t)
  | TurnComplete =>
      let '(log, queue, pendingIn, pendingOut) := flushView env v in
      if truthy pendingOut
      then (log, dispatch env FinalizeLast log pendingOut queue,
            pendingIn, [])
      else (log, queue, pendingIn, pendingOut)
  end.

Definition runView (env : Env) (es : list Event) (v : View) : View :=
  fold_left (stepView env) es v.

(** A render, on the four cells. *)
Definition renderView (now : Z) (v : View) : View :=
  let '(log, queue, pendingIn, pendingOut) := v in
  (processUpdates now pendingOut queue log, [], pendingIn, pendingOut).

(** The log that a render at wall clock [now] would show from the cells
    [v], were the assistant accumulator to hold [current] by then. *)
Definition shown (now : Z) (current : JSString) (v : View)
    : list TranscriptMessage :=
  let '(log, queue, _, _) := v in
  processUpdates now current queue log.

(** What a dispatched updater reads when it runs: the clock and the
    accumulator of the dispatch when React runs it at once, those of the
    render ([now], [current]) otherwise. *)
Definition readsAt (env : Env) (queue : list Update) (pendingOut : JSString)
    (now : Z) (current : JSString) : Z * JSString :=
  match queue with
  | [] => if idle env then (dateNow env, pendingOut) else (now, current)
  | _ => (now, current)
  end.

(** A message that is neither an interruption nor dropped. *)
Definition accepted (w : World) (em : Env * LiveServerMessage) : bool :=
  negb (isInterrupted (snd em)) && negb (audioFails (snd em) w).

(** The log ends with an assistant message that is still partial. *)
Definition trailingPartial (log : list TranscriptMessage) : bool :=
  match lastOpt log with
  | Some m => Role_eqb (role m) assistant && isPartial m
  | None => false
  end.

(** The input text and the output text that a run of events carries. *)
Definition inputsOf (es : list Event) : JSString :=
  flat_map (fun e => match e with InputDelta t => t | _ => [] end) es.

Definition outputsOf (es : list Event) : JSString :=
  flat_map (fun e => match e with OutputDelta t => t | _ => [] end) es.

(** An event that leaves the speaker as it is: an output delta, or an input
    delta of white space only. *)
Definition quiet (e : Event) : bool :=
  match e with
  | InputDelta t => blank t
  | OutputDelta _ => true
  | TurnComplete => false
  end.

(** The playback units of a trace: start time and duration of each source
    started, in call order. *)
Definition unitsOf (t : list Effect) : list (Q * Q) :=
  flat_map
    (fun e => match e with
              | SourceStart _ audioBuffer startAt =>
                  [(startAt, duration audioBuffer)]
              | _ => []
              end) t.

(** Start times in call order never go down. *)
Fixpoint nondecreasing (starts : list Q) : Prop :=
  match starts with
  | [] => True
  | s :: rest =>
      match rest with
      | [] => True
      | s' :: _ => (s <= s')%Q
      end /\ nondecreasing rest
  end.

(** No unit starts before [cursor], nor before the end of the unit
    scheduled before it. *)
Fixpoint noOverlapFrom (cursor : Q) (units : list (Q * Q)) : Prop :=
  match units with
  | [] => True
  | (s, d) :: rest => (cursor <= s)%Q /\ noOverlapFrom (s + d)%Q rest
  end.

(** The first unit starts at [cursor], and each further unit exactly at the
    end of the unit scheduled before it. *)
Fixpoint backToBackFrom (cursor : Q) (units : list (Q * Q)) : Prop :=
  match units with
  | [] => True
  | (s, d) :: rest => s = cursor /\ backToBackFrom (s + d)%Q rest
  end.

(** The end of the last unit, or [cursor] when there is none. *)
Fixpoint cursorAfter (cursor : Q) (units : list (Q * Q)) : Q :=
  match units with
  | [] => cursor
  | (s, d) :: rest => cursorAfter (s + d)%Q rest
  end.

(** The producer keeps pace: each message that gets a unit scheduled
    arrives while the clock has not passed the cursor, that is, before the
    audio queued so far has been played. *)
Fixpoint keepsPace (ms : list (Env * LiveServerMessage)) (w : World) : bool :=
  match ms with
  | [] => true
  | em :: rest =>
      match decodedAudio (snd em) w with
      | Some _ => Qle_bool (currentTime (fst em)) (nextStartTimeRef w)
      | None => true
      end
      && keepsPace rest (deliver em w)
  end.

(** A message that is not an interruption and gets no unit scheduled. *)
Definition schedulesNothing (w : World) (em : Env * LiveServerMessage)
    : bool :=
  negb (isInterrupted (snd em))
  && match decodedAudio (snd em) w with
     | Some _ => false
     | None => true
     end.

(** The text of the input delta and of the output delta of a message (empty
    when the message has none). *)
Definition inputDelta (message : LiveServerMessage) : JSString :=
  match inputTrans message with
  | Some t => textOrEmpty (transcriptionText t)
  | None => []
  end.

Definition outputDelta (message : LiveServerMessage) : JSString :=
  match outputTrans message with
  | Some t => textOrEmpty (transcriptionText t)
  | None => []
  end.

(** All output deltas of a run of messages, concatenated. *)
Definition outputDeltas (ms : list (Env * LiveServerMessage)) : JSString :=
  flat_map (fun em => outputDelta (snd em)) ms.

(** The message has an output delta and no turn-complete flag. *)
Definition carriesOutputDelta (em : Env * LiveServerMessage) : bool :=
  negb (isTurnComplete (snd em))
  && match outputTrans (snd em) with
     | Some _ => true
     | None => false
     end.

(** The message has no input delta, or one of white space only. *)
Definition blankInput (em : Env * LiveServerMessage) : bool :=
  blank (inputDelta (snd em)).



Definition isUser (m : TranscriptMessage) : bool := Role_eqb (role m) user.


(** The calls of a [connect] that succeeds, the first object it creates
    having identity [n]: the two audio contexts, the gain node, the
    compressor and the analyzer of the output graph, the analyzer of the
    input graph, the microphone request, the session. *)
Definition setupCalls (n : Handle) : list Effect :=
  [ NewAudioContext n PCM_SAMPLE_RATE;
    NewAudioContext (1 + n) OUTPUT_SAMPLE_RATE;
    CreateNode (1 + n) (2 + n);
    CreateNode (1 + n) (3 + n);
    CreateNode (1 + n) (4 + n);
    CreateNode n (5 + n);
    GetUserMedia;
    LiveConnect (7 + n) ].

(** The hook after a [connect] that succeeded, before the transport has
    opened. *)
Definition connecting (w : World) : World :=
  let n := nextObject w in
  mkWorld CONNECTING (volume w) None (transcript w) (transcriptQueue w)
    (Some n) (Some (1 + n)%nat) (inputSourceRef w) (processorRef w)
    (Some (2 + n)%nat) (Some (3 + n)%nat) (Some (5 + n)%nat)
    (Some (4 + n)%nat)
    (nextStartTimeRef w) (activeSourcesRef w)
    (Some (7 + n)%nat) (Some (6 + n)%nat)
    (currentInputTransRef w) (currentOutputTransRef w)
    (trace w ++ setupCalls n) (8 + n)%nat.

(** The sources started and the sources stopped in a trace, and the
    sources whose [onended] ran in a run of callbacks. *)
Definition startedIn (t : list Effect) : list Handle :=
  flat_map (fun e => match e with SourceStart s _ _ => [s] | _ => [] end) t.

Definition stoppedIn (t : list Effect) : list Handle :=
  flat_map (fun e => match e with SourceStop s => [s] | _ => [] end) t.

Definition endedIn (cbs : list Callback) : list Handle :=
  flat_map (fun cb => match cb with Ended s => [s] | _ => [] end) cbs.

(** [onended] ran for a source that had been started by then, in a run of
    callbacks on the hook as it is before its first [connect]. *)
Definition endedAfterStart (cbs : list Callback) (s : Handle) : Prop :=
  exists before after,
    cbs = before ++ Ended s :: after
    /\ In s (startedIn (trace (session before initialWorld))).

(** How a callback other than [onended] acts on the bookkeeping of the
    playback: it keeps the in-flight set and neither starts nor stops a
    source; or it stops every source in flight and empties the set; or it
    starts one new source and adds it to the set. *)
Inductive Bookkeeping (w w' : World) : Prop :=
| Keeps (new : list Effect) :
    trace w' = trace w ++ new ->
    startedIn new = [] ->
    stoppedIn new = [] ->
    activeSourcesRef w' = activeSourcesRef w ->
    (nextObject w <= nextObject w')%nat ->
    Bookkeeping w w'
| Flushes (new : list Effect) :
    trace w' = trace w ++ new ->
    startedIn new = [] ->
    stoppedIn new = activeSourcesRef w ->
    activeSourcesRef w' = [] ->
    (nextObject w <= nextObject w')%nat ->
    Bookkeeping w w'
| Schedules (new : list Effect) :
    trace w' = trace w ++ new ->
    startedIn new = [nextObject w] ->
    stoppedIn new = [] ->
    activeSourcesRef w' = setAdd (nextObject w) (activeSourcesRef w) ->
    nextObject w' = S (nextObject w) ->
    Bookkeeping w w'.

(** The in-flight set agrees with the calls made and the sources that
    ended. *)
Definition tracked (cbs : list Callback) (w : World) : Prop :=
  NoDup (activeSourcesRef w)
  /\ NoDup (startedIn (trace w))
  /\ (forall s, In s (startedIn (trace w)) -> (s < nextObject w)%nat)
  /\ (forall s, In s (stoppedIn (trace w)) -> In s (startedIn (trace w)))
  /\ (forall s, endedAfterStart cbs s -> In s (startedIn (trace w)))
  /\ (forall s, In s (activeSourcesRef w) ->
        In s (startedIn (trace w))
        /\ ~ In s (stoppedIn (trace w))
        /\ ~ endedAfterStart cbs s)
  /\ (forall s, In s (startedIn (trace w)) ->
        In s (activeSourcesRef w)
        \/ In s (stoppedIn (trace w))
        \/ endedAfterStart cbs s).

(** What happens while a session is live: messages arrive, sources end,
    frames are drawn, the component renders. *)
Definition duringSession (cb : Callback) : bool :=
  match cb with
  | Message _ _ | Ended _ | Frame _ _ | Render _ => true
  | _ => false
  end.

(** A callback that tears the session down. *)
Definition tearsDown (cb : Callback) : bool :=
  match cb with
  | Disconnect _ | Close | Error _ => true
  | _ => false
  end.

(** The state and the refs that hold the resources of a session: the
    connection state, the error field, the audio contexts and their nodes,
    the session and the stream. *)
Definition fixtures (w : World) :=
  (connectionState w, error w,
   (inputAudioContextRef w, outputAudioContextRef w,
    inputSourceRef w, processorRef w),
   (outputNodeRef w, compressorRef w, inputAnalyzerRef w,
    outputAnalyzerRef w),
   (sessionRef w, streamRef w)).

(** The level that a frame of the meter shows. *)
Definition level (inputData outputData : list N) (w : World) : Q :=
  match connectionState w with
  | CONNECTED =>
      Qmax
        match inputAnalyzerRef w with
        | Some _ => mean inputData
        | None => 0
        end
        match outputAnalyzerRef w with
        | Some _ => mean outputData
        | None => 0
        end
  | _ => 0
  end.

(** Calls that acquire something: a microphone request, the opening of a
    session. *)
Definition requestsMicrophone (e : Effect) : bool :=
  match e with
  | GetUserMedia => true
  | _ => false
  end.

Definition opensSession (e : Effect) : bool :=
  match e with
  | LiveConnect _ => true
  | _ => false
  end.

(** An entry of the log that no later update rewrites: it is not the last
    one, or it is finalized, or it is a user entry. *)
Definition settled (log : list TranscriptMessage) (i : nat)
    (m : TranscriptMessage) : Prop :=
  (S i < List.length log)%nat \/ isPartial m = false \/ role m = user.

(** The user lines of a log, one after the other. *)
Definition userText (log : list TranscriptMessage) : JSString :=
  flat_map (fun m => if isUser m then text m else []) log.

(** [log'] continues [log]: every entry of [log] is still there, at the
    same place, with the same id, role and timestamp, and it is the very
    same entry when it was settled. *)
Definition continues (log log' : list TranscriptMessage) : Prop :=
  forall i m,
    nth_error log i = Some m ->
    exists m',
      nth_error log' i = Some m'
      /\ id m' = id m
      /\ role m' = role m
      /\ timestamp m' = timestamp m
      /\ (settled log i m -> m' = m).

(** Callbacks that may write the log or its queue: a message dispatches
    updates, a render runs them. *)
Definition writesLog (cb : Callback) : bool :=
  match cb with
  | Message _ _ | Render _ => true
  | _ => false
  end.

(** Callbacks that may write the error field. *)
Definition writesError (cb : Callback) : bool :=
  match cb with
  | Connect _ _ | Toggle _ _ _ | Error _ => true
  | _ => false
  end.

(** The timestamps of a log, none after [now], never go down. *)
Definition chronological (now : Z) (log : list TranscriptMessage) : Prop :=
  StronglySorted Z.le (map timestamp log)
  /\ Forall (fun t => (t <= now)%Z) (map timestamp log).

(** An entry as the handler writes them: a user entry is finalized and
    has a text that is not blank (so a partial entry is an assistant
    entry). *)
Definition wellFormed (m : TranscriptMessage) : Prop :=
  role m = user -> isPartial m = false /\ blank (text m) = false.

(** The messages of a run of callbacks. *)
Definition messagesOf (cbs : list Callback) : list (Env * LiveServerMessage) :=
  flat_map (fun cb => match cb with
                      | Message env message => [(env, message)]
                      | _ => []
                      end) cbs.

(** The events of the messages of a run. *)
Definition eventsOf (cbs : list Callback) : list Event :=
  flat_map (fun em => events (snd em)) (messagesOf cbs).

(** A message that is handled (it is neither an interruption nor dropped),
    or a render. *)
Definition handled (w : World) (cb : Callback) : bool :=
  match cb with
  | Message env message => accepted w (env, message)
  | Render _ => true
  | _ => false
  end.

(** A callback that leaves the speaker as it is while the assistant
    speaks: a render, or a handled message without the turn-complete flag
    and with no input delta other than white space. *)
Definition keepsSpeaker (w : World) (cb : Callback) : bool :=
  match cb with
  | Message env message =>
      accepted w (env, message)
      && negb (isTurnComplete message)
      && blankInput (env, message)
  | Render _ => true
  | _ => false
  end.

(** A step of the transcript: a callback with surroundings [env] handles
    one event of its message, or the component renders. *)
Inductive Tick : Type :=
| Handles (env : Env) (e : Event)
| Renders (now : Z).

Definition tickView (v : View) (t : Tick) : View :=
  match t with
  | Handles env e => stepView env v e
  | Renders now => renderView now v
  end.

Definition ticksOf (cb : Callback) : list Tick :=
  match cb with
  | Message env message => map (Handles env) (events message)
  | Render now => [Renders now]
  | _ => []
  end.

Definition eventOf (t : Tick) : list Event :=
  match t with
  | Handles _ e => [e]
  | Renders _ => []
  end.

Definition quietTick (t : Tick) : bool :=
  match t with
  | Handles _ e => quiet e
  | Renders _ => true
  end.

(** The user entry that the first output delta of a turn flushes: none
    when the pending text is blank. *)
Definition userLine (userText : JSString) (us : list TranscriptMessage)
    : Prop :=
  if blank userText
  then us = []
  else exists now, us = [userMessage now userText].

(** The assistant speaks: whenever the component renders next, and whatever
    the assistant accumulator holds by then, the log ends with a partial
    assistant entry, and the text of that entry is what the accumulator
    holds now, or what it holds at the render.  [P] tells what is before
    that entry, and its id and timestamp. *)
Definition speaking (P : list TranscriptMessage -> JSString -> Z -> Prop)
    (v : View) : Prop :=
  forall now current,
    exists base i ts x,
      shown now current v
      = base ++ [mkTranscriptMessage i assistant x true ts]
      /\ P base i ts
      /\ (x = current \/ x = snd v).

(** The turn started on the log [log] with the pending user text
    [userText]: before the entry of the assistant there is that log and
    the user entry, and the entry of the assistant is a new one. *)
Definition freshTurn (log : list TranscriptMessage) (userText : JSString)
    (base : list TranscriptMessage) (i : JSString) (ts : Z) : Prop :=
  (exists us, base = log ++ us /\ userLine userText us)
  /\ (exists now, i = numberToString now /\ ts = now).

(** No updater waits in the queue: what the queue holds, if anything, are
    states that React has computed. *)
Definition computedOnly (queue : list Update) : bool :=
  forallb (fun update => match update with
                         | Computed _ => true
                         | Queued _ => false
                         end) queue.

(** The readings of [Date.now()] in a run: one by the handler of each
    message, one at each render. *)
Definition timesOf (cbs : list Callback) : list Z :=
  flat_map (fun cb => match cb with
                      | Message env _ => [dateNow env]
                      | Render now => [now]
                      | _ => []
                      end) cbs.

(** The wall clock never goes back, starting from [now]. *)
Fixpoint clockFrom (now : Z) (times : list Z) : Prop :=
  match times with
  | [] => True
  | t :: rest => (now <= t)%Z /\ clockFrom t rest
  end.

(** A decoded buffer has a duration that is not negative. *)
Hypothesis duration_nonneg :
  forall audioData ctx audioBuffer,
    decodeAudioData audioData ctx OUTPUT_SAMPLE_RATE = Ok audioBuffer ->
    (0 <= duration audioBuffer)%Q.

(** ** Teardown *)

Lemma set_trace_same (w : World) : set_trace (trace w) w = w.
Proof. destruct w; reflexivity. Qed.

Lemma forEach_stop (l : list Handle) (w : World) :
  forEach stopIgnoringErrors l w
  = (Ok tt, set_trace (trace w ++ map SourceStop l) w).
Proof.
  revert w; induction l as [|src l IH]; intros w; cbn [forEach map].
  - rewrite app_nil_r, set_trace_same; reflexivity.
  - unfold bind at 1.
    assert (Hstop : stopIgnoringErrors src w
                    = (Ok tt, set_trace (trace w ++ [SourceStop src]) w)).
    { unfold stopIgnoringErrors, tryCatch, bind, perform, throwIf, throw, ret.
      destruct (stopThrows src); reflexivity. }
    rewrite Hstop, IH; cbn.
    unfold set_trace; cbn; rewrite <- app_assoc; reflexivity.
Qed.

(** [cleanup] returns, and leaves exactly this world. *)
Lemma cleanup_spec (w : World) :
  cleanup w
  = (Ok tt,
     mkWorld DISCONNECTED 0 (error w) (transcript w) (transcriptQueue w) None None
       (inputSourceRef w) (processorRef w) (outputNodeRef w) (compressorRef w)
       (inputAnalyzerRef w) (outputAnalyzerRef w) 0 [] None None [] []
       (trace w ++ teardownCalls w) (nextObject w)).
Proof.
  destruct w as [cs vol err tr tq ic oc isrc pr on cp ia oa nst act ses str ci co tc no].
  unfold cleanup, teardownCalls.
  unfold bind at 1; cbn [read].
  unfold bind at 1; rewrite forEach_stop.
  destruct str, ic, oc; lazy -[app map];
    rewrite <- ?app_assoc, ?app_nil_r; reflexivity.
Qed.

(** After [cleanup] there is nothing left to tear down. *)
Lemma teardownCalls_after_cleanup (w : World) :
  teardownCalls (exec cleanup w) = [].
Proof. unfold exec; rewrite cleanup_spec; reflexivity. Qed.

(** [try { session.close(); } catch (e) { }] returns, and only extends the
    trace. *)
Lemma close_ignoring_errors (s : Handle) (w : World) :
  tryCatch (perform (SessionClose s) ;; throwIf (closeThrows s))
    (fun _ => ret tt) w
  = (Ok tt, set_trace (trace w ++ [SessionClose s]) w).
Proof.
  unfold tryCatch, bind, perform, throwIf, throw, ret.
  destruct (closeThrows s); reflexivity.
Qed.

Lemma disconnect_spec (fulfilled : bool) (w : World) :
  disconnect fulfilled w
  = cleanup
      (match sessionRef w with
       | Some s => if fulfilled
                   then set_trace (trace w ++ [SessionClose s]) w
                   else w
       | None => w
       end).
Proof.
  unfold disconnect; unfold bind at 1; cbn [read].
  destruct (sessionRef w) as [s|]; [|reflexivity].
  unfold bind at 1, when.
  destruct fulfilled; [rewrite close_ignoring_errors|]; reflexivity.
Qed.

Lemma onerror_spec (err : Exn) (w : World) :
  onerror err w
  = cleanup
      (if truthy (message err)
          && negb (includes (message err) (utf16 "cancelled"))
       then set_error (Some CONNECTION_FAILED) w
       else w).
Proof.
  unfold onerror, bind at 1, when.
  destruct (truthy (message err) && _); reflexivity.
Qed.

(** ** Connecting *)

Lemma connect_configured (apiKey : option JSString) (p : Platform) :
  configured apiKey = true ->
  connect apiKey p = tryCatch (connectBody p) connectFailed.
Proof.
  unfold configured, connect; destruct apiKey as [key|]; [|discriminate].
  intros ->; reflexivity.
Qed.

Lemma connect_not_configured (apiKey : option JSString) (p : Platform) :
  configured apiKey = false ->
  connect apiKey p = setError (Some API_KEY_MISSING).
Proof.
  unfold configured, connect; destruct apiKey as [key|]; [|reflexivity].
  intros ->; reflexivity.
Qed.

Lemma connectBody_throws (p : Platform) (w : World) :
  platformFails p = true ->
  exists e w1, connectBody p w = (Throw e, w1).
Proof.
  unfold platformFails; intros Hfail.
  destruct p as [ic oc gum lc]; cbn [newInputContext newOutputContext
    getUserMedia liveConnect] in Hfail.
  destruct ic as [e1|];
    [|destruct oc as [e2|];
      [|destruct gum as [e3|];
        [|destruct lc as [e4|]; [|discriminate]]]].
  all: eexists _, _; lazy -[utf16 newError microphoneError app]; reflexivity.
Qed.

(** ** Playback *)

Lemma Qltb_max (x y : Q) : (if Qltb x y then y else x) = Qmax x y.
Proof.
  unfold Qltb, Qmax, GenericMinMax.gmax; destruct (x ?= y); reflexivity.
Qed.

Lemma playback_schedules (env : Env) (message : LiveServerMessage)
    (w : World) (audioBuffer : AudioBuffer) :
  decodedAudio message w = Some audioBuffer ->
  playback env message w = (Ok tt, scheduled env message audioBuffer w).
Proof.
  unfold decodedAudio, playback, scheduled, resumeCalls.
  unfold bind at 1; cbn [read]. unfold bind at 1; cbn [read].
  destruct (base64Audio message) as [b64|]; [|discriminate].
  destruct (outputAudioContextRef w) as [ctx|] eqn:Ectx; [|discriminate].
  destruct (outputNodeRef w) as [node|] eqn:Enode; [|discriminate].
  destruct (truthy b64); [|discriminate].
  destruct (decodeBase64 b64) as [audioData|] eqn:E64; [|discriminate].
  destruct (decodeAudioData audioData ctx OUTPUT_SAMPLE_RATE) as [buf|] eqn:Ebuf;
    [|discriminate].
  intros [= ->].
  rewrite <- Qltb_max.
  destruct w as [cs vol err tr tq ic oc isrc pr on cp ia oa nst act ses str ci co tc no].
  cbn [outputAudioContextRef outputNodeRef] in Ectx, Enode; subst oc on.
  unfold when, bind, liftRes, perform, newObject, read, write, ret.
  destruct (suspended env); lazy -[app Qplus setAdd Qltb currentTime duration];
    rewrite Ebuf; destruct (Qltb nst (currentTime env));
    rewrite <- ?app_assoc; reflexivity.
Qed.

(** Any other message: [playback] schedules nothing; it leaves the hook as
    it is, with at most a [resume] call in the trace. *)
Lemma playback_skips (env : Env) (message : LiveServerMessage) (w : World) :
  decodedAudio message w = None ->
  exists r,
    playback env message w
    = (r, set_trace (trace w ++ resumeCalls env message w) w)
    /\ (audioFails message w = false -> r = Ok tt).
Proof.
  unfold decodedAudio, audioFails, playback, resumeCalls.
  unfold bind at 1; cbn [read]. unfold bind at 1; cbn [read].
  destruct (base64Audio message) as [b64|];
    [|eexists; rewrite app_nil_r, set_trace_same; split; reflexivity].
  destruct (outputAudioContextRef w) as [ctx|] eqn:Ectx;
    [|eexists; rewrite app_nil_r, set_trace_same; split; reflexivity].
  destruct (outputNodeRef w) as [node|] eqn:Enode;
    [|eexists; rewrite app_nil_r, set_trace_same; split; reflexivity].
  destruct (truthy b64);
    [|eexists; rewrite app_nil_r, set_trace_same; split; reflexivity].
  unfold when, bind, liftRes, perform, newObject, read, write, ret.
  cbn [andb].
  destruct (decodeBase64 b64) as [audioData|e] eqn:E64.
  - destruct (decodeAudioData audioData ctx OUTPUT_SAMPLE_RATE) as [buf|e] eqn:Ebuf;
      [discriminate|].
    intros _.
    destruct (suspended env); cbn [trace set_trace];
      rewrite ?Ebuf, ?app_nil_r, ?set_trace_same;
      eexists; (split; [reflexivity|discriminate]).
  - intros _.
    destruct (suspended env); cbn [trace set_trace];
      rewrite ?app_nil_r, ?set_trace_same;
      eexists; (split; [reflexivity|discriminate]).
Qed.

(** ** Transcript reconciliation *)

(** [trim] leaves something exactly when some code unit is not white
    space. *)
Lemma trimStart_blank (s : JSString) : blank s = true -> trimStart s = [].
Proof.
  induction s as [|c s IH]; cbn [blank forallb trimStart]; [reflexivity|].
  destruct (isWhiteSpace c); cbn [andb]; [exact IH|discriminate].
Qed.

Lemma trimStart_not_blank (s : JSString) :
  blank s = false -> blank (trimStart s) = false /\ trimStart s <> [].
Proof.
  induction s as [|c s IH]; cbn [blank forallb trimStart]; [discriminate|].
  destruct (isWhiteSpace c) eqn:Ec; cbn [andb]; [exact IH|].
  intros _; split; [|discriminate].
  cbn [blank forallb]; rewrite Ec; reflexivity.
Qed.

Lemma blank_app (a b : JSString) : blank (a ++ b) = blank a && blank b.
Proof. apply forallb_app. Qed.

Lemma blank_rev (s : JSString) : blank (rev s) = blank s.
Proof.
  induction s as [|c s IH]; [reflexivity|].
  cbn [rev]; rewrite blank_app, IH; cbn [blank forallb].
  rewrite andb_true_r; apply andb_comm.
Qed.

Lemma truthy_trim (s : JSString) : truthy (trim s) = negb (blank s).
Proof.
  unfold trim, trimEnd.
  destruct (blank s) eqn:Hb.
  - rewrite (trimStart_blank s Hb); reflexivity.
  - destruct (trimStart_not_blank s Hb) as [Hb' _].
    rewrite <- blank_rev in Hb'.
    destruct (trimStart_not_blank _ Hb') as [_ Hne].
    destruct (trimStart (rev (trimStart s))) as [|c r]; [congruence|].
    cbn [rev negb]. destruct (rev r); reflexivity.
Qed.

Lemma view_transcript (w : World) :
  fst (fst (fst (view w))) = transcript w.
Proof. reflexivity. Qed.

Lemma view_transcriptQueue (w : World) :
  snd (fst (fst (view w))) = transcriptQueue w.
Proof. reflexivity. Qed.


Lemma view_currentOutputTransRef (w : World) :
  snd (view w) = currentOutputTransRef w.
Proof. reflexivity. Qed.

Lemma putView_view (w : World) : putView (view w) w = w.
Proof. destruct w; reflexivity. Qed.

Lemma view_putView (v : View) (w : World) : view (putView v w) = v.
Proof. destruct v as [[[log q] i] o]; reflexivity. Qed.

Lemma putView_putView (v v' : View) (w : World) :
  putView v (putView v' w) = putView v w.
Proof.
  destruct v as [[[log q] i] o], v' as [[[log' q'] i'] o']; reflexivity.
Qed.

Lemma flushUser_spec (env : Env) (w : World) :
  flushUser env w = (Ok tt, putView (flushView env (view w)) w).
Proof.
  unfold flushUser, bind, read, when; rewrite truthy_trim.
  unfold flushView, view.
  destruct (blank (currentInputTransRef w)); cbn [negb].
  - fold (view w); rewrite putView_view; reflexivity.
  - destruct w; reflexivity.
Qed.

(** The transcription handling returns, and acts on the four cells as the
    events of the message say. *)
Lemma transcription_spec (env : Env) (message : LiveServerMessage)
    (w : World) :
  transcription env message w
  = (Ok tt, putView (runView env (events message) (view w)) w).
Proof.
  unfold transcription, events, runView.
  rewrite !fold_left_app.
  unfold bind at 1.
  assert (Hin :
    match inputTrans message with
    | Some t =>
        pending <- read currentInputTransRef ;;
        write set_currentInputTransRef
          (pending ++ textOrEmpty (transcriptionText t))
    | None => ret tt
    end w
    = (Ok tt,
       putView
         (fold_left (stepView env)
            match inputTrans message with
            | Some t => [InputDelta (textOrEmpty (transcriptionText t))]
            | None => []
            end (view w)) w)).
  { destruct (inputTrans message) as [t|]; cbn [fold_left].
    - destruct w; reflexivity.
    - rewrite putView_view; reflexivity. }
  rewrite Hin; clear Hin.
  set (v1 := fold_left (stepView env)
               match inputTrans message with
               | Some t => [InputDelta (textOrEmpty (transcriptionText t))]
               | None => []
               end (view w)).
  unfold bind at 1.
  assert (Hout :
    match outputTrans message with
    | Some t =>
        flushUser env ;;
        pending <- read currentOutputTransRef ;;
        write set_currentOutputTransRef
          (pending ++ textOrEmpty (transcriptionText t)) ;;
        setTranscript env UpsertPartial
    | None => ret tt
    end (putView v1 w)
    = (Ok tt,
       putView
         (fold_left (stepView env)
            match outputTrans message with
            | Some t => [OutputDelta (textOrEmpty (transcriptionText t))]
            | None => []
            end v1) w)).
  { destruct (outputTrans message) as [t|]; cbn [fold_left];
      [|reflexivity].
    unfold bind at 1; rewrite flushUser_spec, view_putView, putView_putView.
    unfold stepView.
    destruct (flushView env v1) as [[[log q] i] o].
    destruct w; reflexivity. }
  rewrite Hout; clear Hout.
  set (v2 := fold_left (stepView env) _ v1).
  destruct (isTurnComplete message); cbn [when fold_left];
    [|reflexivity].
  unfold bind at 1; rewrite flushUser_spec, view_putView, putView_putView.
  unfold stepView.
  destruct (flushView env v2) as [[[log q] i] o].
  unfold bind, read, when, setTranscript, write.
  destruct w; cbn [putView currentOutputTransRef set_currentOutputTransRef
    set_currentInputTransRef set_transcript set_transcriptQueue].
  destruct (truthy o); reflexivity.
Qed.

(** A render, on the four cells; nothing else of the world changes. *)
Lemma render_spec (now : Z) (w : World) :
  render now w = (Ok tt, putView (renderView now (view w)) w).
Proof. destruct w; reflexivity. Qed.

(** ** Delivery of a message *)

Lemma decodedAudio_audioFails (message : LiveServerMessage) (w : World)
    (audioBuffer : AudioBuffer) :
  decodedAudio message w = Some audioBuffer -> audioFails message w = false.
Proof.
  unfold decodedAudio, audioFails.
  destruct (base64Audio message) as [b64|]; [|reflexivity].
  destruct (outputAudioContextRef w) as [ctx|]; [|reflexivity].
  destruct (outputNodeRef w) as [node|]; [|reflexivity].
  destruct (truthy b64); [|reflexivity].
  destruct (decodeBase64 b64) as [audioData|]; [|discriminate].
  destruct (decodeAudioData audioData ctx OUTPUT_SAMPLE_RATE); [|discriminate].
  reflexivity.
Qed.

(** A message without the interrupted flag whose payload decodes: the unit
    is scheduled, then the transcript is updated. *)
Lemma deliver_scheduled (env : Env) (message : LiveServerMessage)
    (w : World) (audioBuffer : AudioBuffer) :
  isInterrupted message = false ->
  decodedAudio message w = Some audioBuffer ->
  deliver (env, message) w
  = putView (runView env (events message) (view w))
      (scheduled env message audioBuffer w).
Proof.
  intros Hint Hdec.
  unfold deliver, exec, onmessage; cbn [fst snd]; rewrite Hint.
  unfold bind; rewrite (playback_schedules env _ _ _ Hdec).
  rewrite transcription_spec; reflexivity.
Qed.

(** A message without the interrupted flag that schedules nothing and is
    not dropped: only the transcript is updated. *)
Lemma deliver_unscheduled (env : Env) (message : LiveServerMessage)
    (w : World) :
  isInterrupted message = false ->
  decodedAudio message w = None ->
  audioFails message w = false ->
  deliver (env, message) w
  = putView (runView env (events message) (view w))
      (set_trace (trace w ++ resumeCalls env message w) w).
Proof.
  intros Hint Hdec Hok.
  unfold deliver, exec, onmessage; cbn [fst snd]; rewrite Hint.
  destruct (playback_skips env _ _ Hdec) as (r & Hr & Hr').
  unfold bind; rewrite Hr, (Hr' Hok), transcription_spec; reflexivity.
Qed.

(** A message without the interrupted flag whose payload fails to decode
    is dropped. *)
Lemma deliver_dropped (env : Env) (message : LiveServerMessage)
    (w : World) :
  isInterrupted message = false ->
  audioFails message w = true ->
  deliver (env, message) w
  = set_trace (trace w ++ resumeCalls env message w) w.
Proof.
  intros Hint Hfail.
  unfold deliver, exec, onmessage; cbn [fst snd]; rewrite Hint.
  assert (Hdec : decodedAudio message w = None).
  { destruct (decodedAudio message w) eqn:E; [|reflexivity].
    rewrite (decodedAudio_audioFails _ _ _ E) in Hfail; discriminate. }
  destruct (playback_skips env _ _ Hdec) as (r & Hr & _).
  unfold bind; rewrite Hr.
  destruct r as [[]|e]; [|reflexivity].
  exfalso; revert Hr Hfail.
  unfold audioFails, playback.
  unfold bind at 1; cbn [read]. unfold bind at 1; cbn [read].
  destruct (base64Audio message) as [b64|]; [|discriminate].
  destruct (outputAudioContextRef w) as [ctx|]; [|discriminate].
  destruct (outputNodeRef w) as [node|]; [|discriminate].
  destruct (truthy b64); [|discriminate].
  unfold when, bind, liftRes, perform, read, write, ret; cbn [andb].
  destruct (decodeBase64 b64) as [audioData|e].
  - destruct (decodeAudioData audioData ctx OUTPUT_SAMPLE_RATE) eqn:Ebuf;
      [discriminate|].
    destruct (suspended env); cbn [trace set_trace]; rewrite ?Ebuf;
      discriminate.
  - destruct (suspended env); discriminate.
Qed.

(** The interrupted flag: every in-flight source is stopped, and the set,
    the cursor and the assistant accumulator are reset; nothing else of the
    message is looked at. *)
Lemma deliver_interrupted (env : Env) (message : LiveServerMessage)
    (w : World) :
  isInterrupted message = true ->
  onmessage env message w
  = (Ok tt,
     set_currentOutputTransRef []
       (set_nextStartTimeRef 0
          (set_activeSourcesRef []
             (set_trace (trace w ++ map SourceStop (activeSourcesRef w)) w)))).
Proof.
  intros Hint; unfold onmessage; rewrite Hint.
  unfold interruption.
  unfold bind at 1; cbn [read].
  unfold bind at 1; rewrite forEach_stop.
  reflexivity.
Qed.


(** On the four cells, an accepted message acts as its events say. *)
Lemma deliver_view (em : Env * LiveServerMessage) (w : World) :
  accepted w em = true ->
  view (deliver em w) = runView (fst em) (events (snd em)) (view w).
Proof.
  destruct em as [env message]; unfold accepted; cbn [fst snd].
  intros H; apply andb_prop in H as [Hint Hok].
  apply negb_true_iff in Hint; apply negb_true_iff in Hok.
  destruct (decodedAudio message w) as [audioBuffer|] eqn:Hdec.
  - rewrite (deliver_scheduled env _ _ _ Hint Hdec), view_putView; reflexivity.
  - rewrite (deliver_unscheduled env _ _ Hint Hdec Hok), view_putView.
    reflexivity.
Qed.

(** A message that is not accepted leaves the log, the queue and the user
    accumulator as they are. *)
Lemma deliver_rejected (em : Env * LiveServerMessage) (w : World) :
  accepted w em = false ->
  transcript (deliver em w) = transcript w
  /\ transcriptQueue (deliver em w) = transcriptQueue w
  /\ currentInputTransRef (deliver em w) = currentInputTransRef w.
Proof.
  destruct em as [env message]; unfold accepted; cbn [snd]; intros Hacc.
  destruct (isInterrupted message) eqn:Hint.
  - unfold deliver, exec; cbn [fst snd].
    rewrite (deliver_interrupted env _ w Hint); repeat split.
  - destruct (audioFails message w) eqn:Hfail; [|discriminate].
    rewrite (deliver_dropped env _ _ Hint Hfail); repeat split.
Qed.

(** No message changes the output context or the output node. *)
Lemma deliver_output_refs (em : Env * LiveServerMessage) (w : World) :
  outputAudioContextRef (deliver em w) = outputAudioContextRef w
  /\ outputNodeRef (deliver em w) = outputNodeRef w.
Proof.
  destruct em as [env message].
  destruct (isInterrupted message) eqn:Hint.
  - unfold deliver, exec; cbn [fst snd].
    rewrite (deliver_interrupted env _ w Hint); split; reflexivity.
  - destruct (audioFails message w) eqn:Hfail.
    + rewrite (deliver_dropped env _ _ Hint Hfail); split; reflexivity.
    + destruct (decodedAudio message w) as [audioBuffer|] eqn:Hdec.
      * rewrite (deliver_scheduled env _ _ _ Hint Hdec).
        destruct (runView _ _ _) as [[[log q] i] o]; split; reflexivity.
      * rewrite (deliver_unscheduled env _ _ Hint Hdec Hfail).
        destruct (runView _ _ _) as [[[log q] i] o]; split; reflexivity.
Qed.

Lemma audioFails_deliver (message : LiveServerMessage)
    (em : Env * LiveServerMessage) (w : World) :
  audioFails message (deliver em w) = audioFails message w.
Proof.
  unfold audioFails.
  destruct (deliver_output_refs em w) as [-> ->]; reflexivity.
Qed.

Lemma decodedAudio_deliver (message : LiveServerMessage)
    (em : Env * LiveServerMessage) (w : World) :
  decodedAudio message (deliver em w) = decodedAudio message w.
Proof.
  unfold decodedAudio.
  destruct (deliver_output_refs em w) as [-> ->]; reflexivity.
Qed.

Lemma accepted_deliver (em em' : Env * LiveServerMessage) (w : World) :
  accepted (deliver em' w) em = accepted w em.
Proof. unfold accepted; rewrite audioFails_deliver; reflexivity. Qed.

Lemma accepted_render (em : Env * LiveServerMessage) (now : Z) (w : World) :
  accepted (exec (render now) w) em = accepted w em.
Proof. reflexivity. Qed.

(** ** The updaters *)

Lemma lastOpt_snoc (A : Type) (l : list A) (x : A) :
  lastOpt (l ++ [x]) = Some x.
Proof.
  destruct l as [|y l]; [reflexivity|].
  cbn [app lastOpt]; f_equal; apply last_last.
Qed.

Lemma upsertPartial_fresh (now : Z) (t : JSString)
    (log : list TranscriptMessage) :
  trailingPartial log = false ->
  upsertPartial now t log = log ++ [assistantPartial now t].
Proof.
  unfold trailingPartial, upsertPartial.
  destruct (lastOpt log) as [m|]; [|reflexivity].
  intros ->; reflexivity.
Qed.

Lemma upsertPartial_replace (now : Z) (t t0 : JSString)
    (log : list TranscriptMessage) (i : JSString) (ts : Z) :
  upsertPartial now t (log ++ [mkTranscriptMessage i assistant t0 true ts])
  = log ++ [mkTranscriptMessage i assistant t true ts].
Proof.
  unfold upsertPartial; rewrite lastOpt_snoc; cbn [role isPartial Role_eqb andb].
  rewrite removelast_last; reflexivity.
Qed.


Lemma finalizeLast_user (log : list TranscriptMessage)
    (m : TranscriptMessage) :
  role m = user -> finalizeLast (log ++ [m]) = log ++ [m].
Proof.
  intros Hm; unfold finalizeLast; rewrite lastOpt_snoc, Hm; reflexivity.
Qed.

Lemma trailingPartial_user (log : list TranscriptMessage)
    (m : TranscriptMessage) :
  role m = user -> trailingPartial (log ++ [m]) = false.
Proof.
  intros Hm; unfold trailingPartial; rewrite lastOpt_snoc, Hm; reflexivity.
Qed.

(** An updater that returns the array it was given leaves the log as it
    is. *)
Lemma returnsPrev_same (now : Z) (current : JSString) (updater : Updater)
    (prev : list TranscriptMessage) :
  returnsPrev updater prev = true ->
  runUpdater now current updater prev = prev.
Proof.
  destruct updater; cbn [returnsPrev runUpdater]; try discriminate.
  unfold finalizeLast.
  destruct (lastOpt prev) as [m|]; [|reflexivity].
  destruct (Role_eqb (role m) assistant); [discriminate|reflexivity].
Qed.

(** ** Dispatch and render *)

Lemma processUpdates_snoc (now : Z) (current : JSString)
    (queue : list Update) (update : Update)
    (log : list TranscriptMessage) :
  processUpdates now current (queue ++ [update]) log
  = applyUpdate now current (processUpdates now current queue log) update.
Proof. unfold processUpdates; rewrite fold_left_app; reflexivity. Qed.

(** The heart of the model: at the render, a dispatched updater has run on
    the log that the updates before it give, and what it has read is the
    clock and the accumulator of the dispatch when React ran it at once,
    those of the render otherwise. *)
Lemma processUpdates_dispatch (env : Env) (updater : Updater)
    (log : list TranscriptMessage) (pendingOut : JSString)
    (queue : list Update) (now : Z) (current : JSString) :
  processUpdates now current (dispatch env updater log pendingOut queue) log
  = runUpdater (fst (readsAt env queue pendingOut now current))
      (snd (readsAt env queue pendingOut now current)) updater
      (processUpdates now current queue log).
Proof.
  unfold dispatch, readsAt.
  destruct queue as [|update queue].
  - destruct (idle env); [|reflexivity].
    destruct (returnsPrev updater log) eqn:Hsame; [|reflexivity].
    cbn [processUpdates fold_left fst snd].
    symmetry; apply returnsPrev_same; exact Hsame.
  - rewrite processUpdates_snoc; reflexivity.
Qed.

Lemma readsAt_cases (env : Env) (queue : list Update) (pendingOut : JSString)
    (now : Z) (current : JSString) :
  readsAt env queue pendingOut now current = (now, current)
  \/ readsAt env queue pendingOut now current = (dateNow env, pendingOut)
     /\ queue = [] /\ idle env = true.
Proof.
  unfold readsAt; destruct queue; [|left; reflexivity].
  destruct (idle env); [right; repeat split|left; reflexivity].
Qed.

Lemma readsAt_pending (env : Env) (update : Update) (queue : list Update)
    (pendingOut : JSString) (now : Z) (current : JSString) :
  readsAt env (update :: queue) pendingOut now current = (now, current).
Proof. reflexivity. Qed.


Lemma shown_renderView (now now' : Z) (current : JSString) (v : View) :
  shown now' current (renderView now v) = shown now (snd v) v.
Proof. destruct v as [[[log q] i] o]; reflexivity. Qed.

(** What a render shows after the flush of the user text. *)
Lemma shown_flushView (env : Env) (v : View) (now : Z) (current : JSString) :
  shown now current (flushView env v)
  = if blank (snd (fst v))
    then shown now current v
    else shown now current v
         ++ [userMessage
               (fst (readsAt env (snd (fst (fst v))) (snd v) now current))
               (snd (fst v))].
Proof.
  destruct v as [[[log q] i] o]; unfold flushView; cbn [fst snd].
  destruct (blank i); [reflexivity|].
  unfold shown; rewrite processUpdates_dispatch; reflexivity.
Qed.

Lemma flushView_cells (env : Env) (v : View) :
  fst (fst (fst (flushView env v))) = fst (fst (fst v))
  /\ snd (fst (flushView env v))
     = (if blank (snd (fst v)) then snd (fst v) else [])
  /\ snd (flushView env v) = snd v
  /\ blank (snd (fst (flushView env v))) = true.
Proof.
  destruct v as [[[log q] i] o]; unfold flushView; cbn [fst snd].
  destruct (blank i) eqn:Hb; cbn [fst snd]; rewrite ?Hb; repeat split.
Qed.


(** Neither a message nor a render writes the log of the last render
    anywhere but at the render. *)
Lemma stepView_log (env : Env) (v : View) (e : Event) :
  fst (fst (fst (stepView env v e))) = fst (fst (fst v)).
Proof.
  destruct (flushView_cells env v) as (Hlog & _).
  destruct e as [t|t|]; unfold stepView.
  - destruct v as [[[log q] i] o]; reflexivity.
  - destruct (flushView env v) as [[[log' q'] i'] o']; exact Hlog.
  - destruct (flushView env v) as [[[log' q'] i'] o'].
    destruct (truthy o'); exact Hlog.
Qed.

Lemma runView_log (env : Env) (es : list Event) (v : View) :
  fst (fst (fst (runView env es v))) = fst (fst (fst v)).
Proof.
  revert v; induction es as [|e es IH]; intros v; [reflexivity|].
  cbn [runView fold_left]; fold (runView env es (stepView env v e)).
  rewrite IH; apply stepView_log.
Qed.

(** ** The session life cycle *)

(** C8. Without a credential ([process.env.API_KEY] unset or empty),
    [connect] returns at once: the only thing it does is to set the error
    field to the "API Key is missing" message.  The connection state is the
    one it was (it stays Disconnected, and Connecting is never set), nothing
    is called on the platform (no microphone request, no audio context, no
    transport session), and no ref changes. *)
Theorem connect_without_credential (apiKey : option JSString)
    (p : Platform) (w : World) :
  configured apiKey = false ->
  connect apiKey p w = (Ok tt, set_error (Some API_KEY_MISSING) w)
  /\ error (exec (connect apiKey p) w) = Some API_KEY_MISSING
  /\ connectionState (exec (connect apiKey p) w) = connectionState w
  /\ trace (exec (connect apiKey p) w) = trace w
  /\ streamRef (exec (connect apiKey p) w) = streamRef w
  /\ inputAudioContextRef (exec (connect apiKey p) w) = inputAudioContextRef w
  /\ outputAudioContextRef (exec (connect apiKey p) w) = outputAudioContextRef w
  /\ sessionRef (exec (connect apiKey p) w) = sessionRef w.
Proof.
  intros Hkey; unfold exec.
  rewrite (connect_not_configured _ p Hkey).
  repeat split.
Qed.

(** C4. When a call of [connect] on the platform throws (one of the two
    audio context constructions, the microphone request, the opening of the
    transport), the exception reaches the [catch] block: the error field is
    set to a non-empty message, the state is set to Error, and [cleanup]
    runs from there.  [connect] itself returns; the world it leaves has the
    message in the error field, state Disconnected, and no stream, audio
    context, session or in-flight source, every resource referenced at the
    throw having been released. *)
Theorem connect_failure_funnels_through_cleanup (apiKey : option JSString)
    (p : Platform) (w : World) :
  configured apiKey = true ->
  platformFails p = true ->
  exists err w1,
    connectBody p w = (Throw err, w1)
    /\ let msg := orElse (message err) INIT_FAILED in
       let wErr := set_connectionState ERROR (set_error (Some msg) w1) in
       let w' := exec (connect apiKey p) w in
       connect apiKey p w = cleanup wErr
       /\ connectionState wErr = ERROR
       /\ error wErr = Some msg
       /\ truthy msg = true
       /\ fst (connect apiKey p w) = Ok tt
       /\ error w' = Some msg
       /\ connectionState w' = DISCONNECTED
       /\ volume w' = 0
       /\ activeSourcesRef w' = []
       /\ streamRef w' = None
       /\ inputAudioContextRef w' = None
       /\ outputAudioContextRef w' = None
       /\ sessionRef w' = None
       /\ trace w' = trace w1 ++ teardownCalls w1.
Proof.
  intros Hkey Hfail.
  destruct (connectBody_throws p w Hfail) as (err & w1 & Hbody).
  exists err, w1; split; [exact Hbody|].
  cbv zeta.
  assert (Hconnect : connect apiKey p w
    = cleanup (set_connectionState ERROR
        (set_error (Some (orElse (message err) INIT_FAILED)) w1))).
  { rewrite (connect_configured _ p Hkey).
    unfold tryCatch; rewrite Hbody; reflexivity. }
  unfold exec; rewrite Hconnect, cleanup_spec.
  repeat split.
  unfold orElse; destruct (message err); reflexivity.
Qed.

(** C5. [cleanup] never throws, whatever the world it starts from (and so
    also when no stream, audio context or session was ever acquired, and
    when [source.stop()] throws).  It leaves state Disconnected, volume 0,
    both accumulators empty, the cursor at 0, and the in-flight set, the
    stream, the two audio contexts and the session cleared.  Running it
    again changes nothing at all, and on the hook as it is before the first
    [connect] it changes nothing either. *)
Theorem cleanup_idempotent_and_partial_init_safe (w : World) :
  let w' := exec cleanup w in
  cleanup w = (Ok tt, w')
  /\ connectionState w' = DISCONNECTED
  /\ volume w' = 0
  /\ currentInputTransRef w' = []
  /\ currentOutputTransRef w' = []
  /\ nextStartTimeRef w' = 0
  /\ activeSourcesRef w' = []
  /\ streamRef w' = None
  /\ inputAudioContextRef w' = None
  /\ outputAudioContextRef w' = None
  /\ sessionRef w' = None
  /\ cleanup w' = (Ok tt, w')
  /\ cleanup initialWorld = (Ok tt, initialWorld).
Proof.
  cbv zeta; unfold exec.
  rewrite !cleanup_spec; cbn [snd].
  repeat split.
  cbn [error transcript inputSourceRef processorRef outputNodeRef
    compressorRef inputAnalyzerRef outputAnalyzerRef trace nextObject
    teardownCalls activeSourcesRef streamRef inputAudioContextRef
    outputAudioContextRef map app].
  rewrite app_nil_r; reflexivity.
Qed.

(** What states React has computed does not depend on the render. *)
Lemma processUpdates_computed (now now' : Z) (current current' : JSString)
    (queue : list Update) (log : list TranscriptMessage) :
  computedOnly queue = true ->
  processUpdates now current queue log
  = processUpdates now' current' queue log.
Proof.
  revert log; induction queue as [|update queue IH]; intros log;
    [reflexivity|].
  cbn [computedOnly forallb]; intros H; apply andb_prop in H as [Hu Hq].
  destruct update; [|discriminate].
  cbn [processUpdates fold_left applyUpdate]; apply (IH _ Hq).
Qed.

(** A callback that leaves the log and its queue as they are leaves what
    a render shows as it is, when no updater waits in the queue. *)
Lemma rendered_same (now : Z) (w w' : World) :
  transcript w' = transcript w ->
  transcriptQueue w' = transcriptQueue w ->
  computedOnly (transcriptQueue w) = true ->
  rendered now w' = rendered now w.
Proof.
  intros Hlog Hqueue Hcomputed; unfold rendered; rewrite Hlog, Hqueue.
  apply processUpdates_computed; exact Hcomputed.
Qed.


(** ** Interruption *)

(** C9. A message with the interrupted flag is handled by the interruption
    branch alone: the handler returns after it, whatever else the message
    carries.  No source is created or started (the trace only gains the
    stop calls), and the user accumulator and the transcript log are as
    they were: no update of the log is dispatched, and when no updater
    waits in the queue, the log that a render shows after the message is
    the log that it shows before. *)
Theorem interrupted_message_only_interrupts (env : Env)
    (message : LiveServerMessage) (w : World) :
  isInterrupted message = true ->
  let w' := exec (onmessage env message) w in
  onmessage env message w = (Ok tt, w')
  /\ (forall env' message',
        isInterrupted message' = true ->
        onmessage env' message' w = onmessage env message w)
  /\ trace w' = trace w ++ map SourceStop (activeSourcesRef w)
  /\ nextObject w' = nextObject w
  /\ currentInputTransRef w' = currentInputTransRef w
  /\ transcript w' = transcript w
  /\ transcriptQueue w' = transcriptQueue w
  /\ (computedOnly (transcriptQueue w) = true ->
      forall now, rendered now w' = rendered now w).
Proof.
  intros Hint; cbv zeta; unfold exec.
  rewrite (deliver_interrupted env _ w Hint); cbn [snd].
  split; [reflexivity|].
  split.
  { intros env' message' Hint'.
    rewrite (deliver_interrupted env' _ w Hint'); reflexivity. }
  split; [reflexivity|].
  split; [reflexivity|].
  split; [reflexivity|].
  split; [reflexivity|].
  split; [reflexivity|].
  intros Hcomputed now; apply rendered_same;
    solve [reflexivity|exact Hcomputed].
Qed.

(** ** The playback schedule *)

Lemma unitsOf_app (t t' : list Effect) :
  unitsOf (t ++ t') = unitsOf t ++ unitsOf t'.
Proof. apply flat_map_app. Qed.

Lemma unitsOf_resumeCalls (env : Env) (message : LiveServerMessage)
    (w : World) :
  unitsOf (resumeCalls env message w) = [].
Proof.
  unfold resumeCalls.
  destruct (base64Audio message), (outputAudioContextRef w),
    (outputNodeRef w); try reflexivity.
  destruct (truthy _ && suspended env); reflexivity.
Qed.

Lemma decodedAudio_duration (message : LiveServerMessage) (w : World)
    (audioBuffer : AudioBuffer) :
  decodedAudio message w = Some audioBuffer ->
  (0 <= duration audioBuffer)%Q.
Proof.
  unfold decodedAudio.
  destruct (base64Audio message) as [b64|]; [|discriminate].
  destruct (outputAudioContextRef w) as [ctx|]; [|discriminate].
  destruct (outputNodeRef w) as [node|]; [|discriminate].
  destruct (truthy b64); [|discriminate].
  destruct (decodeBase64 b64) as [audioData|]; [|discriminate].
  destruct (decodeAudioData audioData ctx OUTPUT_SAMPLE_RATE) eqn:Ebuf;
    [|discriminate].
  intros [= <-]; eapply duration_nonneg; exact Ebuf.
Qed.

(** What a message without the interrupted flag does to the trace and to
    the cursor. *)
Lemma deliver_playback (env : Env) (message : LiveServerMessage)
    (w : World) :
  isInterrupted message = false ->
  match decodedAudio message w with
  | Some audioBuffer =>
      trace (deliver (env, message) w)
      = trace w ++ resumeCalls env message w
        ++ [SourceStart (nextObject w) audioBuffer
              (Qmax (nextStartTimeRef w) (currentTime env))]
      /\ nextStartTimeRef (deliver (env, message) w)
         = (Qmax (nextStartTimeRef w) (currentTime env)
            + duration audioBuffer)%Q
  | None =>
      trace (deliver (env, message) w)
      = trace w ++ resumeCalls env message w
      /\ nextStartTimeRef (deliver (env, message) w) = nextStartTimeRef w
  end.
Proof.
  intros Hint.
  destruct (decodedAudio message w) as [audioBuffer|] eqn:Hdec.
  - rewrite (deliver_scheduled env _ _ _ Hint Hdec).
    destruct (runView _ _ _) as [[[log q] i] o]; split; reflexivity.
  - destruct (audioFails message w) eqn:Hfail.
    + rewrite (deliver_dropped env _ _ Hint Hfail); split; reflexivity.
    + rewrite (deliver_unscheduled env _ _ Hint Hdec Hfail).
      destruct (runView _ _ _) as [[[log q] i] o]; split; reflexivity.
Qed.

Lemma Qmax_cursor (cursor now : Q) :
  Qle_bool now cursor = true -> Qmax cursor now = cursor.
Proof.
  intros H; apply Qle_bool_iff in H.
  unfold Qmax, GenericMinMax.gmax.
  destruct (cursor ?= now) eqn:E; try reflexivity.
  apply Qlt_alt in E; lra.
Qed.



(** Units that do not overlap and have durations that are not negative
    start in non-decreasing order, none before the cursor. *)
Lemma noOverlap_nondecreasing (cursor : Q) (us : list (Q * Q)) :
  noOverlapFrom cursor us ->
  Forall (fun u => (0 <= snd u)%Q) us ->
  nondecreasing (map fst us)
  /\ Forall (fun s => (cursor <= s)%Q) (map fst us).
Proof.
  revert cursor; induction us as [|[s d] us IH]; intros cursor;
    cbn [noOverlapFrom map fst nondecreasing].
  - intros _ _; split; constructor.
  - intros [Hs Hrest] Hd; inversion Hd as [|u us' Hd1 Hd2]; subst.
    cbn [snd] in Hd1.
    destruct (IH _ Hrest Hd2) as [Hnd Hge]; split.
    + split; [|exact Hnd].
      destruct us as [|[s' d'] us]; cbn [map fst]; [exact I|].
      inversion Hge as [|x l Hx Hl]; subst; lra.
    + constructor; [exact Hs|].
      eapply Forall_impl; [|exact Hge]; cbn beta; intros; lra.
Qed.

(** The schedule of any run of messages without interruption. *)
Lemma deliverAll_schedule (ms : list (Env * LiveServerMessage)) (w : World) :
  forallb (fun em => negb (isInterrupted (snd em))) ms = true ->
  exists new,
    trace (deliverAll ms w) = trace w ++ new
    /\ noOverlapFrom (nextStartTimeRef w) (unitsOf new)
    /\ Forall (fun u => (0 <= snd u)%Q) (unitsOf new)
    /\ nextStartTimeRef (deliverAll ms w)
       = cursorAfter (nextStartTimeRef w) (unitsOf new)
    /\ (keepsPace ms w = true ->
        backToBackFrom (nextStartTimeRef w) (unitsOf new)).
Proof.
  revert w; induction ms as [|[env message] ms IH]; intros w.
  - intros _; exists []; cbn; rewrite app_nil_r; repeat split; constructor.
  - cbn [forallb snd deliverAll fold_left keepsPace fst].
    intros H; apply andb_prop in H as [Hint Hms].
    apply negb_true_iff in Hint.
    fold (deliverAll ms (deliver (env, message) w)).
    destruct (IH (deliver (env, message) w) Hms)
      as (new & Htr & Hno & Hdur & Hcur & Hpace).
    pose proof (deliver_playback env message w Hint) as Hstep.
    destruct (decodedAudio message w) as [audioBuffer|] eqn:Hdec.
    + destruct Hstep as [Htr1 Hcur1].
      exists ((resumeCalls env message w
               ++ [SourceStart (nextObject w) audioBuffer
                     (Qmax (nextStartTimeRef w) (currentTime env))]) ++ new).
      rewrite Htr, Htr1, Hcur.
      rewrite !unitsOf_app, unitsOf_resumeCalls.
      cbn [unitsOf flat_map app noOverlapFrom backToBackFrom cursorAfter].
      fold (unitsOf new).
      rewrite Hcur1 in *.
      split; [rewrite <- !app_assoc; reflexivity|].
      split; [split; [apply Q.le_max_l|exact Hno]|].
      split; [constructor;
              [exact (decodedAudio_duration _ _ _ Hdec)|exact Hdur]|].
      split; [reflexivity|].
      intros Hkeep; apply andb_prop in Hkeep as [Hle Hrest].
      split; [apply Qmax_cursor; exact Hle|exact (Hpace Hrest)].
    + destruct Hstep as [Htr1 Hcur1].
      exists (resumeCalls env message w ++ new).
      rewrite Htr, Htr1, Hcur.
      rewrite !unitsOf_app, unitsOf_resumeCalls.
      cbn [app].
      rewrite Hcur1 in *.
      split; [rewrite <- !app_assoc; reflexivity|].
      split; [exact Hno|].
      split; [exact Hdur|].
      split; [reflexivity|].
      intros Hkeep; exact (Hpace Hkeep).
Qed.

Lemma deliverAll_schedulesNothing (ms : list (Env * LiveServerMessage))
    (w : World) :
  forallb (schedulesNothing w) ms = true ->
  nextStartTimeRef (deliverAll ms w) = nextStartTimeRef w.
Proof.
  revert w; induction ms as [|[env message] ms IH]; intros w; [reflexivity|].
  cbn [forallb deliverAll fold_left].
  intros H; apply andb_prop in H as [Hem Hms].
  fold (deliverAll ms (deliver (env, message) w)).
  unfold schedulesNothing in Hem; cbn [snd] in Hem.
  apply andb_prop in Hem as [Hint Hdec]; apply negb_true_iff in Hint.
  pose proof (deliver_playback env message w Hint) as Hstep.
  destruct (decodedAudio message w); [discriminate|].
  destruct Hstep as [_ <-].
  apply IH.
  rewrite <- Hms; clear.
  induction ms as [|em' ms IH]; [reflexivity|].
  cbn [forallb]; rewrite IH; unfold schedulesNothing.
  rewrite decodedAudio_deliver; reflexivity.
Qed.

(** C2. A message whose payload decodes gets its unit started at the later
    of the cursor [nextStartTimeRef] and the clock of the output context,
    and the cursor is then moved on by the duration of the buffer.  Hence,
    over any run of messages without interruption, the start times of the
    units scheduled never go down and no unit starts before the end of the
    one scheduled before it; and when every buffer arrives before the
    queued audio has been played (the clock has not passed the cursor), the
    units are exactly back to back: each starts where the one before it
    ends. *)
Theorem playback_schedule_monotonic_and_gapless :
  (forall env message w audioBuffer,
     isInterrupted message = false ->
     decodedAudio message w = Some audioBuffer ->
     trace (deliver (env, message) w)
     = trace w ++ resumeCalls env message w
       ++ [SourceStart (nextObject w) audioBuffer
             (Qmax (nextStartTimeRef w) (currentTime env))]
     /\ nextStartTimeRef (deliver (env, message) w)
        = (Qmax (nextStartTimeRef w) (currentTime env)
           + duration audioBuffer)%Q)
  /\ (forall ms w,
        forallb (fun em => negb (isInterrupted (snd em))) ms = true ->
        exists new,
          trace (deliverAll ms w) = trace w ++ new
          /\ nondecreasing (map fst (unitsOf new))
          /\ noOverlapFrom (nextStartTimeRef w) (unitsOf new)
          /\ (keepsPace ms w = true ->
              backToBackFrom (nextStartTimeRef w) (unitsOf new))).
Proof.
  split.
  - intros env message w audioBuffer Hint Hdec.
    pose proof (deliver_playback env message w Hint) as Hstep.
    rewrite Hdec in Hstep; exact Hstep.
  - intros ms w Hms.
    destruct (deliverAll_schedule ms w Hms)
      as (new & Htr & Hno & Hdur & _ & Hpace).
    exists new; repeat split; try assumption.
    pose proof Hno as Hnd; apply noOverlap_nondecreasing in Hnd;
      [exact (proj1 Hnd)|exact Hdur].
Qed.

(** C3. A message with the interrupted flag stops every in-flight source
    (in the order of the set), empties the set, puts the cursor back to
    zero and empties the assistant accumulator.  The next unit scheduled
    after it, with any messages in between that schedule nothing, starts at
    the later of zero and the clock: at or after the clock, at the clock
    itself when the clock is not negative, and in no case behind the audio
    that was queued before the interruption. *)
Theorem interruption_resets_playback (env : Env)
    (message : LiveServerMessage) (w : World) :
  isInterrupted message = true ->
  let w1 := deliver (env, message) w in
  trace w1 = trace w ++ map SourceStop (activeSourcesRef w)
  /\ activeSourcesRef w1 = []
  /\ nextStartTimeRef w1 = 0
  /\ currentOutputTransRef w1 = []
  /\ (forall mid env2 message2 audioBuffer,
        forallb (schedulesNothing w1) mid = true ->
        isInterrupted message2 = false ->
        let w2 := deliverAll mid w1 in
        decodedAudio message2 w2 = Some audioBuffer ->
        trace (deliver (env2, message2) w2)
        = trace w2 ++ resumeCalls env2 message2 w2
          ++ [SourceStart (nextObject w2) audioBuffer
                (Qmax 0 (currentTime env2))]
        /\ (currentTime env2 <= Qmax 0 (currentTime env2))%Q
        /\ ((0 <= currentTime env2)%Q ->
            (Qmax 0 (currentTime env2) == currentTime env2)%Q)).
Proof.
  intros Hint; cbv zeta.
  assert (Hw1 : deliver (env, message) w
    = set_currentOutputTransRef []
        (set_nextStartTimeRef 0
           (set_activeSourcesRef []
              (set_trace (trace w ++ map SourceStop (activeSourcesRef w)) w)))).
  { unfold deliver, exec; cbn [fst snd].
    rewrite (deliver_interrupted env _ w Hint); reflexivity. }
  split; [rewrite Hw1; reflexivity|].
  split; [rewrite Hw1; reflexivity|].
  split; [rewrite Hw1; reflexivity|].
  split; [rewrite Hw1; reflexivity|].
  intros mid env2 message2 audioBuffer Hmid Hint2 Hdec.
  split; [|split].
  - pose proof (deliver_playback env2 message2
                  (deliverAll mid (deliver (env, message) w)) Hint2) as Hstep.
    rewrite Hdec in Hstep; destruct Hstep as [Htr _].
    rewrite Htr, (deliverAll_schedulesNothing _ _ Hmid), Hw1; reflexivity.
  - apply Q.le_max_r.
  - intros Hclock; apply Q.max_r; exact Hclock.
Qed.

(** ** Turns of the conversation *)

Lemma session_app (cbs cbs' : list Callback) (w : World) :
  session (cbs ++ cbs') w = session cbs' (session cbs w).
Proof. apply fold_left_app. Qed.

Lemma session_snoc (cbs : list Callback) (cb : Callback) (w : World) :
  session (cbs ++ [cb]) w = exec (react cb) (session cbs w).
Proof. apply session_app. Qed.

Lemma forallb_same (A : Type) (p q : A -> bool) (l : list A) :
  (forall x, p x = q x) -> forallb p l = forallb q l.
Proof.
  intros H; induction l as [|x l IH]; [reflexivity|].
  cbn [forallb]; rewrite H, IH; reflexivity.
Qed.

Lemma render_view (now : Z) (w : World) :
  view (exec (render now) w) = renderView now (view w).
Proof. unfold exec; rewrite render_spec; apply view_putView. Qed.

(** On the four cells, a handled callback acts as its ticks say. *)
Lemma react_view (cb : Callback) (w : World) :
  handled w cb = true ->
  view (exec (react cb) w) = fold_left tickView (ticksOf cb) (view w).
Proof.
  destruct cb as [key p|f|key p f|f|b|env msg| |err|s|i o|now];
    try discriminate; cbn [handled ticksOf react]; intros H.
  - change (exec (onmessage env msg) w) with (deliver (env, msg) w).
    rewrite (deliver_view _ _ H); cbn [fst snd]; unfold runView.
    generalize (view w); induction (events msg) as [|e es IH]; intros v;
      [reflexivity|].
    cbn [map fold_left]; apply IH.
  - apply render_view.
Qed.

Lemma handled_react (cb cb' : Callback) (w : World) :
  handled w cb = true ->
  handled (exec (react cb) w) cb' = handled w cb'.
Proof.
  destruct cb as [key p|f|key p f|f|b|env msg| |err|s|i o|now];
    try discriminate; intros _; destruct cb'; try reflexivity.
  cbn [handled react].
  change (exec (onmessage env msg) w) with (deliver (env, msg) w).
  apply accepted_deliver.
Qed.

Lemma session_view (cbs : list Callback) (w : World) :
  forallb (handled w) cbs = true ->
  view (session cbs w) = fold_left tickView (flat_map ticksOf cbs) (view w).
Proof.
  revert w; induction cbs as [|cb cbs IH]; intros w; [reflexivity|].
  cbn [forallb flat_map session fold_left].
  fold (session cbs (exec (react cb) w)).
  intros H; apply andb_prop in H as [Hcb Hcbs].
  rewrite fold_left_app, <- (react_view _ _ Hcb).
  apply IH.
  rewrite <- Hcbs; apply forallb_same; intros cb'.
  apply handled_react; exact Hcb.
Qed.

Lemma eventsOf_ticks (cbs : list Callback) :
  eventsOf cbs = flat_map eventOf (flat_map ticksOf cbs).
Proof.
  unfold eventsOf, messagesOf.
  induction cbs as [|cb cbs IH]; [reflexivity|].
  cbn [flat_map]; rewrite !flat_map_app, IH; f_equal.
  destruct cb; try reflexivity; cbn [flat_map ticksOf snd].
  - rewrite app_nil_r.
    induction (events message0) as [|e es IHes]; [reflexivity|].
    cbn [map flat_map eventOf app]; rewrite <- IHes; reflexivity.
Qed.

(** A render with nothing in the queue shows the log it showed. *)
Lemma renderView_settled (now : Z) (log : list TranscriptMessage)
    (pendingIn pendingOut : JSString) :
  renderView now (log, [], pendingIn, pendingOut)
  = (log, [], pendingIn, pendingOut).
Proof. reflexivity. Qed.

(** *** While the assistant speaks *)


(** A quiet tick keeps the assistant speaking: an input delta of white
    space waits in the user accumulator, an output delta rewrites the text
    of the one partial entry, a render shows it. *)
Lemma speaking_tick (P : list TranscriptMessage -> JSString -> Z -> Prop)
    (log : list TranscriptMessage) (queue : list Update)
    (pendingIn pendingOut : JSString) (t : Tick) :
  quietTick t = true ->
  blank pendingIn = true ->
  speaking P (log, queue, pendingIn, pendingOut) ->
  exists log' queue',
    tickView (log, queue, pendingIn, pendingOut) t
    = (log', queue', (pendingIn ++ inputsOf (eventOf t) : JSString),
       (pendingOut ++ outputsOf (eventOf t) : JSString))
    /\ blank (pendingIn ++ inputsOf (eventOf t)) = true
    /\ speaking P
         (log', queue', (pendingIn ++ inputsOf (eventOf t) : JSString),
          (pendingOut ++ outputsOf (eventOf t) : JSString)).
Proof.
  intros Hq Hb Hs.
  destruct t as [env [t|t|]|now]; cbn [quietTick quiet] in Hq;
    try discriminate;
    cbn [tickView stepView renderView eventOf inputsOf outputsOf flat_map app];
    rewrite ?app_nil_r.
  - exists log, queue; split; [reflexivity|].
    split; [rewrite blank_app, Hb, Hq; reflexivity|].
    exact Hs.
  - unfold flushView; rewrite Hb.
    eexists _, _; split; [reflexivity|]. split; [reflexivity|].
    intros now current.
    destruct (Hs now current) as (base & i & ts & x & Hshown & HP & _).
    cbn [shown] in *.
    rewrite processUpdates_dispatch, Hshown; cbn [runUpdater].
    rewrite upsertPartial_replace.
    eexists base, i, ts, _; split; [reflexivity|]. split; [exact HP|].
    cbn [snd].
    destruct (readsAt_cases env queue (pendingOut ++ t) now current)
      as [->|[-> _]]; [left|right]; reflexivity.
  - eexists _, _; split; [reflexivity|]. split; [exact Hb|].
    intros now' current'.
    destruct (Hs now pendingOut) as (base & i & ts & x & Hshown & HP & Hx).
    cbn [shown snd] in *.
    exists base, i, ts, x; split; [exact Hshown|]. split; [exact HP|].
    right; destruct Hx; assumption.
Qed.

Lemma speaking_ticks (P : list TranscriptMessage -> JSString -> Z -> Prop)
    (ts : list Tick) (log : list TranscriptMessage) (queue : list Update)
    (pendingIn pendingOut : JSString) :
  forallb quietTick ts = true ->
  blank pendingIn = true ->
  speaking P (log, queue, pendingIn, pendingOut) ->
  exists log' queue',
    fold_left tickView ts (log, queue, pendingIn, pendingOut)
    = (log', queue',
       (pendingIn ++ inputsOf (flat_map eventOf ts) : JSString),
       (pendingOut ++ outputsOf (flat_map eventOf ts) : JSString))
    /\ blank (pendingIn ++ inputsOf (flat_map eventOf ts)) = true
    /\ speaking P
         (log', queue',
          (pendingIn ++ inputsOf (flat_map eventOf ts) : JSString),
          (pendingOut ++ outputsOf (flat_map eventOf ts) : JSString)).
Proof.
  revert log queue pendingIn pendingOut.
  induction ts as [|t ts IH]; intros log queue pendingIn pendingOut Hq Hb Hs.
  - cbn [fold_left flat_map inputsOf outputsOf]; rewrite !app_nil_r.
    exists log, queue; auto.
  - cbn [forallb] in Hq; apply andb_prop in Hq as [Ht Hts].
    destruct (speaking_tick P _ _ _ _ t Ht Hb Hs)
      as (log1 & queue1 & Hstep & Hb1 & Hs1).
    cbn [fold_left]; rewrite Hstep.
    destruct (IH _ _ _ _ Hts Hb1 Hs1) as (log2 & queue2 & Hrun & Hb2 & Hs2).
    exists log2, queue2.
    cbn [flat_map]; unfold inputsOf, outputsOf in *.
    rewrite !flat_map_app, !app_assoc.
    auto.
Qed.


(** The first output delta of a turn, with nothing in the queue: the
    pending user text is flushed unless it is blank, then the partial is
    upserted; from then on the assistant speaks. *)
Lemma first_delta_fresh (env : Env) (log : list TranscriptMessage)
    (pendingIn pendingOut d : JSString) :
  (blank pendingIn = true -> trailingPartial log = false) ->
  exists queue',
    stepView env (log, [], pendingIn, pendingOut) (OutputDelta d)
    = (log, queue', (if blank pendingIn then pendingIn else []),
       (pendingOut ++ d : JSString))
    /\ speaking (freshTurn log pendingIn)
         (log, queue', (if blank pendingIn then pendingIn else []),
          (pendingOut ++ d : JSString)).
Proof.
  intros Hfresh; unfold stepView, flushView, freshTurn, userLine.
  destruct (blank pendingIn) eqn:Hb.
  - eexists; split; [reflexivity|].
    intros now current; cbn [shown].
    rewrite processUpdates_dispatch; cbn [runUpdater processUpdates fold_left].
    rewrite (upsertPartial_fresh _ _ _ (Hfresh eq_refl)).
    eexists log, _, _, _; split; [reflexivity|]. split.
    + split; [exists []; split; [symmetry; apply app_nil_r|reflexivity]|].
      eexists; split; reflexivity.
    + cbn [snd].
      destruct (readsAt_cases env [] (pendingOut ++ d) now current)
        as [->|[-> _]]; [left|right]; reflexivity.
  - eexists; split; [reflexivity|].
    intros now current; cbn [shown].
    rewrite !processUpdates_dispatch;
      cbn [runUpdater processUpdates fold_left].
    rewrite upsertPartial_fresh by (apply trailingPartial_user; reflexivity).
    eexists (log ++ [userMessage _ pendingIn]), _, _, _.
    split; [reflexivity|]. split.
    + split; [eexists; split; [reflexivity|eexists; reflexivity]|].
      eexists; split; reflexivity.
    + cbn [snd].
      destruct (readsAt_cases env
                  (dispatch env (AppendUser pendingIn) log pendingOut [])
                  (pendingOut ++ d) now current)
        as [->|[-> _]]; [left|right]; reflexivity.
Qed.




(** *** The events of a run *)




Lemma outputsOf_events (message : LiveServerMessage) :
  outputsOf (events message) = outputDelta message.
Proof.
  unfold events, outputsOf, outputDelta; rewrite !flat_map_app.
  destruct (inputTrans message), (outputTrans message),
    (isTurnComplete message); cbn [flat_map app]; rewrite ?app_nil_r;
    reflexivity.
Qed.

Lemma inputsOf_events (message : LiveServerMessage) :
  inputsOf (events message) = inputDelta message.
Proof.
  unfold events, inputsOf, inputDelta; rewrite !flat_map_app.
  destruct (inputTrans message), (outputTrans message),
    (isTurnComplete message); cbn [flat_map app]; rewrite ?app_nil_r;
    reflexivity.
Qed.

Lemma outputsOf_eventsOf (cbs : list Callback) :
  outputsOf (eventsOf cbs) = outputDeltas (messagesOf cbs).
Proof.
  unfold eventsOf, outputDeltas, outputsOf.
  induction (messagesOf cbs) as [|em ms IH]; [reflexivity|].
  cbn [flat_map]; rewrite flat_map_app, IH; f_equal.
  apply outputsOf_events.
Qed.

Lemma quiet_events (message : LiveServerMessage) :
  isTurnComplete message = false ->
  blank (inputDelta message) = true ->
  forallb quiet (events message) = true.
Proof.
  unfold events, inputDelta; intros -> Hb.
  destruct (inputTrans message), (outputTrans message);
    cbn [app forallb quiet]; rewrite ?Hb; reflexivity.
Qed.

Lemma keepsSpeaker_quiet (w : World) (cbs : list Callback) :
  forallb (keepsSpeaker w) cbs = true ->
  forallb (handled w) cbs = true
  /\ forallb quietTick (flat_map ticksOf cbs) = true.
Proof.
  induction cbs as [|cb cbs IH]; [split; reflexivity|].
  cbn [forallb flat_map]; intros H; apply andb_prop in H as [Hcb Hcbs].
  destruct (IH Hcbs) as [Hh Hq]; rewrite forallb_app, Hh, Hq, !andb_true_r.
  destruct cb; try discriminate; cbn [keepsSpeaker handled ticksOf] in *.
  - apply andb_prop in Hcb as [Hcb Hblank].
    apply andb_prop in Hcb as [Hacc Htc].
    apply negb_true_iff in Htc.
    split; [exact Hacc|].
    pose proof (quiet_events _ Htc Hblank) as Hev.
    induction (events message0) as [|e es IHes]; [reflexivity|].
    cbn [map forallb quietTick] in *.
    apply andb_prop in Hev as [-> Hes]; exact (IHes Hes).
  - split; reflexivity.
Qed.

Lemma events_output (message : LiveServerMessage) :
  outputTrans message <> None ->
  events message
  = match inputTrans message with
    | Some _ => [InputDelta (inputDelta message)]
    | None => []
    end
    ++ OutputDelta (outputDelta message)
       :: (if isTurnComplete message then [TurnComplete] else []).
Proof.
  unfold events, inputDelta, outputDelta.
  destruct (outputTrans message); [|contradiction].
  destruct (inputTrans message); reflexivity.
Qed.

Lemma carriesOutputDelta_spec (em : Env * LiveServerMessage) :
  carriesOutputDelta em = true ->
  outputTrans (snd em) <> None /\ isTurnComplete (snd em) = false.
Proof.
  unfold carriesOutputDelta; intros H; apply andb_prop in H as [Htc Hout].
  apply negb_true_iff in Htc; split; [|exact Htc].
  destruct (outputTrans (snd em)); discriminate.
Qed.

(** The input delta of a message, if it has one, on the four cells. *)
Lemma input_event (env : Env) (message : LiveServerMessage)
    (log : list TranscriptMessage) (queue : list Update)
    (pendingIn pendingOut : JSString) :
  fold_left tickView
    (map (Handles env)
       match inputTrans message with
       | Some _ => [InputDelta (inputDelta message)]
       | None => []
       end) (log, queue, pendingIn, pendingOut)
  = (log, queue, (pendingIn ++ inputDelta message : JSString), pendingOut).
Proof.
  unfold inputDelta; destruct (inputTrans message); cbn [map fold_left];
    [reflexivity|rewrite app_nil_r; reflexivity].
Qed.

Lemma forallb_firstn (A : Type) (p : A -> bool) (n : nat) (l : list A) :
  forallb p l = true -> forallb p (firstn n l) = true.
Proof.
  revert n; induction l as [|x l IH]; intros [|n]; cbn [firstn forallb];
    try reflexivity.
  intros H; apply andb_prop in H as [Hx Hl]; rewrite Hx, (IH n Hl).
  reflexivity.
Qed.

Lemma filter_none (A : Type) (p : A -> bool) (l : list A) :
  forallb (fun x => negb (p x)) l = true -> filter p l = [].
Proof.
  induction l as [|x l IH]; [reflexivity|].
  cbn [forallb filter]; intros H; apply andb_prop in H as [Hx Hl].
  apply negb_true_iff in Hx; rewrite Hx; exact (IH Hl).
Qed.

(** A turn from its first output delta on, while the assistant speaks: on
    the four cells. *)
Lemma speaking_run (w : World) (env : Env) (message : LiveServerMessage)
    (cbs : list Callback) :
  transcriptQueue w = [] ->
  accepted w (env, message) = true ->
  carriesOutputDelta (env, message) = true ->
  forallb (keepsSpeaker w) cbs = true ->
  let userText := currentInputTransRef w ++ inputDelta message in
  (blank userText = true -> trailingPartial (transcript w) = false) ->
  forallb (handled w) (Message env message :: cbs) = true
  /\ exists log' queue' pendingIn',
       view (session (Message env message :: cbs) w)
       = (log', queue', pendingIn',
          currentOutputTransRef w
          ++ outputDeltas (messagesOf (Message env message :: cbs)))
       /\ blank pendingIn' = true
       /\ speaking (freshTurn (transcript w) userText)
            (log', queue', pendingIn',
             currentOutputTransRef w
             ++ outputDeltas (messagesOf (Message env message :: cbs))).
Proof.
  intros Hq Hacc Hcarry Hcbs; cbv zeta; intros Hfresh.
  destruct (keepsSpeaker_quiet _ _ Hcbs) as [Hhandled Hquiet].
  assert (Hall : forallb (handled w) (Message env message :: cbs) = true).
  { cbn [forallb handled]; rewrite Hacc, Hhandled; reflexivity. }
  split; [exact Hall|].
  rewrite (session_view _ _ Hall).
  cbn [flat_map ticksOf]; rewrite fold_left_app.
  destruct (carriesOutputDelta_spec _ Hcarry) as [Hout Htc].
  cbn [snd] in Hout, Htc.
  rewrite (events_output _ Hout), Htc, map_app, fold_left_app.
  unfold view at 1; rewrite Hq, input_event.
  cbn [map fold_left tickView].
  destruct (first_delta_fresh env (transcript w)
              (currentInputTransRef w ++ inputDelta message)
              (currentOutputTransRef w) (outputDelta message) Hfresh)
    as (queue1 & -> & Hs1).
  assert (Hb1 : blank (if blank (currentInputTransRef w ++ inputDelta message)
                       then currentInputTransRef w ++ inputDelta message
                       else []) = true).
  { destruct (blank (currentInputTransRef w ++ inputDelta message)) eqn:E;
      [exact E|reflexivity]. }
  destruct (speaking_ticks _ _ _ _ _ _ Hquiet Hb1 Hs1)
    as (log2 & queue2 & -> & Hb2 & Hs2).
  assert (Houts : (currentOutputTransRef w ++ outputDelta message)
                  ++ outputsOf (flat_map eventOf (flat_map ticksOf cbs))
                  = currentOutputTransRef w
                    ++ outputDeltas (messagesOf (Message env message :: cbs))).
  { rewrite <- eventsOf_ticks, outputsOf_eventsOf, <- app_assoc.
    reflexivity. }
  rewrite Houts in *.
  eexists _, _, _; split; [reflexivity|]. split; assumption.
Qed.

(** C6, as amended.  Take a turn that starts with nothing in the queue and
    an empty assistant accumulator, at the message that brings its first
    output delta, and let it go on with any run of renders and of handled
    messages that carry no turn-complete flag and no input delta other
    than white space (further output deltas, audio, nothing at all), in any
    order.  On the first delta the pending user text (with the input delta
    of that same message) is flushed as a finalized user entry unless it is
    blank; suppose that, when it is blank, the log does not end with a
    partial assistant entry left over from before.  Then, whenever the
    component renders (after the first message and any number [n] of the
    callbacks that follow), the log is the log of the start, the user
    entry if there is one, and exactly one partial assistant entry, whose
    text is the concatenation of all output deltas so far; the assistant
    accumulator holds the same text.  If the log had no partial entry at
    the start of the turn, this entry is its only partial entry. *)
Theorem output_deltas_collapse_into_one_partial (w : World) (env : Env)
    (message : LiveServerMessage) (cbs : list Callback) :
  transcriptQueue w = [] ->
  currentOutputTransRef w = [] ->
  accepted w (env, message) = true ->
  carriesOutputDelta (env, message) = true ->
  forallb (keepsSpeaker w) cbs = true ->
  let userText := currentInputTransRef w ++ inputDelta message in
  (blank userText = true -> trailingPartial (transcript w) = false) ->
  forall n now,
    let sofar := Message env message :: firstn n cbs in
    let w' := session (sofar ++ [Render now]) w in
    exists us i ts,
      transcript w'
      = transcript w ++ us
        ++ [mkTranscriptMessage i assistant
              (outputDeltas (messagesOf sofar)) true ts]
      /\ userLine userText us
      /\ currentOutputTransRef w' = outputDeltas (messagesOf sofar)
      /\ transcriptQueue w' = []
      /\ (forallb (fun m => negb (isPartial m)) (transcript w) = true ->
          filter isPartial (transcript w')
          = [mkTranscriptMessage i assistant
               (outputDeltas (messagesOf sofar)) true ts]).
Proof.
  intros Hq Hout0 Hacc Hcarry Hcbs; cbv zeta; intros Hfresh n now.
  pose proof (forallb_firstn _ _ n _ Hcbs) as Hcbs'.
  destruct (speaking_run w env message (firstn n cbs) Hq Hacc Hcarry Hcbs'
              Hfresh)
    as (Hall & log' & queue' & pendingIn' & Hview & Hb & Hs).
  rewrite Hout0 in Hview, Hs; cbn [app] in Hview, Hs.
  set (sofar := Message env message :: firstn n cbs) in *.
  rewrite session_snoc.
  pose proof (render_view now (session sofar w)) as Hrender.
  change (exec (render now) (session sofar w))
    with (exec (react (Render now)) (session sofar w)) in Hrender.
  rewrite Hview in Hrender.
  set (w' := exec (react (Render now)) (session sofar w)) in *.
  destruct (Hs now (outputDeltas (messagesOf sofar)))
    as (base & i & ts & x & Hshown & [(us & -> & Hus) _] & Hx).
  cbn [shown snd] in Hshown, Hx.
  assert (Hx' : x = outputDeltas (messagesOf sofar))
    by (destruct Hx; assumption).
  subst x.
  cbn [renderView] in Hrender.
  assert (Hlog : transcript w'
                 = transcript w ++ us
                   ++ [mkTranscriptMessage i assistant
                         (outputDeltas (messagesOf sofar)) true ts]).
  { rewrite <- view_transcript, Hrender; cbn [fst].
    rewrite Hshown, <- app_assoc; reflexivity. }
  exists us, i, ts.
  split; [exact Hlog|]. split; [exact Hus|].
  split; [rewrite <- view_currentOutputTransRef, Hrender; reflexivity|].
  split; [rewrite <- view_transcriptQueue, Hrender; reflexivity|].
  intros Hnone; rewrite Hlog, !filter_app, (filter_none _ _ _ Hnone).
  cbn [filter isPartial app].
  unfold userLine in Hus.
  destruct (blank (currentInputTransRef w ++ inputDelta message)).
  - subst us; reflexivity.
  - destruct Hus as [tu ->]; reflexivity.
Qed.

Lemma rendered_shown (now : Z) (w : World) :
  rendered now w = shown now (currentOutputTransRef w) (view w).
Proof. reflexivity. Qed.

(** The log after a render is the log that the render shows. *)
Lemma render_transcript (now : Z) (w : World) :
  transcript (exec (render now) w) = rendered now w
  /\ transcriptQueue (exec (render now) w) = []
  /\ currentInputTransRef (exec (render now) w) = currentInputTransRef w
  /\ currentOutputTransRef (exec (render now) w) = currentOutputTransRef w.
Proof. repeat split. Qed.















(** ** More on the life cycle *)

(** The [try] block of [connect] on a platform on which nothing fails. *)
Lemma connectBody_succeeds (p : Platform) (w : World) :
  platformFails p = false -> connectBody p w = (Ok tt, connecting w).
Proof.
  unfold platformFails.
  destruct p as [[e1|] [e2|] [e3|] [e4|]];
    cbn [newInputContext newOutputContext getUserMedia liveConnect];
    try discriminate.
  intros _; destruct w; lazy -[app]; rewrite <- !app_assoc; reflexivity.
Qed.

(** X1. With a credential and a platform on which no call fails, [connect]
    returns and leaves the state Connecting (Connected is set by [onopen]
    only), the error field cleared, and the two audio contexts, the four
    nodes, the stream and the session referenced, each a fresh object; it
    makes the eight set-up calls and no other call, and leaves the
    transcript, the accumulators, the cursor and the in-flight set as they
    were. *)
Theorem connect_acquires_resources (apiKey : option JSString) (p : Platform)
    (w : World) :
  configured apiKey = true ->
  platformFails p = false ->
  let w' := exec (connect apiKey p) w in
  connect apiKey p w = (Ok tt, connecting w)
  /\ connectionState w' = CONNECTING
  /\ error w' = None
  /\ inputAudioContextRef w' = Some (nextObject w)
  /\ outputAudioContextRef w' = Some (1 + nextObject w)%nat
  /\ streamRef w' = Some (6 + nextObject w)%nat
  /\ sessionRef w' = Some (7 + nextObject w)%nat
  /\ trace w' = trace w ++ setupCalls (nextObject w)
  /\ transcript w' = transcript w
  /\ activeSourcesRef w' = activeSourcesRef w.
Proof.
  intros Hkey Hok; cbv zeta; unfold exec.
  rewrite (connect_configured _ p Hkey); unfold tryCatch.
  rewrite (connectBody_succeeds p w Hok).
  repeat split.
Qed.

Lemma JSString_eqb_eq (a b : JSString) : JSString_eqb a b = true <-> a = b.
Proof.
  revert b; induction a as [|c a IH]; intros [|d b]; cbn [JSString_eqb];
    try (split; [discriminate|discriminate]); [split; reflexivity|].
  rewrite andb_true_iff, N.eqb_eq, IH; split.
  - intros [-> ->]; reflexivity.
  - intros [= -> ->]; split; reflexivity.
Qed.

Lemma JSString_eqb_neq (a b : JSString) : a <> b -> JSString_eqb a b = false.
Proof.
  intros Hne; destruct (JSString_eqb a b) eqn:E; [|reflexivity].
  apply JSString_eqb_eq in E; contradiction.
Qed.

(** The catch block of [connect], from the world at the throw. *)
Lemma connectFailed_spec (err : Exn) (w : World) :
  connectFailed err w
  = cleanup (set_connectionState ERROR
      (set_error (Some (orElse (message err) INIT_FAILED)) w)).
Proof. reflexivity. Qed.

(** [cleanup] requests no microphone and opens no session. *)
Lemma teardownCalls_release (w : World) :
  existsb requestsMicrophone (teardownCalls w) = false
  /\ existsb opensSession (teardownCalls w) = false.
Proof.
  unfold teardownCalls; rewrite !existsb_app.
  assert (Hstop : forall f, (forall s, f (SourceStop s) = false) ->
            existsb f (map SourceStop (activeSourcesRef w)) = false).
  { intros f Hf; induction (activeSourcesRef w) as [|s l IH];
      [reflexivity|cbn [map existsb]; rewrite Hf, IH; reflexivity]. }
  rewrite !Hstop by reflexivity.
  destruct (streamRef w), (inputAudioContextRef w), (outputAudioContextRef w);
    split; reflexivity.
Qed.

(** X2. When the construction of an audio context throws, [connect] stops
    there: it requests no microphone and opens no session.  The exception
    is replaced by the hook's own: whatever was thrown, the error field
    holds the "Could not initialize AudioContext" message.  The hook ends
    Disconnected with nothing referenced, and the input context, when it
    had been built before the output context failed, is closed again. *)
Theorem connect_without_audio_context (apiKey : option JSString)
    (p : Platform) (w : World) (e : Exn) :
  configured apiKey = true ->
  newInputContext p = Some e
  \/ (newInputContext p = None /\ newOutputContext p = Some e) ->
  let w' := exec (connect apiKey p) w in
  error w'
  = Some (utf16
      "Could not initialize AudioContext. Your browser may not support it.")
  /\ connectionState w' = DISCONNECTED
  /\ inputAudioContextRef w' = None
  /\ outputAudioContextRef w' = None
  /\ streamRef w' = None
  /\ sessionRef w' = None
  /\ exists new,
       trace w' = trace w ++ new
       /\ existsb requestsMicrophone new = false
       /\ existsb opensSession new = false
       /\ (newInputContext p = None ->
           new = NewAudioContext (nextObject w) PCM_SAMPLE_RATE
                 :: map SourceStop (activeSourcesRef w)
                 ++ match streamRef w with
                    | Some s => [StopTracks s]
                    | None => []
                    end
                 ++ ContextClose (nextObject w)
                 :: match outputAudioContextRef w with
                    | Some c => [ContextClose c]
                    | None => []
                    end).
Proof.
  intros Hkey Hfail; cbv zeta; unfold exec.
  rewrite (connect_configured _ p Hkey); unfold tryCatch.
  destruct p as [ic oc gum lc];
    cbn [newInputContext newOutputContext] in Hfail.
  destruct Hfail as [->|[-> ->]].
  - assert (Hbody : connectBody (mkPlatform (Some e) oc gum lc) w
      = (Throw (newError
           "Could not initialize AudioContext. Your browser may not support it."),
         set_error None (set_connectionState CONNECTING w))).
    { destruct w; reflexivity. }
    rewrite Hbody, connectFailed_spec, cleanup_spec; cbn [snd].
    repeat split.
    exists (teardownCalls w).
    destruct (teardownCalls_release w) as [Hmic Hses].
    split; [destruct w; reflexivity|].
    split; [exact Hmic|].
    split; [exact Hses|discriminate].
  - assert (Hbody : connectBody (mkPlatform None (Some e) gum lc) w
      = (Throw (newError
           "Could not initialize AudioContext. Your browser may not support it."),
         set_inputAudioContextRef (Some (nextObject w))
           (set_trace (trace w ++ [NewAudioContext (nextObject w) PCM_SAMPLE_RATE])
              (set_nextObject (S (nextObject w))
                 (set_error None (set_connectionState CONNECTING w)))))).
    { destruct w; reflexivity. }
    rewrite Hbody, connectFailed_spec, cleanup_spec; cbn [snd].
    repeat split.
    assert (Hstop : forall f, (forall s, f (SourceStop s) = false) ->
              existsb f (map SourceStop (activeSourcesRef w)) = false).
    { intros f Hf; induction (activeSourcesRef w) as [|s l IH];
        [reflexivity|cbn [map existsb]; rewrite Hf, IH; reflexivity]. }
    exists (NewAudioContext (nextObject w) PCM_SAMPLE_RATE
            :: map SourceStop (activeSourcesRef w)
            ++ match streamRef w with
               | Some s => [StopTracks s]
               | None => []
               end
            ++ ContextClose (nextObject w)
            :: match outputAudioContextRef w with
               | Some c => [ContextClose c]
               | None => []
               end).
    split; [|split; [|split]].
    + destruct w; cbn [trace set_trace set_inputAudioContextRef
        set_connectionState set_error set_nextObject teardownCalls
        activeSourcesRef streamRef inputAudioContextRef
        outputAudioContextRef nextObject].
      rewrite <- app_assoc; reflexivity.
    + cbn [existsb requestsMicrophone orb].
      rewrite !existsb_app, Hstop by reflexivity.
      destruct (streamRef w), (outputAudioContextRef w); reflexivity.
    + cbn [existsb opensSession orb].
      rewrite !existsb_app, Hstop by reflexivity.
      destruct (streamRef w), (outputAudioContextRef w); reflexivity.
    + intros _; reflexivity.
Qed.

(** The message of the error that replaces a failure of the microphone
    request. *)
Lemma microphoneError_message (e : Exn) :
  truthy (message (microphoneError e)) = true
  /\ (name e = utf16 "NotAllowedError"
      \/ name e = utf16 "PermissionDeniedError" ->
      message (microphoneError e)
      = utf16 "Microphone access denied. Please allow permissions in your browser settings.")
  /\ (name e = utf16 "NotFoundError"
      \/ name e = utf16 "DevicesNotFoundError" ->
      message (microphoneError e)
      = utf16 "No microphone found. Please check your input devices.")
  /\ (name e <> utf16 "NotAllowedError" ->
      name e <> utf16 "PermissionDeniedError" ->
      name e <> utf16 "NotFoundError" ->
      name e <> utf16 "DevicesNotFoundError" ->
      message (microphoneError e)
      = utf16 "Could not access microphone: " ++ message e).
Proof.
  unfold microphoneError.
  split; [|split; [|split]].
  - destruct (_ || _); [reflexivity|].
    destruct (_ || _); reflexivity.
  - intros [H|H]; rewrite H;
      [reflexivity|].
    reflexivity.
  - intros [H|H]; rewrite H; reflexivity.
  - intros H1 H2 H3 H4.
    rewrite (JSString_eqb_neq _ _ H1), (JSString_eqb_neq _ _ H2),
      (JSString_eqb_neq _ _ H3), (JSString_eqb_neq _ _ H4).
    reflexivity.
Qed.

(** X3. When the two audio contexts are built and the microphone request
    throws, [connect] opens no session: after the seven set-up calls up to
    the request it tears down (the two contexts just built are closed).
    The error field holds the hook's message for the kind of failure,
    chosen by the name of the exception: access denied, no microphone
    found, or "Could not access microphone: " followed by the message of
    the exception; it is never empty. *)
Theorem connect_without_microphone (apiKey : option JSString)
    (p : Platform) (w : World) (e : Exn) :
  configured apiKey = true ->
  newInputContext p = None ->
  newOutputContext p = None ->
  getUserMedia p = Some e ->
  let n := nextObject w in
  let w' := exec (connect apiKey p) w in
  error w' = Some (message (microphoneError e))
  /\ truthy (message (microphoneError e)) = true
  /\ (name e = utf16 "NotAllowedError"
      \/ name e = utf16 "PermissionDeniedError" ->
      error w'
      = Some (utf16 "Microphone access denied. Please allow permissions in your browser settings."))
  /\ (name e = utf16 "NotFoundError"
      \/ name e = utf16 "DevicesNotFoundError" ->
      error w'
      = Some (utf16 "No microphone found. Please check your input devices."))
  /\ (name e <> utf16 "NotAllowedError" ->
      name e <> utf16 "PermissionDeniedError" ->
      name e <> utf16 "NotFoundError" ->
      name e <> utf16 "DevicesNotFoundError" ->
      error w'
      = Some (utf16 "Could not access microphone: " ++ message e))
  /\ connectionState w' = DISCONNECTED
  /\ inputAudioContextRef w' = None
  /\ outputAudioContextRef w' = None
  /\ streamRef w' = None
  /\ sessionRef w' = None
  /\ trace w'
     = trace w ++ removelast (setupCalls n)
       ++ map SourceStop (activeSourcesRef w)
       ++ match streamRef w with
          | Some s => [StopTracks s]
          | None => []
          end
       ++ [ContextClose n; ContextClose (1 + n)].
Proof.
  intros Hkey Hic Hoc Hgum; cbv zeta; unfold exec.
  rewrite (connect_configured _ p Hkey); unfold tryCatch.
  destruct p as [ic oc gum lc];
    cbn [newInputContext newOutputContext getUserMedia] in Hic, Hoc, Hgum.
  subst ic oc gum.
  assert (Hbody : exists w1,
    connectBody (mkPlatform None None (Some e) lc) w
    = (Throw (microphoneError e), w1)
    /\ trace w1 = trace w ++ removelast (setupCalls (nextObject w))
    /\ activeSourcesRef w1 = activeSourcesRef w
    /\ streamRef w1 = streamRef w
    /\ inputAudioContextRef w1 = Some (nextObject w)
    /\ outputAudioContextRef w1 = Some (1 + nextObject w)%nat).
  { destruct w as [cs vol err tr tq ic oc isrc pr on cp ia oa nst act ses str
      ci co tc no].
    eexists; split; [lazy -[app microphoneError]; reflexivity|].
    cbn [trace activeSourcesRef streamRef inputAudioContextRef
      outputAudioContextRef nextObject].
    split; [|repeat split].
    lazy -[app]; rewrite <- !app_assoc; reflexivity. }
  destruct Hbody as (w1 & -> & Htr & Hact & Hstr & Hin & Hout).
  rewrite connectFailed_spec, cleanup_spec; cbn [snd].
  destruct (microphoneError_message e) as (Hne & Hdenied & Hnone & Hother).
  assert (Hmsg : orElse (message (microphoneError e)) INIT_FAILED
                 = message (microphoneError e)).
  { unfold orElse; rewrite Hne; reflexivity. }
  cbn [error connectionState inputAudioContextRef outputAudioContextRef
    streamRef sessionRef trace set_connectionState set_error].
  rewrite Hmsg.
  split; [reflexivity|].
  split; [exact Hne|].
  split; [intros H; rewrite (Hdenied H); reflexivity|].
  split; [intros H; rewrite (Hnone H); reflexivity|].
  split; [intros H1 H2 H3 H4; rewrite (Hother H1 H2 H3 H4); reflexivity|].
  do 5 (split; [reflexivity|]).
  unfold teardownCalls.
  cbn [activeSourcesRef streamRef inputAudioContextRef outputAudioContextRef
    set_connectionState set_error].
  rewrite Htr, Hact, Hstr, Hin, Hout, <- !app_assoc; reflexivity.
Qed.

(** [onopen] when something the capture path needs is missing. *)
Lemma onopen_guard (inputSuspended : bool) (w : World) :
  inputAudioContextRef w = None \/ streamRef w = None
  \/ inputAnalyzerRef w = None ->
  onopen inputSuspended w = (Ok tt, set_connectionState CONNECTED w).
Proof.
  intros H; destruct w as [cs vol err tr tq ic oc isrc pr on cp ia oa nst
    act ses str ci co tc no].
  cbn [inputAudioContextRef streamRef inputAnalyzerRef] in H.
  destruct ic, str, ia; try reflexivity;
    destruct H as [H|[H|H]]; discriminate.
Qed.

(** [onopen] when the capture path can be wired. *)
Lemma onopen_ready (inputSuspended : bool) (w : World)
    (ctx stream analyzer : Handle) :
  inputAudioContextRef w = Some ctx ->
  streamRef w = Some stream ->
  inputAnalyzerRef w = Some analyzer ->
  onopen inputSuspended w
  = (Ok tt,
     set_processorRef (Some (1 + nextObject w)%nat)
       (set_inputSourceRef (Some (nextObject w))
          (set_nextObject (2 + nextObject w)
             (set_trace
                (trace w
                 ++ (if inputSuspended then [ContextResume ctx] else [])
                 ++ [CreateNode ctx (nextObject w);
                     CreateNode ctx (1 + nextObject w)])
                (set_connectionState CONNECTED w))))).
Proof.
  intros Ectx Estr Eia.
  destruct w as [cs vol err tr tq ic oc isrc pr on cp ia' oa nst
    act ses str' ci co tc no].
  cbn [inputAudioContextRef streamRef inputAnalyzerRef] in Ectx, Estr, Eia.
  subst ic str' ia'.
  destruct inputSuspended; lazy -[app]; rewrite <- ?app_assoc;
    reflexivity.
Qed.

(** X4. [onopen] returns and sets the state to Connected in every case.
    It wires the capture path only when the input context, the stream and
    the input analyzer are all there: it then resumes the input context if
    it is suspended and creates the source node and the processor node on
    it.  When one of the three is missing it does nothing else; so an
    [onopen] that arrives after [cleanup] leaves the hook Connected with
    nothing referenced and nothing created. *)
Theorem onopen_wires_capture_when_ready (inputSuspended : bool) (w : World) :
  let n := nextObject w in
  let w' := exec (onopen inputSuspended) w in
  onopen inputSuspended w = (Ok tt, w')
  /\ connectionState w' = CONNECTED
  /\ match inputAudioContextRef w, streamRef w, inputAnalyzerRef w with
     | Some ctx, Some _, Some _ =>
         w' = set_processorRef (Some (1 + n)%nat)
                (set_inputSourceRef (Some n)
                   (set_nextObject (2 + n)
                      (set_trace
                         (trace w
                          ++ (if inputSuspended then [ContextResume ctx] else [])
                          ++ [CreateNode ctx n; CreateNode ctx (1 + n)])
                         (set_connectionState CONNECTED w))))
     | _, _, _ => w' = set_connectionState CONNECTED w
     end
  /\ exec (onopen inputSuspended) (exec cleanup w)
     = set_connectionState CONNECTED (exec cleanup w)
  /\ streamRef (exec (onopen inputSuspended) (exec cleanup w)) = None
  /\ trace (exec (onopen inputSuspended) (exec cleanup w))
     = trace (exec cleanup w).
Proof.
  cbv zeta.
  assert (Hcases :
    match inputAudioContextRef w, streamRef w, inputAnalyzerRef w with
    | Some ctx, Some _, Some _ =>
        onopen inputSuspended w
        = (Ok tt,
           set_processorRef (Some (1 + nextObject w)%nat)
             (set_inputSourceRef (Some (nextObject w))
                (set_nextObject (2 + nextObject w)
                   (set_trace
                      (trace w
                       ++ (if inputSuspended then [ContextResume ctx] else [])
                       ++ [CreateNode ctx (nextObject w);
                           CreateNode ctx (1 + nextObject w)])
                      (set_connectionState CONNECTED w)))))
    | _, _, _ =>
        onopen inputSuspended w = (Ok tt, set_connectionState CONNECTED w)
    end).
  { destruct (inputAudioContextRef w) as [ctx|] eqn:Ectx;
      [|apply onopen_guard; left; exact Ectx].
    destruct (streamRef w) as [str|] eqn:Estr;
      [|apply onopen_guard; right; left; exact Estr].
    destruct (inputAnalyzerRef w) as [ia|] eqn:Eia;
      [|apply onopen_guard; right; right; exact Eia].
    exact (onopen_ready _ _ _ _ _ Ectx Estr Eia). }
  split; [|split; [|split]].
  - unfold exec.
    destruct (inputAudioContextRef w), (streamRef w), (inputAnalyzerRef w);
      rewrite Hcases; reflexivity.
  - unfold exec.
    destruct (inputAudioContextRef w), (streamRef w), (inputAnalyzerRef w);
      rewrite Hcases; reflexivity.
  - unfold exec.
    destruct (inputAudioContextRef w), (streamRef w), (inputAnalyzerRef w);
      rewrite Hcases; reflexivity.
  - assert (Hlate : exec (onopen inputSuspended) (exec cleanup w)
                    = set_connectionState CONNECTED (exec cleanup w)).
    { unfold exec at 1; rewrite onopen_guard; [reflexivity|].
      left; unfold exec; rewrite cleanup_spec; reflexivity. }
    rewrite Hlate; split; [reflexivity|].
    unfold exec; rewrite cleanup_spec; split; reflexivity.
Qed.

(** [includes] finds the substrings. *)
Lemma startsWith_spec (s sub : JSString) :
  startsWith s sub = true <-> exists post, s = sub ++ post.
Proof.
  revert s; induction sub as [|c sub IH]; intros s.
  - split; [intros _; exists s; reflexivity|destruct s; reflexivity].
  - destruct s as [|d s]; cbn [startsWith].
    + split; [discriminate|intros [post H]; discriminate].
    + rewrite andb_true_iff, N.eqb_eq, IH; split.
      * intros [-> [post ->]]; exists post; reflexivity.
      * intros [post [= -> ->]]; split; [reflexivity|exists post; reflexivity].
Qed.

Lemma includes_spec (s sub : JSString) :
  includes s sub = true <-> exists pre post, s = pre ++ sub ++ post.
Proof.
  split.
  - induction s as [|c s IH]; cbn [includes]; intros H;
      apply orb_true_iff in H as [H|H].
    + apply startsWith_spec in H as [post ->]; exists [], post; reflexivity.
    + discriminate.
    + apply startsWith_spec in H as [post ->]; exists [], post; reflexivity.
    + destruct (IH H) as (pre & post & ->); exists (c :: pre), post;
        reflexivity.
  - intros (pre & post & ->); induction pre as [|c pre IH].
    + assert (H : startsWith ([] ++ sub ++ post) sub = true)
        by (apply startsWith_spec; exists post; reflexivity).
      destruct ([] ++ sub ++ post); cbn [includes]; rewrite H; reflexivity.
    + cbn [app includes]; rewrite IH; apply orb_true_r.
Qed.

(** X5. [onerror] returns and tears the session down in every case, and it
    never shows the text of the transport error: it sets the error field
    to the hook's "Connection to Gemini failed" message, except when the
    error has no message or a message that contains "cancelled", in which
    case the error field stays as it was. *)
Theorem transport_error_is_classified (err : Exn) (w : World) :
  let w' := exec (onerror err) w in
  onerror err w = (Ok tt, w')
  /\ connectionState w' = DISCONNECTED
  /\ sessionRef w' = None
  /\ streamRef w' = None
  /\ trace w' = trace w ++ teardownCalls w
  /\ (message err = [] -> error w' = error w)
  /\ (forall pre post,
        message err = pre ++ utf16 "cancelled" ++ post -> error w' = error w)
  /\ (message err <> [] ->
      (forall pre post, message err <> pre ++ utf16 "cancelled" ++ post) ->
      error w' = Some CONNECTION_FAILED).
Proof.
  cbv zeta; unfold exec.
  rewrite onerror_spec, cleanup_spec; cbn [snd].
  cbn [connectionState sessionRef streamRef trace error].
  split; [reflexivity|].
  do 3 (split; [reflexivity|]).
  split; [|split; [|split]].
  - destruct (truthy (message err) && _); reflexivity.
  - intros ->; reflexivity.
  - intros pre post H.
    assert (Hinc : includes (message err) (utf16 "cancelled") = true)
      by (apply includes_spec; exists pre, post; exact H).
    rewrite Hinc, andb_false_r; reflexivity.
  - intros Hne Hnot.
    assert (Hinc : includes (message err) (utf16 "cancelled") = false).
    { destruct (includes _ _) eqn:E; [|reflexivity].
      apply includes_spec in E as (pre & post & E).
      exfalso; exact (Hnot _ _ E). }
    rewrite Hinc.
    destruct (message err); [contradiction|reflexivity].
Qed.

(** X6. [disconnect] never throws, also when [session.close()] does.  It
    calls [close] once when a session is referenced and its promise was
    fulfilled, and not at all otherwise; then it tears down as [cleanup]
    does.  It leaves the error field as it was, and a second [disconnect]
    changes nothing and calls nothing. *)
Theorem disconnect_closes_and_cleans (fulfilled : bool) (w : World) :
  let w' := exec (disconnect fulfilled) w in
  disconnect fulfilled w = (Ok tt, w')
  /\ trace w'
     = trace w
       ++ match sessionRef w with
          | Some s => if fulfilled then [SessionClose s] else []
          | None => []
          end
       ++ teardownCalls w
  /\ connectionState w' = DISCONNECTED
  /\ volume w' = 0
  /\ sessionRef w' = None
  /\ streamRef w' = None
  /\ inputAudioContextRef w' = None
  /\ outputAudioContextRef w' = None
  /\ activeSourcesRef w' = []
  /\ error w' = error w
  /\ (forall fulfilled', disconnect fulfilled' w' = (Ok tt, w')).
Proof.
  cbv zeta; unfold exec.
  rewrite disconnect_spec, cleanup_spec; cbn [snd].
  split; [reflexivity|].
  split.
  { cbn [trace]; destruct (sessionRef w) as [s|], fulfilled;
      cbn [trace set_trace app]; rewrite <- ?app_assoc;
      unfold teardownCalls; destruct w; reflexivity. }
  do 7 (split; [reflexivity|]).
  split.
  { destruct (sessionRef w) as [s|], fulfilled; destruct w; reflexivity. }
  intros fulfilled'.
  rewrite disconnect_spec; cbn [sessionRef].
  rewrite cleanup_spec.
  cbn [error transcript inputSourceRef processorRef outputNodeRef
    compressorRef inputAnalyzerRef outputAnalyzerRef trace nextObject
    teardownCalls activeSourcesRef streamRef inputAudioContextRef
    outputAudioContextRef map app].
  rewrite app_nil_r; reflexivity.
Qed.

(** ** While the session is live *)

Lemma fixtures_eq (a b : World) :
  fixtures a = fixtures b ->
  connectionState a = connectionState b
  /\ error a = error b
  /\ inputAudioContextRef a = inputAudioContextRef b
  /\ outputAudioContextRef a = outputAudioContextRef b
  /\ outputNodeRef a = outputNodeRef b
  /\ inputAnalyzerRef a = inputAnalyzerRef b
  /\ outputAnalyzerRef a = outputAnalyzerRef b
  /\ sessionRef a = sessionRef b
  /\ streamRef a = streamRef b.
Proof.
  unfold fixtures; intros [= H1 H2 H3 H4 H5 H6 H7 H8 H9 H10 H11 H12].
  repeat split; assumption.
Qed.

(** No message changes the state, the error field, the volume or a ref to
    a resource. *)
Lemma deliver_fixtures (em : Env * LiveServerMessage) (w : World) :
  fixtures (deliver em w) = fixtures w
  /\ volume (deliver em w) = volume w.
Proof.
  destruct em as [env message].
  destruct (isInterrupted message) eqn:Hint.
  - unfold deliver, exec; cbn [fst snd].
    rewrite (deliver_interrupted env _ w Hint); split; reflexivity.
  - destruct (audioFails message w) eqn:Hfail.
    + rewrite (deliver_dropped env _ _ Hint Hfail); split; reflexivity.
    + destruct (decodedAudio message w) as [audioBuffer|] eqn:Hdec.
      * rewrite (deliver_scheduled env _ _ _ Hint Hdec).
        destruct (runView _ _ _) as [[[log q] i] o]; split; reflexivity.
      * rewrite (deliver_unscheduled env _ _ Hint Hdec Hfail).
        destruct (runView _ _ _) as [[[log q] i] o]; split; reflexivity.
Qed.

(** A frame of the level meter sets the volume and nothing else. *)
Lemma updateVisualizer_spec (inputData outputData : list N) (w : World) :
  updateVisualizer inputData outputData w
  = (Ok tt, set_volume (level inputData outputData w) w).
Proof.
  unfold updateVisualizer, level, bind, read, setVolume, write.
  destruct (connectionState w); reflexivity.
Qed.

Lemma onended_spec (source : Handle) (w : World) :
  onended source w
  = (Ok tt,
     set_activeSourcesRef (setDelete source (activeSourcesRef w)) w).
Proof. reflexivity. Qed.

Lemma react_fixtures (cb : Callback) (w : World) :
  duringSession cb = true -> fixtures (exec (react cb) w) = fixtures w.
Proof.
  destruct cb as [key p|f|key p f|f|b|env msg| |err|s|i o|now];
    try discriminate; intros _; cbn [react].
  - exact (proj1 (deliver_fixtures (env, msg) w)).
  - unfold exec; rewrite onended_spec; reflexivity.
  - unfold exec; rewrite updateVisualizer_spec; reflexivity.
  - reflexivity.
Qed.

Lemma session_fixtures (cbs : list Callback) (w : World) :
  forallb duringSession cbs = true -> fixtures (session cbs w) = fixtures w.
Proof.
  revert w; induction cbs as [|cb cbs IH]; intros w; [reflexivity|].
  cbn [forallb session fold_left]; intros H.
  apply andb_prop in H as [Hcb Hcbs].
  fold (session cbs (exec (react cb) w)).
  rewrite (IH _ Hcbs); exact (react_fixtures cb w Hcb).
Qed.

(** X7. The round trip of the microphone button.  Pressed while the hook
    is not Connected, with a credential and a platform on which no call
    fails, it connects (state Connecting); [onopen] makes the state
    Connected; messages, sources that end and frames of the meter leave it
    Connected; pressed again, it disconnects: the state is Disconnected,
    nothing is referenced any more, and exactly what the connect acquired
    is released: the session is closed (when its promise was fulfilled),
    the tracks of the stream are stopped and the two audio contexts are
    closed, after the sources still in flight have been stopped. *)
Theorem toggle_round_trip (apiKey : option JSString) (p p' : Platform)
    (inputSuspended fulfilled fulfilled' : bool) (cbs : list Callback)
    (w : World) :
  configured apiKey = true ->
  platformFails p = false ->
  connectionState w <> CONNECTED ->
  forallb duringSession cbs = true ->
  let n := nextObject w in
  let w1 := exec (handleToggleConnection apiKey p fulfilled') w in
  let w2 := exec (onopen inputSuspended) w1 in
  let w3 := session cbs w2 in
  let w4 := exec (handleToggleConnection apiKey p' fulfilled) w3 in
  connectionState w1 = CONNECTING
  /\ connectionState w2 = CONNECTED
  /\ connectionState w3 = CONNECTED
  /\ connectionState w4 = DISCONNECTED
  /\ trace w4
     = trace w3
       ++ (if fulfilled then [SessionClose (7 + n)] else [])
       ++ map SourceStop (activeSourcesRef w3)
       ++ [StopTracks (6 + n); ContextClose n; ContextClose (1 + n)]
  /\ sessionRef w4 = None
  /\ streamRef w4 = None
  /\ inputAudioContextRef w4 = None
  /\ outputAudioContextRef w4 = None
  /\ activeSourcesRef w4 = [].
Proof.
  intros Hkey Hok Hstate Hcbs; cbv zeta.
  assert (H1 : exec (handleToggleConnection apiKey p fulfilled') w
               = connecting w).
  { unfold exec, handleToggleConnection, bind, read.
    destruct (connectionState w); try contradiction;
      rewrite (connect_configured _ p Hkey); unfold tryCatch;
      rewrite (connectBody_succeeds p w Hok); reflexivity. }
  rewrite H1.
  assert (H2 : exec (onopen inputSuspended) (connecting w)
    = set_processorRef (Some (9 + nextObject w)%nat)
        (set_inputSourceRef (Some (8 + nextObject w)%nat)
           (set_nextObject (10 + nextObject w)
              (set_trace
                 (trace (connecting w)
                  ++ (if inputSuspended
                      then [ContextResume (nextObject w)] else [])
                  ++ [CreateNode (nextObject w) (8 + nextObject w);
                      CreateNode (nextObject w) (9 + nextObject w)])
                 (set_connectionState CONNECTED (connecting w)))))).
  { unfold exec.
    rewrite (onopen_ready inputSuspended (connecting w) (nextObject w)
               (6 + nextObject w) (5 + nextObject w)
               eq_refl eq_refl eq_refl).
    reflexivity. }
  rewrite H2.
  set (w2 := set_processorRef _ _).
  pose proof (session_fixtures cbs w2 Hcbs) as Hfix.
  apply fixtures_eq in Hfix
    as (Hcs & _ & Hic & Hoc & _ & _ & _ & Hses & Hstr).
  cbn [connectionState inputAudioContextRef outputAudioContextRef sessionRef
    streamRef w2 set_processorRef set_inputSourceRef set_nextObject set_trace
    set_connectionState connecting] in Hcs, Hic, Hoc, Hses, Hstr.
  split; [reflexivity|].
  split; [reflexivity|].
  split; [exact Hcs|].
  assert (H4 : handleToggleConnection apiKey p' fulfilled (session cbs w2)
               = disconnect fulfilled (session cbs w2)).
  { unfold handleToggleConnection, bind, read; rewrite Hcs; reflexivity. }
  unfold exec; rewrite H4, disconnect_spec, cleanup_spec; cbn [snd].
  rewrite Hses.
  split; [reflexivity|].
  split.
  { cbn [trace].
    assert (Htd : forall tr,
      teardownCalls (if fulfilled
                     then set_trace tr (session cbs w2)
                     else session cbs w2)
      = map SourceStop (activeSourcesRef (session cbs w2))
        ++ [StopTracks (6 + nextObject w); ContextClose (nextObject w);
            ContextClose (1 + nextObject w)]).
    { intros tr; unfold teardownCalls.
      destruct fulfilled;
        cbn [activeSourcesRef streamRef inputAudioContextRef
          outputAudioContextRef set_trace];
        rewrite Hstr, Hic, Hoc; reflexivity. }
    rewrite Htd.
    destruct fulfilled; cbn [trace set_trace];
      rewrite <- ?app_assoc; reflexivity. }
  repeat split.
Qed.

(** ** The bookkeeping of the sources in flight *)

Lemma startedIn_app (t t' : list Effect) :
  startedIn (t ++ t') = startedIn t ++ startedIn t'.
Proof. apply flat_map_app. Qed.

Lemma stoppedIn_app (t t' : list Effect) :
  stoppedIn (t ++ t') = stoppedIn t ++ stoppedIn t'.
Proof. apply flat_map_app. Qed.

Lemma startedIn_stops (l : list Handle) : startedIn (map SourceStop l) = [].
Proof. induction l as [|s l IH]; [reflexivity|exact IH]. Qed.

Lemma stoppedIn_stops (l : list Handle) : stoppedIn (map SourceStop l) = l.
Proof.
  induction l as [|s l IH]; [reflexivity|].
  cbn [map stoppedIn flat_map app]; fold (stoppedIn (map SourceStop l)).
  rewrite IH; reflexivity.
Qed.

Lemma startedIn_teardownCalls (w : World) : startedIn (teardownCalls w) = [].
Proof.
  unfold teardownCalls; rewrite !startedIn_app, startedIn_stops.
  destruct (streamRef w), (inputAudioContextRef w), (outputAudioContextRef w);
    reflexivity.
Qed.

Lemma stoppedIn_teardownCalls (w : World) :
  stoppedIn (teardownCalls w) = activeSourcesRef w.
Proof.
  unfold teardownCalls; rewrite !stoppedIn_app, stoppedIn_stops.
  destruct (streamRef w), (inputAudioContextRef w), (outputAudioContextRef w);
    cbn; rewrite app_nil_r; reflexivity.
Qed.

Lemma startedIn_resumeCalls (env : Env) (message : LiveServerMessage)
    (w : World) :
  startedIn (resumeCalls env message w) = []
  /\ stoppedIn (resumeCalls env message w) = [].
Proof.
  unfold resumeCalls.
  destruct (base64Audio message), (outputAudioContextRef w),
    (outputNodeRef w); try (split; reflexivity).
  destruct (truthy _ && suspended env); split; reflexivity.
Qed.

Lemma cleanup_flushes (w : World) : Bookkeeping w (exec cleanup w).
Proof.
  apply Flushes with (new := teardownCalls w);
    unfold exec; rewrite ?cleanup_spec; cbn [snd trace activeSourcesRef
      nextObject]; auto using startedIn_teardownCalls,
      stoppedIn_teardownCalls.
Qed.

(** The [try] block of [connect], whatever the platform answers: it only
    makes set-up calls, and leaves the playback and the transcript as they
    were. *)
Lemma connectBody_keeps (p : Platform) (w : World) :
  exists r w1 new,
    connectBody p w = (r, w1)
    /\ trace w1 = trace w ++ new
    /\ startedIn new = []
    /\ stoppedIn new = []
    /\ activeSourcesRef w1 = activeSourcesRef w
    /\ (nextObject w <= nextObject w1)%nat
    /\ transcript w1 = transcript w
    /\ transcriptQueue w1 = transcriptQueue w.
Proof.
  destruct w as [cs vol err tr tq ic oc isrc pr on cp ia oa nst act ses str
    ci co tc no].
  destruct p as [[e1|] [e2|] [e3|] [e4|]].
  all: eexists _, _, _;
    split; [lazy -[app microphoneError utf16 newError]; reflexivity|];
    cbn [trace activeSourcesRef nextObject transcript transcriptQueue];
    split; [first [rewrite <- ?app_assoc; reflexivity
                  |instantiate (1 := []); rewrite app_nil_r; reflexivity]|];
    repeat split; try reflexivity; try lia.
Qed.

Lemma connect_bookkeeping (apiKey : option JSString) (p : Platform)
    (w : World) :
  Bookkeeping w (exec (connect apiKey p) w).
Proof.
  destruct (configured apiKey) eqn:Hkey.
  - unfold exec; rewrite (connect_configured _ p Hkey); unfold tryCatch.
    destruct (connectBody_keeps p w)
      as (r & w1 & new & Hbody & Htr & Hst & Hsp & Hact & Hno & _ & _).
    rewrite Hbody; destruct r as [[]|err].
    + apply Keeps with (new := new); assumption.
    + rewrite connectFailed_spec, cleanup_spec; cbn [snd].
      apply Flushes with (new := new ++ teardownCalls w1).
      * cbn [trace set_connectionState set_error].
        rewrite Htr, <- app_assoc; reflexivity.
      * rewrite startedIn_app, Hst, startedIn_teardownCalls; reflexivity.
      * rewrite stoppedIn_app, Hsp, stoppedIn_teardownCalls; exact Hact.
      * reflexivity.
      * exact Hno.
  - unfold exec; rewrite (connect_not_configured _ p Hkey).
    apply Keeps with (new := []); try reflexivity.
    cbn; rewrite app_nil_r; reflexivity.
Qed.

Lemma disconnect_bookkeeping (fulfilled : bool) (w : World) :
  Bookkeeping w (exec (disconnect fulfilled) w).
Proof.
  unfold exec; rewrite disconnect_spec, cleanup_spec; cbn [snd].
  apply Flushes
    with (new := match sessionRef w with
                 | Some s => if fulfilled then [SessionClose s] else []
                 | None => []
                 end ++ teardownCalls w).
  - cbn [trace]; destruct (sessionRef w), fulfilled;
      cbn [trace set_trace app]; rewrite <- ?app_assoc; reflexivity.
  - rewrite startedIn_app, startedIn_teardownCalls.
    destruct (sessionRef w), fulfilled; reflexivity.
  - rewrite stoppedIn_app, stoppedIn_teardownCalls.
    destruct (sessionRef w), fulfilled; reflexivity.
  - reflexivity.
  - cbn [nextObject]; destruct (sessionRef w), fulfilled; cbn; lia.
Qed.

Lemma keeps_nothing (w w' : World) :
  trace w' = trace w ->
  activeSourcesRef w' = activeSourcesRef w ->
  nextObject w' = nextObject w ->
  Bookkeeping w w'.
Proof.
  intros Htr Hact Hno; apply Keeps with (new := []); try reflexivity.
  - rewrite app_nil_r; exact Htr.
  - exact Hact.
  - rewrite Hno; constructor.
Qed.

Lemma onopen_bookkeeping (inputSuspended : bool) (w : World) :
  Bookkeeping w (exec (onopen inputSuspended) w).
Proof.
  unfold exec.
  destruct (inputAudioContextRef w) as [ctx|] eqn:Ectx;
    [|rewrite onopen_guard by (left; exact Ectx);
      apply keeps_nothing; reflexivity].
  destruct (streamRef w) as [str|] eqn:Estr;
    [|rewrite onopen_guard by (right; left; exact Estr);
      apply keeps_nothing; reflexivity].
  destruct (inputAnalyzerRef w) as [ia|] eqn:Eia;
    [|rewrite onopen_guard by (right; right; exact Eia);
      apply keeps_nothing; reflexivity].
  rewrite (onopen_ready _ _ _ _ _ Ectx Estr Eia); cbn [snd].
  eapply Keeps; [reflexivity| | |reflexivity|cbn; lia];
    destruct inputSuspended; reflexivity.
Qed.

Lemma onmessage_bookkeeping (env : Env) (message : LiveServerMessage)
    (w : World) :
  Bookkeeping w (exec (onmessage env message) w).
Proof.
  change (exec (onmessage env message) w) with (deliver (env, message) w).
  destruct (isInterrupted message) eqn:Hint.
  - unfold deliver, exec; cbn [fst snd].
    rewrite (deliver_interrupted env _ w Hint); cbn [snd].
    apply Flushes with (new := map SourceStop (activeSourcesRef w));
      auto using startedIn_stops, stoppedIn_stops.
  - destruct (startedIn_resumeCalls env message w) as [Hst Hsp].
    destruct (audioFails message w) eqn:Hfail.
    + rewrite (deliver_dropped env _ _ Hint Hfail).
      apply Keeps with (new := resumeCalls env message w); auto.
    + destruct (decodedAudio message w) as [audioBuffer|] eqn:Hdec.
      * rewrite (deliver_scheduled env _ _ _ Hint Hdec).
        destruct (runView _ _ _) as [[[log q] i] o].
        eapply Schedules; [reflexivity| | |reflexivity|reflexivity].
        -- rewrite startedIn_app, Hst; reflexivity.
        -- rewrite stoppedIn_app, Hsp; reflexivity.
      * rewrite (deliver_unscheduled env _ _ Hint Hdec Hfail).
        destruct (runView _ _ _) as [[[log q] i] o].
        apply Keeps with (new := resumeCalls env message w); auto.
Qed.

Lemma onerror_bookkeeping (err : Exn) (w : World) :
  Bookkeeping w (exec (onerror err) w).
Proof.
  unfold exec; rewrite onerror_spec, cleanup_spec; cbn [snd].
  apply Flushes with (new := teardownCalls w).
  - destruct (truthy (message err) && _); reflexivity.
  - apply startedIn_teardownCalls.
  - apply stoppedIn_teardownCalls.
  - reflexivity.
  - destruct (truthy (message err) && _); cbn; lia.
Qed.

(** Every callback but [onended] keeps the in-flight set, flushes it or
    schedules one source. *)
Lemma react_bookkeeping (cb : Callback) (w : World) :
  (forall s, cb <> Ended s) -> Bookkeeping w (exec (react cb) w).
Proof.
  intros Hcb.
  destruct cb as [key p|f|key p f|f|b|env msg| |err|s|i o|now]; cbn [react].
  - apply connect_bookkeeping.
  - apply disconnect_bookkeeping.
  - unfold exec, handleToggleConnection, bind, read.
    destruct (connectionState w);
      first [apply connect_bookkeeping|apply disconnect_bookkeeping].
  - unfold exec, onSelect, bind, read.
    destruct (connectionState w);
      first [apply disconnect_bookkeeping
            |apply keeps_nothing; reflexivity].
  - apply onopen_bookkeeping.
  - apply onmessage_bookkeeping.
  - apply cleanup_flushes.
  - apply onerror_bookkeeping.
  - exfalso; exact (Hcb s eq_refl).
  - unfold exec; rewrite updateVisualizer_spec.
    apply keeps_nothing; reflexivity.
  - apply keeps_nothing; reflexivity.
Qed.

Lemma In_setDelete (x s : Handle) (l : list Handle) :
  In s (setDelete x l) <-> In s l /\ s <> x.
Proof.
  unfold setDelete; rewrite filter_In, negb_true_iff, Nat.eqb_neq.
  split; intros [H1 H2]; split; auto.
Qed.

Lemma In_setAdd (x s : Handle) (l : list Handle) :
  In s (setAdd x l) <-> s = x \/ In s l.
Proof.
  unfold setAdd; destruct (existsb (Nat.eqb x) l) eqn:E.
  - apply existsb_exists in E as (y & Hy & Exy).
    apply Nat.eqb_eq in Exy; subst y.
    split; [right; assumption|intros [->|H]; assumption].
  - rewrite in_app_iff; cbn [In]; split.
    + intros [H|[H|[]]]; [right; exact H|left; symmetry; exact H].
    + intros [H|H]; [right; left; symmetry; exact H|left; exact H].
Qed.

Lemma NoDup_snoc (x : Handle) (l : list Handle) :
  NoDup l -> ~ In x l -> NoDup (l ++ [x]).
Proof.
  induction l as [|y l IH]; intros Hnd Hnin; cbn [app].
  - constructor; [intros []|constructor].
  - inversion Hnd as [|y' l' Hy Hl]; subst; constructor.
    + rewrite in_app_iff; intros [H|[H|[]]]; [contradiction|].
      subst; apply Hnin; left; reflexivity.
    + apply IH; [assumption|intros H; apply Hnin; right; exact H].
Qed.

Lemma NoDup_setAdd (x : Handle) (l : list Handle) :
  NoDup l -> NoDup (setAdd x l).
Proof.
  intros Hnd; unfold setAdd; destruct (existsb (Nat.eqb x) l) eqn:E;
    [exact Hnd|].
  apply NoDup_snoc; [exact Hnd|].
  intros Hin.
  assert (Ht : existsb (Nat.eqb x) l = true)
    by (apply existsb_exists; exists x; split;
        [exact Hin|apply Nat.eqb_refl]).
  congruence.
Qed.

Lemma endedAfterStart_snoc (cbs : list Callback) (cb : Callback)
    (s : Handle) :
  endedAfterStart (cbs ++ [cb]) s
  <-> endedAfterStart cbs s
      \/ (cb = Ended s
          /\ In s (startedIn (trace (session cbs initialWorld)))).
Proof.
  split.
  - intros (before & after & Heq & Hin).
    revert Heq; pattern after; apply rev_ind; [|intros x after' _]; intros Heq.
    + apply app_inj_tail in Heq as [-> ->]; right; split;
        [reflexivity|exact Hin].
    + rewrite app_comm_cons, app_assoc in Heq.
      apply app_inj_tail in Heq as [-> _].
      left; exists before, after'; split; [reflexivity|exact Hin].
  - intros [(before & after & -> & Hin)|[-> Hin]].
    + exists before, (after ++ [cb]); split;
        [rewrite <- app_assoc; reflexivity|exact Hin].
    + exists cbs, []; split; [reflexivity|exact Hin].
Qed.

(** At every point of every run of callbacks the in-flight set agrees with
    the calls made on the sources and with the sources that ended. *)
Lemma session_tracked (cbs : list Callback) :
  tracked cbs (session cbs initialWorld).
Proof.
  induction cbs as [|cb cbs IH] using rev_ind.
  - unfold tracked; cbn [session fold_left initialWorld activeSourcesRef
      trace startedIn stoppedIn flat_map nextObject In].
    split; [constructor|].
    split; [constructor|].
    split; [intros s []|].
    split; [intros s []|].
    split; [intros s (before & after & Heq & _);
            destruct before; discriminate|].
    split; [intros s []|intros s []].
  - rewrite session_snoc.
    set (w := session cbs initialWorld) in *.
    destruct IH as (Hnd & Hnds & Hlt & Hstop & Hend & Hact & Hall).
    pose proof (endedAfterStart_snoc cbs cb) as Hsnoc; fold w in Hsnoc.
    assert (Hcase : (exists s0, cb = Ended s0) \/ (forall s, cb <> Ended s)).
    { destruct cb; try (right; intros s0; discriminate).
      left; eexists; reflexivity. }
    destruct Hcase as [[s0 ->]|Hcb].
    + (* onended *)
      cbn [react]; unfold exec; rewrite onended_spec; cbn [snd].
      unfold tracked; cbn [activeSourcesRef trace nextObject
        set_activeSourcesRef].
      split; [apply NoDup_filter; exact Hnd|].
      split; [exact Hnds|].
      split; [exact Hlt|].
      split; [exact Hstop|].
      split.
      { intros s H; apply Hsnoc in H as [H|[_ H]]; [exact (Hend s H)|exact H]. }
      split.
      { intros s H; apply In_setDelete in H as [H Hne].
        destruct (Hact s H) as (H1 & H2 & H3).
        split; [exact H1|split; [exact H2|]].
        intros H'; apply Hsnoc in H' as [H'|[[= E] _]];
          [exact (H3 H')|exact (Hne (eq_sym E))]. }
      intros s H.
      destruct (Hall s H) as [H1|[H1|H1]].
      * destruct (Nat.eq_dec s s0) as [->|Hne].
        -- right; right; apply Hsnoc; right; split; [reflexivity|exact H].
        -- left; apply In_setDelete; split; assumption.
      * right; left; exact H1.
      * right; right; apply Hsnoc; left; exact H1.
    + assert (Hsame : forall s,
                endedAfterStart (cbs ++ [cb]) s <-> endedAfterStart cbs s).
      { intros s; rewrite Hsnoc; split; [|left; assumption].
        intros [H|[H _]]; [exact H|exfalso; exact (Hcb s H)]. }
      destruct (react_bookkeeping cb w Hcb)
        as [new Htr Hst Hsp Ha Hno|new Htr Hst Hsp Ha Hno
           |new Htr Hst Hsp Ha Hno];
        unfold tracked; rewrite Htr, startedIn_app, stoppedIn_app, Hst, Hsp,
          Ha, ?app_nil_r.
      * (* the set is kept *)
        split; [exact Hnd|].
        split; [exact Hnds|].
        split; [intros s H; specialize (Hlt s H); lia|].
        split; [exact Hstop|].
        split; [intros s H; apply Hsame in H; exact (Hend s H)|].
        split.
        { intros s H; destruct (Hact s H) as (H1 & H2 & H3).
          split; [exact H1|split; [exact H2|]].
          intros H'; apply Hsame in H'; exact (H3 H'). }
        intros s H; destruct (Hall s H) as [H1|[H1|H1]];
          [left; exact H1|right; left; exact H1|].
        right; right; apply Hsame; exact H1.
      * (* the set is flushed *)
        split; [constructor|].
        split; [exact Hnds|].
        split; [intros s H; specialize (Hlt s H); lia|].
        split.
        { intros s H; apply in_app_iff in H as [H|H];
            [exact (Hstop s H)|exact (proj1 (Hact s H))]. }
        split; [intros s H; apply Hsame in H; exact (Hend s H)|].
        split; [intros s []|].
        intros s H; destruct (Hall s H) as [H1|[H1|H1]].
        -- right; left; apply in_app_iff; right; exact H1.
        -- right; left; apply in_app_iff; left; exact H1.
        -- right; right; apply Hsame; exact H1.
      * (* one source is scheduled *)
        assert (Hfresh : ~ In (nextObject w) (startedIn (trace w))).
        { intros H; specialize (Hlt _ H); lia. }
        split; [apply NoDup_setAdd; exact Hnd|].
        split; [apply NoDup_snoc; assumption|].
        split.
        { intros s H; apply in_app_iff in H as [H|[<-|[]]];
            [specialize (Hlt s H)|]; lia. }
        split.
        { intros s H; apply in_app_iff; left; exact (Hstop s H). }
        split.
        { intros s H; apply Hsame in H; apply in_app_iff; left;
            exact (Hend s H). }
        split.
        { intros s H; apply In_setAdd in H as [->|H].
          - split; [apply in_app_iff; right; left; reflexivity|].
            split; [intros H; exact (Hfresh (Hstop _ H))|].
            intros H; apply Hsame in H; exact (Hfresh (Hend _ H)).
          - destruct (Hact s H) as (H1 & H2 & H3).
            split; [apply in_app_iff; left; exact H1|split; [exact H2|]].
            intros H'; apply Hsame in H'; exact (H3 H'). }
        intros s H; apply in_app_iff in H as [H|[<-|[]]].
        -- destruct (Hall s H) as [H1|[H1|H1]];
             [left; apply In_setAdd; right; exact H1|right; left; exact H1|].
           right; right; apply Hsame; exact H1.
        -- left; apply In_setAdd; left; reflexivity.
Qed.

(** X8. At every point of every run of callbacks of the hook (connects,
    disconnects, messages, interruptions, errors, sources that end, in any
    order), the in-flight set holds no source twice, and it holds exactly
    the sources that were started and have since been neither stopped nor
    ended.  Also, [stop] is only ever called on a source that was started,
    and no source is started twice. *)
Theorem in_flight_set_is_exact (cbs : list Callback) :
  let w := session cbs initialWorld in
  NoDup (activeSourcesRef w)
  /\ (forall s,
        In s (activeSourcesRef w) ->
        In s (startedIn (trace w))
        /\ ~ In s (stoppedIn (trace w))
        /\ ~ endedAfterStart cbs s)
  /\ (forall s,
        In s (startedIn (trace w)) ->
        In s (activeSourcesRef w)
        \/ In s (stoppedIn (trace w))
        \/ endedAfterStart cbs s)
  /\ (forall s, In s (stoppedIn (trace w)) -> In s (startedIn (trace w)))
  /\ NoDup (startedIn (trace w)).
Proof.
  cbv zeta.
  destruct (session_tracked cbs) as (Hnd & Hnds & _ & Hstop & _ & Hact & Hall).
  repeat split; try assumption; apply Hact; assumption.
Qed.

(** X9. After a teardown ([disconnect], the close of the transport, an
    error of the transport) and after an interruption, whatever happened
    before, no source plays on unattended: the in-flight set is empty, and
    every source that was ever started has been stopped or has ended. *)
Theorem teardown_silences_playback (cbs : list Callback) (cb : Callback) :
  tearsDown cb = true
  \/ (exists env message,
        cb = Message env message /\ isInterrupted message = true) ->
  let w := session (cbs ++ [cb]) initialWorld in
  activeSourcesRef w = []
  /\ (forall s,
        In s (startedIn (trace w)) ->
        In s (stoppedIn (trace w)) \/ endedAfterStart (cbs ++ [cb]) s).
Proof.
  intros Hcb; cbv zeta.
  assert (Hempty : activeSourcesRef (session (cbs ++ [cb]) initialWorld) = []).
  { rewrite session_snoc; set (w := session cbs initialWorld).
    destruct Hcb as [Hcb|(env & msg & -> & Hint)].
    - destruct cb as [key p|f|key p f|f|b|env msg| |err|s|i o|now];
        try discriminate; cbn [react]; unfold exec, onclose.
      + rewrite disconnect_spec, cleanup_spec; reflexivity.
      + rewrite cleanup_spec; reflexivity.
      + rewrite onerror_spec, cleanup_spec; reflexivity.
    - cbn [react]; unfold exec.
      rewrite (deliver_interrupted env _ w Hint); reflexivity. }
  split; [exact Hempty|].
  destruct (session_tracked (cbs ++ [cb])) as (_ & _ & _ & _ & _ & _ & Hall).
  intros s H; destruct (Hall s H) as [H1|H1]; [|exact H1].
  rewrite Hempty in H1; destruct H1.
Qed.

(** ** Messages that are dropped, messages that come late *)

(** When a decoder throws, [playback] throws, after the [resume] call. *)
Lemma playback_throws (env : Env) (message : LiveServerMessage) (w : World) :
  audioFails message w = true ->
  exists e,
    playback env message w
    = (Throw e, set_trace (trace w ++ resumeCalls env message w) w).
Proof.
  unfold audioFails, playback, resumeCalls.
  unfold bind at 1; cbn [read]. unfold bind at 1; cbn [read].
  destruct (base64Audio message) as [b64|]; [|discriminate].
  destruct (outputAudioContextRef w) as [ctx|]; [|discriminate].
  destruct (outputNodeRef w) as [node|]; [|discriminate].
  destruct (truthy b64); [|discriminate].
  unfold when, bind, liftRes, perform, read, write, ret; cbn [andb].
  destruct (decodeBase64 b64) as [audioData|e].
  - destruct (decodeAudioData audioData ctx OUTPUT_SAMPLE_RATE) as [buf|e]
      eqn:Ebuf; [discriminate|].
    intros _; exists e.
    destruct (suspended env); cbn [trace set_trace]; rewrite ?Ebuf,
      ?app_nil_r, ?set_trace_same; reflexivity.
  - intros _; exists e.
    destruct (suspended env); cbn [trace set_trace];
      rewrite ?app_nil_r, ?set_trace_same; reflexivity.
Qed.

(** X10. A message whose audio payload fails to decode is dropped as a
    whole: the handler throws at the decoder, so that no unit is scheduled
    and the transcription handling never runs on it.  Whatever else the
    message carries (deltas, the turn-complete flag) is lost: the log, its
    queue of updates, the two accumulators, the cursor and the in-flight
    set are as they were; and the failure is silent: neither the
    connection state nor the error field changes. *)
Theorem undecodable_audio_drops_message (env : Env)
    (message : LiveServerMessage) (w : World) :
  isInterrupted message = false ->
  audioFails message w = true ->
  let w' := deliver (env, message) w in
  (exists e, onmessage env message w = (Throw e, w'))
  /\ w' = set_trace (trace w ++ resumeCalls env message w) w
  /\ unitsOf (resumeCalls env message w) = []
  /\ view w' = view w
  /\ nextStartTimeRef w' = nextStartTimeRef w
  /\ activeSourcesRef w' = activeSourcesRef w
  /\ connectionState w' = connectionState w
  /\ error w' = error w.
Proof.
  intros Hint Hfail; cbv zeta.
  rewrite (deliver_dropped env _ _ Hint Hfail).
  split.
  { destruct (playback_throws env message w Hfail) as [e He].
    exists e; unfold onmessage; rewrite Hint; unfold bind; rewrite He.
    reflexivity. }
  split; [reflexivity|].
  split; [apply unitsOf_resumeCalls|].
  repeat split.
Qed.

Lemma resumeCalls_no_context (env : Env) (message : LiveServerMessage)
    (w : World) :
  outputAudioContextRef w = None ->
  resumeCalls env message w = []
  /\ decodedAudio message w = None
  /\ audioFails message w = false.
Proof.
  intros H; unfold resumeCalls, decodedAudio, audioFails; rewrite H.
  destruct (base64Audio message); repeat split.
Qed.

(** Without an output context the audio branch of the handler does
    nothing. *)
Lemma playback_no_context (env : Env) (message : LiveServerMessage)
    (w : World) :
  outputAudioContextRef w = None -> playback env message w = (Ok tt, w).
Proof.
  intros H; unfold playback, bind, read; rewrite H.
  destruct (base64Audio message); reflexivity.
Qed.

Lemma transcription_refs (env : Env) (message : LiveServerMessage)
    (w : World) :
  outputAudioContextRef (exec (transcription env message) w)
  = outputAudioContextRef w.
Proof.
  unfold exec; rewrite transcription_spec; cbn [snd].
  destruct (runView _ _ _) as [[[log q] i] o]; reflexivity.
Qed.

Lemma deliver_no_context (em : Env * LiveServerMessage) (w : World) :
  outputAudioContextRef w = None ->
  activeSourcesRef w = [] ->
  trace (deliver em w) = trace w
  /\ nextObject (deliver em w) = nextObject w
  /\ activeSourcesRef (deliver em w) = []
  /\ outputAudioContextRef (deliver em w) = None.
Proof.
  intros Hctx Hact; destruct em as [env message].
  destruct (resumeCalls_no_context env message w Hctx)
    as (Hres & Hdec & Hfail).
  destruct (isInterrupted message) eqn:Hint.
  - unfold deliver, exec; cbn [fst snd].
    rewrite (deliver_interrupted env _ w Hint), Hact; cbn [snd map].
    rewrite app_nil_r; repeat split; assumption.
  - rewrite (deliver_unscheduled env _ _ Hint Hdec Hfail), Hres.
    rewrite app_nil_r.
    destruct (runView _ _ _) as [[[log q] i] o]; repeat split; assumption.
Qed.

Lemma deliverAll_no_context (ms : list (Env * LiveServerMessage))
    (w : World) :
  outputAudioContextRef w = None ->
  activeSourcesRef w = [] ->
  trace (deliverAll ms w) = trace w
  /\ nextObject (deliverAll ms w) = nextObject w
  /\ activeSourcesRef (deliverAll ms w) = [].
Proof.
  revert w; induction ms as [|em ms IH]; intros w Hctx Hact.
  - repeat split; assumption.
  - cbn [deliverAll fold_left]; fold (deliverAll ms (deliver em w)).
    destruct (deliver_no_context em w Hctx Hact) as (Htr & Hno & Ha & Hc).
    destruct (IH _ Hc Ha) as (Htr' & Hno' & Ha').
    rewrite Htr', Hno', Htr, Hno; repeat split; assumption.
Qed.

(** Without an output context a message without the interrupted flag is
    handled by the transcription handling alone. *)
Lemma deliverAll_transcription (ms : list (Env * LiveServerMessage))
    (w : World) :
  outputAudioContextRef w = None ->
  forallb (fun em => negb (isInterrupted (snd em))) ms = true ->
  deliverAll ms w
  = fold_left (fun w' em => exec (transcription (fst em) (snd em)) w') ms w.
Proof.
  revert w; induction ms as [|[env message] ms IH]; intros w Hctx Hms;
    [reflexivity|].
  cbn [forallb snd] in Hms; apply andb_prop in Hms as [Hint Hms].
  apply negb_true_iff in Hint.
  cbn [deliverAll fold_left fst snd].
  fold (deliverAll ms (deliver (env, message) w)).
  assert (Hstep : deliver (env, message) w
                  = exec (transcription env message) w).
  { unfold deliver, exec, onmessage; cbn [fst snd]; rewrite Hint.
    unfold bind; rewrite (playback_no_context _ _ _ Hctx); reflexivity. }
  rewrite Hstep; apply IH; [|exact Hms].
  rewrite transcription_refs; exact Hctx.
Qed.

(** X11. Messages that arrive while no output context is referenced (before
    the first [connect], after a teardown) with nothing in flight reach no
    audio: whatever they carry, no call is made on the platform, no object
    is created and nothing joins the in-flight set.  Their transcription
    is handled all the same: none of them is dropped, and when none has
    the interrupted flag the handler does to the hook what the
    transcription handling alone does. *)
Theorem late_messages_reach_no_audio (ms : list (Env * LiveServerMessage))
    (w : World) :
  outputAudioContextRef w = None ->
  activeSourcesRef w = [] ->
  let w' := deliverAll ms w in
  trace w' = trace w
  /\ nextObject w' = nextObject w
  /\ activeSourcesRef w' = []
  /\ (forall message, audioFails message w = false)
  /\ (forallb (fun em => negb (isInterrupted (snd em))) ms = true ->
      w' = fold_left
             (fun w1 em => exec (transcription (fst em) (snd em)) w1) ms w).
Proof.
  intros Hctx Hact; cbv zeta.
  destruct (deliverAll_no_context ms w Hctx Hact) as (Htr & Hno & Ha).
  split; [exact Htr|].
  split; [exact Hno|].
  split; [exact Ha|].
  split.
  - intros message.
    exact (proj2 (proj2 (resumeCalls_no_context (at_ 0 0) message w Hctx))).
  - apply deliverAll_transcription; exact Hctx.
Qed.

(** ** The transcript log over a session *)

Lemma connect_transcript (apiKey : option JSString) (p : Platform)
    (w : World) :
  transcript (exec (connect apiKey p) w) = transcript w
  /\ transcriptQueue (exec (connect apiKey p) w) = transcriptQueue w.
Proof.
  destruct (configured apiKey) eqn:Hkey.
  - unfold exec; rewrite (connect_configured _ p Hkey); unfold tryCatch.
    destruct (connectBody_keeps p w)
      as (r & w1 & new & Hbody & _ & _ & _ & _ & _ & Hlog & Hqueue).
    rewrite Hbody; destruct r as [[]|err]; [split; assumption|].
    rewrite connectFailed_spec, cleanup_spec; split; assumption.
  - unfold exec; rewrite (connect_not_configured _ p Hkey); split;
      reflexivity.
Qed.

Lemma disconnect_transcript (fulfilled : bool) (w : World) :
  transcript (exec (disconnect fulfilled) w) = transcript w
  /\ transcriptQueue (exec (disconnect fulfilled) w) = transcriptQueue w
  /\ error (exec (disconnect fulfilled) w) = error w.
Proof.
  unfold exec; rewrite disconnect_spec, cleanup_spec; cbn [snd].
  destruct (sessionRef w), fulfilled; repeat split.
Qed.

(** Only the message handler and the render write the log or its queue. *)
Lemma react_log (cb : Callback) (w : World) :
  writesLog cb = false ->
  transcript (exec (react cb) w) = transcript w
  /\ transcriptQueue (exec (react cb) w) = transcriptQueue w.
Proof.
  destruct cb as [key p|f|key p f|f|b|env msg| |err|s|i o|now];
    try discriminate; intros _; cbn [react].
  - apply connect_transcript.
  - destruct (disconnect_transcript f w) as (H1 & H2 & _); split; assumption.
  - unfold exec, handleToggleConnection, bind, read.
    destruct (connectionState w);
      first [apply connect_transcript
            |destruct (disconnect_transcript f w) as (H1 & H2 & _);
             split; assumption].
  - unfold exec, onSelect, bind, read.
    destruct (connectionState w);
      first [destruct (disconnect_transcript f w) as (H1 & H2 & _);
             split; assumption
            |split; reflexivity].
  - unfold exec.
    destruct (inputAudioContextRef w) as [ctx|] eqn:Ectx;
      [|rewrite onopen_guard by (left; exact Ectx); split; reflexivity].
    destruct (streamRef w) as [str|] eqn:Estr;
      [|rewrite onopen_guard by (right; left; exact Estr); split;
        reflexivity].
    destruct (inputAnalyzerRef w) as [ia|] eqn:Eia;
      [|rewrite onopen_guard by (right; right; exact Eia); split;
        reflexivity].
    rewrite (onopen_ready _ _ _ _ _ Ectx Estr Eia); split; reflexivity.
  - unfold exec, onclose; rewrite cleanup_spec; split; reflexivity.
  - unfold exec; rewrite onerror_spec, cleanup_spec; cbn [snd transcript].
    destruct (truthy (message err) && _); split; reflexivity.
  - split; reflexivity.
  - unfold exec; rewrite updateVisualizer_spec; split; reflexivity.
Qed.

(** Only [connect] and [onerror] write the error field. *)
Lemma react_error (cb : Callback) (w : World) :
  writesError cb = false -> error (exec (react cb) w) = error w.
Proof.
  destruct cb as [key p|f|key p f|f|b|env msg| |err|s|i o|now];
    try discriminate; intros _; cbn [react].
  - apply disconnect_transcript.
  - unfold exec, onSelect, bind, read.
    destruct (connectionState w);
      first [apply disconnect_transcript|reflexivity].
  - unfold exec.
    destruct (inputAudioContextRef w) as [ctx|] eqn:Ectx;
      [|rewrite onopen_guard by (left; exact Ectx); reflexivity].
    destruct (streamRef w) as [str|] eqn:Estr;
      [|rewrite onopen_guard by (right; left; exact Estr); reflexivity].
    destruct (inputAnalyzerRef w) as [ia|] eqn:Eia;
      [|rewrite onopen_guard by (right; right; exact Eia); reflexivity].
    rewrite (onopen_ready _ _ _ _ _ Ectx Estr Eia); reflexivity.
  - pose proof (proj1 (deliver_fixtures (env, msg) w)) as H.
    apply fixtures_eq in H as (_ & H & _); exact H.
  - unfold exec, onclose; rewrite cleanup_spec; reflexivity.
  - reflexivity.
  - unfold exec; rewrite updateVisualizer_spec; reflexivity.
  - reflexivity.
Qed.

(** A message leaves the log of the last render as it is. *)
Lemma deliver_transcript (em : Env * LiveServerMessage) (w : World) :
  transcript (deliver em w) = transcript w.
Proof.
  destruct (accepted w em) eqn:Hacc.
  - rewrite <- !view_transcript, (deliver_view _ _ Hacc).
    apply runView_log.
  - apply (deliver_rejected _ _ Hacc).
Qed.

(** A render with an empty queue changes nothing. *)
Lemma render_settled (now : Z) (w : World) :
  transcriptQueue w = [] -> exec (render now) w = w.
Proof.
  intros Hq; unfold exec, render, rendered; rewrite Hq.
  destruct w; cbn in *; subst; reflexivity.
Qed.

(** X12. The log is written by the message handler, which dispatches the
    updates, and by the render, which runs them, and by nothing else: over
    any run of callbacks without a message and without a render (connects
    that succeed or fail, disconnects, the opening, the close and errors
    of the transport, sources that end, frames of the meter) the log and
    its queue are as they were; and over any run without a message, from
    a hook with nothing in the queue, the log is the log before, whenever
    the component renders, so that it survives a reconnect.  And the error
    field is written by [connect] and by [onerror] only: no message,
    disconnect, close of the transport or render clears or sets it. *)
Theorem log_and_error_writers (cbs : list Callback) (w : World) :
  (forallb (fun cb => negb (writesLog cb)) cbs = true ->
   transcript (session cbs w) = transcript w
   /\ transcriptQueue (session cbs w) = transcriptQueue w)
  /\ (messagesOf cbs = [] ->
      transcriptQueue w = [] ->
      transcript (session cbs w) = transcript w
      /\ transcriptQueue (session cbs w) = [])
  /\ (forallb (fun cb => negb (writesError cb)) cbs = true ->
      error (session cbs w) = error w).
Proof.
  split; [|split]; revert w; induction cbs as [|cb cbs IH]; intros w;
    try (intros; split; reflexivity); try reflexivity.
  - cbn [forallb session fold_left].
    fold (session cbs (exec (react cb) w)).
    intros H; apply andb_prop in H as [Hcb Hcbs].
    apply negb_true_iff in Hcb.
    destruct (IH (exec (react cb) w) Hcbs) as [-> ->].
    apply react_log; exact Hcb.
  - intros _ Hq; split; [reflexivity|exact Hq].
  - cbn [messagesOf flat_map session fold_left].
    fold (messagesOf cbs); fold (session cbs (exec (react cb) w)).
    intros H Hq; apply app_eq_nil in H as [Hcb Hcbs].
    destruct (writesLog cb) eqn:Hw.
    + destruct cb; try discriminate.
      cbn [react]; rewrite (render_settled _ _ Hq); apply (IH _ Hcbs Hq).
    + destruct (react_log cb w Hw) as [Hlog Hqueue].
      rewrite <- Hlog; apply (IH _ Hcbs); rewrite Hqueue; exact Hq.
  - cbn [forallb session fold_left].
    fold (session cbs (exec (react cb) w)).
    intros H; apply andb_prop in H as [Hcb Hcbs].
    apply negb_true_iff in Hcb.
    rewrite (IH _ Hcbs); apply react_error; exact Hcb.
Qed.

(** The updates that one event dispatches only extend a relation between
    logs that is transitive and holds for the three updaters. *)
Lemma stepView_log_ind
    (R : list TranscriptMessage -> list TranscriptMessage -> Prop)
    (env : Env) (v : View) (e : Event) (base : list TranscriptMessage) :
  (forall a b c, R a b -> R b c -> R a c) ->
  (forall now l pending, blank pending = false ->
     R l (l ++ [userMessage now pending])) ->
  (forall now l t, R l (upsertPartial now t l)) ->
  (forall l, R l (finalizeLast l)) ->
  (forall now current, R base (shown now current v)) ->
  forall now current, R base (shown now current (stepView env v e)).
Proof.
  intros Htrans Huser Hupsert Hfinal Hv now current.
  assert (Hflush : R base (shown now current (flushView env v))).
  { rewrite shown_flushView.
    destruct (blank (snd (fst v))) eqn:Hb; [apply Hv|].
    eapply Htrans; [apply Hv|apply Huser; exact Hb]. }
  destruct e as [t|t|]; unfold stepView.
  - destruct v as [[[log q] i] o]; apply Hv.
  - destruct (flushView env v) as [[[log1 q1] i1] o1]; cbn [shown] in *.
    rewrite processUpdates_dispatch; cbn [runUpdater].
    eapply Htrans; [exact Hflush|apply Hupsert].
  - destruct (flushView env v) as [[[log1 q1] i1] o1]; cbn [shown] in *.
    destruct (truthy o1); cbn [shown]; [|exact Hflush].
    rewrite processUpdates_dispatch; cbn [runUpdater].
    eapply Htrans; [exact Hflush|apply Hfinal].
Qed.

Lemma runView_log_ind
    (R : list TranscriptMessage -> list TranscriptMessage -> Prop)
    (env : Env) (es : list Event) (v : View)
    (base : list TranscriptMessage) :
  (forall a b c, R a b -> R b c -> R a c) ->
  (forall now l pending, blank pending = false ->
     R l (l ++ [userMessage now pending])) ->
  (forall now l t, R l (upsertPartial now t l)) ->
  (forall l, R l (finalizeLast l)) ->
  (forall now current, R base (shown now current v)) ->
  forall now current, R base (shown now current (runView env es v)).
Proof.
  intros Htrans Huser Hupsert Hfinal.
  revert v; induction es as [|e es IH]; intros v Hv; [exact Hv|].
  cbn [runView fold_left]; fold (runView env es (stepView env v e)).
  apply IH.
  exact (stepView_log_ind R env v e base Htrans Huser Hupsert Hfinal Hv).
Qed.

(** What a render shows depends on the log and on the queue only. *)
Lemma shown_view (now : Z) (current : JSString) (w : World) :
  shown now current (view w)
  = processUpdates now current (transcriptQueue w) (transcript w).
Proof. reflexivity. Qed.

(** A relation between logs that is reflexive and transitive and holds
    for the three updaters holds between the log of a render and the log
    of any later render, from a hook with nothing in the queue. *)
Lemma session_log_ind
    (R : list TranscriptMessage -> list TranscriptMessage -> Prop) :
  (forall l, R l l) ->
  (forall a b c, R a b -> R b c -> R a c) ->
  (forall now l pending, blank pending = false ->
     R l (l ++ [userMessage now pending])) ->
  (forall now l t, R l (upsertPartial now t l)) ->
  (forall l, R l (finalizeLast l)) ->
  forall cbs w,
    transcriptQueue w = [] ->
    R (transcript w) (transcript (session cbs w)).
Proof.
  intros Hrefl Htrans Huser Hupsert Hfinal.
  assert (Hgen : forall cbs w base,
    R base (transcript w) ->
    (forall now current, R base (shown now current (view w))) ->
    R base (transcript (session cbs w))).
  { induction cbs as [|cb cbs IH]; intros w base Hlog Hshown; [exact Hlog|].
    cbn [session fold_left]; fold (session cbs (exec (react cb) w)).
    destruct (writesLog cb) eqn:Hw.
    - destruct cb as [key p|f|key p f|f|b|env msg| |err|s|i o|now];
        try discriminate; cbn [react]; apply IH.
      + change (exec (onmessage env msg) w) with (deliver (env, msg) w).
        rewrite deliver_transcript; exact Hlog.
      + change (exec (onmessage env msg) w) with (deliver (env, msg) w).
        destruct (accepted w (env, msg)) eqn:Hacc.
        * rewrite (deliver_view _ _ Hacc); cbn [fst snd].
          apply runView_log_ind; assumption.
        * destruct (deliver_rejected _ _ Hacc) as (H1 & H2 & _).
          intros now current; rewrite shown_view, H1, H2; apply Hshown.
      + apply Hshown.
      + intros now' current'; rewrite render_view.
        rewrite shown_renderView; apply Hshown.
    - destruct (react_log cb w Hw) as [H1 H2]; apply IH.
      + rewrite H1; exact Hlog.
      + intros now current; rewrite shown_view, H1, H2; apply Hshown. }
  intros cbs w Hq; apply Hgen; [apply Hrefl|].
  intros now current; rewrite shown_view, Hq; apply Hrefl.
Qed.

Lemma lastOpt_Some (A : Type) (l : list A) (x : A) :
  lastOpt l = Some x -> l = removelast l ++ [x].
Proof.
  destruct l as [|y l]; [discriminate|].
  cbn [lastOpt]; intros [= <-].
  assert (H : last (y :: l) y = last l y) by (destruct l; reflexivity).
  rewrite <- H; apply app_removelast_last; discriminate.
Qed.

Lemma continues_refl (l : list TranscriptMessage) : continues l l.
Proof. intros i m H; exists m; repeat split; auto. Qed.

Lemma continues_length (a b : list TranscriptMessage) :
  continues a b -> (List.length a <= List.length b)%nat.
Proof.
  intros H.
  destruct (nth_error a (List.length b)) as [m|] eqn:E.
  - destruct (H _ _ E) as (m' & Hm' & _).
    assert (Hnone : nth_error b (List.length b) = None)
      by (apply nth_error_None; constructor).
    congruence.
  - apply nth_error_None; exact E.
Qed.

Lemma continues_trans (a b c : list TranscriptMessage) :
  continues a b -> continues b c -> continues a c.
Proof.
  intros Hab Hbc i m Hm.
  destruct (Hab i m Hm) as (m' & Hm' & Hid & Hrole & Hts & Hset).
  destruct (Hbc i m' Hm') as (m'' & Hm'' & Hid' & Hrole' & Hts' & Hset').
  exists m''; split; [exact Hm''|].
  split; [congruence|].
  split; [congruence|].
  split; [congruence|].
  intros Hs; rewrite <- (Hset Hs); apply Hset'.
  rewrite (Hset Hs).
  pose proof (continues_length _ _ Hab) as Hlen.
  destruct Hs as [Hs|[Hs|Hs]];
    [left; lia|right; left; exact Hs|right; right; exact Hs].
Qed.

Lemma continues_snoc (l : list TranscriptMessage) (x : TranscriptMessage) :
  continues l (l ++ [x]).
Proof.
  intros i m H; exists m; split; [|repeat split; auto].
  rewrite nth_error_app1; [exact H|].
  apply nth_error_Some; congruence.
Qed.

Lemma continues_last (l : list TranscriptMessage)
    (m m' : TranscriptMessage) :
  id m' = id m ->
  role m' = role m ->
  timestamp m' = timestamp m ->
  (isPartial m = false \/ role m = user -> m' = m) ->
  continues (l ++ [m]) (l ++ [m']).
Proof.
  intros Hid Hrole Hts Hsame i m0 H.
  destruct (Nat.lt_ge_cases i (List.length l)) as [Hlt|Hge].
  - rewrite nth_error_app1 in H by exact Hlt.
    exists m0; split; [rewrite nth_error_app1 by exact Hlt; exact H|].
    repeat split; auto.
  - rewrite nth_error_app2 in H by exact Hge.
    destruct (i - List.length l)%nat as [|k] eqn:Ek;
      [|destruct k; discriminate].
    cbn [nth_error] in H; injection H as <-.
    exists m'; split;
      [rewrite nth_error_app2 by exact Hge; rewrite Ek; reflexivity|].
    split; [exact Hid|].
    split; [exact Hrole|].
    split; [exact Hts|].
    intros [Hs|Hs]; [|exact (Hsame Hs)].
    rewrite length_app in Hs; cbn [List.length] in Hs; lia.
Qed.

Lemma continues_upsertPartial (now : Z) (t : JSString)
    (l : list TranscriptMessage) :
  continues l (upsertPartial now t l).
Proof.
  unfold upsertPartial.
  destruct (lastOpt l) as [m|] eqn:E; [|apply continues_snoc].
  destruct (Role_eqb (role m) assistant && isPartial m) eqn:C;
    [|apply continues_snoc].
  apply andb_prop in C as [Hrole Hpartial].
  rewrite (lastOpt_Some _ _ _ E) at 1.
  apply continues_last; try reflexivity.
  cbn [role].
  intros [H|H]; [congruence|rewrite H in Hrole; discriminate].
Qed.

Lemma continues_finalizeLast (l : list TranscriptMessage) :
  continues l (finalizeLast l).
Proof.
  unfold finalizeLast.
  destruct (lastOpt l) as [m|] eqn:E; [|apply continues_refl].
  destruct (Role_eqb (role m) assistant) eqn:Hrole; [|apply continues_refl].
  rewrite (lastOpt_Some _ _ _ E) at 1.
  apply continues_last; try reflexivity.
  intros [H|H]; [|rewrite H in Hrole; discriminate].
  destruct m; cbn [isPartial] in H; subst; reflexivity.
Qed.


(** X13. The log is append-only, and its entries settle.  From a hook with
    nothing in the queue, over any run of callbacks (renders among them),
    every entry of the log stays at its place with its id, its role and
    its timestamp, so that the log never shrinks; and an entry that is not
    the last one, or is finalized, or is a user entry, is never rewritten
    at all: only the text and the partial flag of a trailing partial
    assistant entry can still change. *)
Theorem transcript_entries_settle (cbs : list Callback) (w : World)
    (i : nat) (m : TranscriptMessage) :
  transcriptQueue w = [] ->
  nth_error (transcript w) i = Some m ->
  exists m',
    nth_error (transcript (session cbs w)) i = Some m'
    /\ id m' = id m
    /\ role m' = role m
    /\ timestamp m' = timestamp m
    /\ ((S i < List.length (transcript w))%nat
        \/ isPartial m = false
        \/ role m = user ->
        m' = m).
Proof.
  intros Hq; revert i m.
  change (continues (transcript w) (transcript (session cbs w))).
  revert cbs w Hq; apply (session_log_ind continues).
  - apply continues_refl.
  - apply continues_trans.
  - intros; apply continues_snoc.
  - intros; apply continues_upsertPartial.
  - apply continues_finalizeLast.
Qed.

Lemma wellFormed_last (l : list TranscriptMessage)
    (m m' : TranscriptMessage) :
  lastOpt l = Some m ->
  (wellFormed m -> wellFormed m') ->
  Forall wellFormed l -> Forall wellFormed (removelast l ++ [m']).
Proof.
  intros E Hm H.
  rewrite (lastOpt_Some _ _ _ E) in H.
  apply Forall_app in H as [Hl Hlast].
  apply Forall_app; split; [exact Hl|].
  inversion Hlast; subst; constructor; [auto|constructor].
Qed.

(** X14. User entries are whole: from a hook with nothing in the queue,
    over any run of callbacks (renders among them), in a log in which
    every user entry is finalized and has a text with a character that is
    not white space (the empty log of the hook before its first message,
    for one), every user entry is still so.  The handler never logs a
    blank user line, and only assistant entries are ever partial. *)
Theorem user_entries_are_whole (cbs : list Callback) (w : World) :
  transcriptQueue w = [] ->
  Forall wellFormed (transcript w) ->
  Forall wellFormed (transcript (session cbs w)).
Proof.
  revert cbs w.
  apply (session_log_ind
           (fun l l' => Forall wellFormed l -> Forall wellFormed l')).
  - auto.
  - auto.
  - intros now l pending Hb H; apply Forall_app; split; [exact H|].
    constructor; [|constructor].
    intros _; split; [reflexivity|exact Hb].
  - intros now l t H; unfold upsertPartial.
    assert (Hnew : Forall wellFormed (l ++ [assistantPartial now t])).
    { apply Forall_app; split; [exact H|].
      constructor; [|constructor]; discriminate. }
    destruct (lastOpt l) as [m|] eqn:E; [|exact Hnew].
    destruct (Role_eqb (role m) assistant && isPartial m) eqn:C;
      [|exact Hnew].
    apply andb_prop in C as [Hrole _].
    apply (wellFormed_last l m _ E); [|exact H].
    intros _; unfold wellFormed; cbn [role].
    intros Hu; rewrite Hu in Hrole; discriminate.
  - intros l H; unfold finalizeLast.
    destruct (lastOpt l) as [m|] eqn:E; [|exact H].
    destruct (Role_eqb (role m) assistant) eqn:Hrole; [|exact H].
    apply (wellFormed_last l m _ E); [|exact H].
    intros _; unfold wellFormed; cbn [role].
    intros Hu; rewrite Hu in Hrole; discriminate.
Qed.

Lemma sorted_snoc (ts : list Z) (t : Z) :
  StronglySorted Z.le ts ->
  Forall (fun x => (x <= t)%Z) ts ->
  StronglySorted Z.le (ts ++ [t]).
Proof.
  induction ts as [|x ts IH]; intros Hs Hle; cbn [app].
  - constructor; constructor.
  - inversion Hs; subst; inversion Hle; subst; constructor.
    + apply IH; assumption.
    + apply Forall_app; split;
        [assumption|constructor; [assumption|constructor]].
Qed.

Lemma chronological_weaken (t0 now : Z) (l : list TranscriptMessage) :
  (t0 <= now)%Z -> chronological t0 l -> chronological now l.
Proof.
  intros Hle [Hs Hall]; split; [exact Hs|].
  eapply Forall_impl; [|exact Hall]; cbn beta; intros; lia.
Qed.

Lemma chronological_snoc (now : Z) (l : list TranscriptMessage)
    (x : TranscriptMessage) :
  timestamp x = now -> chronological now l -> chronological now (l ++ [x]).
Proof.
  intros Hx [Hs Hall]; unfold chronological.
  rewrite map_app; cbn [map]; rewrite Hx; split.
  - apply sorted_snoc; assumption.
  - apply Forall_app; split; [exact Hall|].
    constructor; [lia|constructor].
Qed.

Lemma chronological_last (now : Z) (l : list TranscriptMessage)
    (m m' : TranscriptMessage) :
  lastOpt l = Some m ->
  timestamp m' = timestamp m ->
  chronological now l -> chronological now (removelast l ++ [m']).
Proof.
  intros E Hts H.
  assert (Hmap : map timestamp (removelast l ++ [m']) = map timestamp l).
  { rewrite (lastOpt_Some _ _ _ E) at 2.
    rewrite !map_app; cbn [map]; rewrite Hts; reflexivity. }
  unfold chronological; rewrite Hmap; exact H.
Qed.

(** An updater stamps what it adds with the clock it reads. *)
Lemma chronological_runUpdater (now : Z) (current : JSString)
    (updater : Updater) (l : list TranscriptMessage) :
  chronological now l -> chronological now (runUpdater now current updater l).
Proof.
  intros H; destruct updater as [userText| |]; cbn [runUpdater].
  - apply chronological_snoc; [reflexivity|exact H].
  - unfold upsertPartial.
    destruct (lastOpt l) as [m|] eqn:E;
      [|apply chronological_snoc; [reflexivity|exact H]].
    destruct (Role_eqb (role m) assistant && isPartial m);
      [|apply chronological_snoc; [reflexivity|exact H]].
    apply (chronological_last _ l m _ E); [reflexivity|exact H].
  - unfold finalizeLast.
    destruct (lastOpt l) as [m|] eqn:E; [|exact H].
    destruct (Role_eqb (role m) assistant); [|exact H].
    apply (chronological_last _ l m _ E); [reflexivity|exact H].
Qed.

Lemma dispatch_chronological (env : Env) (updater : Updater)
    (log : list TranscriptMessage) (pendingOut : JSString)
    (queue : list Update) (now : Z) (current : JSString) :
  (dateNow env <= now)%Z ->
  chronological (dateNow env) log ->
  chronological now (processUpdates now current queue log) ->
  chronological now
    (processUpdates now current (dispatch env updater log pendingOut queue)
       log).
Proof.
  intros Hle Hlog Hshown; rewrite processUpdates_dispatch.
  destruct (readsAt_cases env queue pendingOut now current)
    as [->|(-> & -> & _)]; cbn [fst snd].
  - apply chronological_runUpdater; exact Hshown.
  - apply (chronological_weaken _ _ _ Hle).
    apply chronological_runUpdater; exact Hlog.
Qed.

Lemma stepView_chronological (env : Env) (v : View) (e : Event) :
  chronological (dateNow env) (fst (fst (fst v))) ->
  (forall now current,
     (dateNow env <= now)%Z -> chronological now (shown now current v)) ->
  forall now current,
    (dateNow env <= now)%Z ->
    chronological now (shown now current (stepView env v e)).
Proof.
  intros Hlog Hv now current Hle.
  destruct v as [[[log q] i] o]; cbn [fst] in Hlog.
  assert (Hflush : chronological now
                     (shown now current (flushView env (log, q, i, o)))).
  { unfold flushView; destruct (blank i); [apply Hv; exact Hle|].
    cbn [shown]; apply dispatch_chronological; try assumption.
    apply (Hv now current Hle). }
  destruct e as [t|t|]; unfold stepView.
  - apply Hv; exact Hle.
  - pose proof (flushView_cells env (log, q, i, o)) as (Hlog1 & _).
    destruct (flushView env (log, q, i, o)) as [[[log1 q1] i1] o1].
    cbn [fst shown] in *; subst log1.
    apply dispatch_chronological; assumption.
  - pose proof (flushView_cells env (log, q, i, o)) as (Hlog1 & _).
    destruct (flushView env (log, q, i, o)) as [[[log1 q1] i1] o1].
    cbn [fst] in Hlog1; subst log1.
    destruct (truthy o1); cbn [shown] in *; [|exact Hflush].
    apply dispatch_chronological; assumption.
Qed.

Lemma runView_chronological (env : Env) (es : list Event) (v : View) :
  chronological (dateNow env) (fst (fst (fst v))) ->
  (forall now current,
     (dateNow env <= now)%Z -> chronological now (shown now current v)) ->
  forall now current,
    (dateNow env <= now)%Z ->
    chronological now (shown now current (runView env es v)).
Proof.
  revert v; induction es as [|e es IH]; intros v Hlog Hv; [exact Hv|].
  cbn [runView fold_left]; fold (runView env es (stepView env v e)).
  apply IH.
  - rewrite stepView_log; exact Hlog.
  - apply stepView_chronological; assumption.
Qed.

Lemma session_chronological (cbs : list Callback) (w : World) (t : Z) :
  clockFrom t (timesOf cbs) ->
  chronological t (transcript w) ->
  (forall now current,
     (t <= now)%Z -> chronological now (shown now current (view w))) ->
  exists t', chronological t' (transcript (session cbs w)).
Proof.
  revert w t; induction cbs as [|cb cbs IH]; intros w t Hclock Hlog Hshown.
  - exists t; exact Hlog.
  - cbn [session fold_left]; fold (session cbs (exec (react cb) w)).
    destruct (writesLog cb) eqn:Hw.
    + destruct cb as [key p|f|key p f|f|b|env msg| |err|s|i o|now];
        try discriminate; cbn [react timesOf flat_map app clockFrom] in *;
        destruct Hclock as [Hle Hclock].
      * change (exec (onmessage env msg) w) with (deliver (env, msg) w).
        apply (IH _ (dateNow env) Hclock).
        -- rewrite deliver_transcript.
           exact (chronological_weaken _ _ _ Hle Hlog).
        -- destruct (accepted w (env, msg)) eqn:Hacc.
           ++ rewrite (deliver_view _ _ Hacc); cbn [fst snd].
              apply runView_chronological.
              ** exact (chronological_weaken _ _ _ Hle Hlog).
              ** intros now current Hnow; apply Hshown; lia.
           ++ destruct (deliver_rejected _ _ Hacc) as (H1 & H2 & _).
              intros now current Hnow; rewrite shown_view, H1, H2.
              apply Hshown; lia.
      * apply (IH _ now Hclock).
        -- apply (Hshown now _ Hle).
        -- intros now' current' Hnow; rewrite render_view, shown_renderView.
           apply (chronological_weaken _ _ _ Hnow).
           apply (Hshown now _ Hle).
    + destruct (react_log cb w Hw) as [H1 H2].
      apply (IH _ t).
      * destruct cb; try discriminate; exact Hclock.
      * rewrite H1; exact Hlog.
      * intros now current Hnow; rewrite shown_view, H1, H2.
        apply Hshown; exact Hnow.
Qed.

(** X15. The log is in chronological order as long as the wall clock does
    not go back: when [Date.now()] never goes down from one reading to the
    next (by the handler of a message, at a render), nothing is in the
    queue at the start, and the log at the start is in order with no
    timestamp after the clock (the empty log, for one), then after any run
    of callbacks the timestamps of the log, read from its first entry to
    its last, never go down. *)
Theorem transcript_is_chronological (cbs : list Callback) (w : World)
    (now : Z) :
  transcriptQueue w = [] ->
  clockFrom now (timesOf cbs) ->
  StronglySorted Z.le (map timestamp (transcript w)) ->
  Forall (fun m => (timestamp m <= now)%Z) (transcript w) ->
  StronglySorted Z.le (map timestamp (transcript (session cbs w))).
Proof.
  intros Hq Hclock Hs Hall.
  assert (Hlog : chronological now (transcript w)).
  { split; [exact Hs|apply Forall_map; exact Hall]. }
  destruct (session_chronological cbs w now Hclock Hlog) as [now' [H _]];
    [|exact H].
  intros now0 current Hle; rewrite shown_view, Hq.
  exact (chronological_weaken _ _ _ Hle Hlog).
Qed.

(** ** The level meter *)

Lemma fold_add_bound (l : list N) (a : N) :
  Forall (fun b => (b <= 255)%N) l ->
  (fold_left N.add l a <= a + 255 * N.of_nat (List.length l))%N.
Proof.
  revert a; induction l as [|b l IH]; intros a H; cbn [fold_left List.length].
  - lia.
  - inversion H as [|b' l' Hb Hl]; subst.
    specialize (IH (a + b)%N Hl); lia.
Qed.

(** The mean of a non-empty array of bytes is between 0 and 255. *)
Lemma mean_bounds (l : list N) :
  l <> [] ->
  Forall (fun b => (b <= 255)%N) l ->
  (0 <= mean l)%Q /\ (mean l <= 255)%Q.
Proof.
  intros Hne Hall; unfold mean.
  pose proof (fold_add_bound l 0 Hall) as Hsum.
  assert (Hlen : (0 < List.length l)%nat)
    by (destruct l; [contradiction|cbn; lia]).
  assert (Hpos : (0 < inject_Z (Z.of_nat (List.length l)))%Q).
  { rewrite <- (Zlt_Qlt 0); lia. }
  split.
  - apply Qle_shift_div_l; [exact Hpos|].
    rewrite Qmult_0_l, <- (Zle_Qle 0); lia.
  - apply Qle_shift_div_r; [exact Hpos|].
    change 255%Q with (inject_Z 255).
    rewrite <- inject_Z_mult, <- Zle_Qle; lia.
Qed.

(** X16. A frame of the level meter sets the volume and nothing else.  With
    frequency data as the analyzers deliver it (arrays of bytes, not empty),
    the volume is between 0 and 255.  It is 0 whenever the state is not
    Connected; when it is Connected, with both analyzers in place, it is
    the larger of the mean of the input bytes and the mean of the output
    bytes. *)
Theorem level_meter_bounds (inputData outputData : list N) (w : World) :
  inputData <> [] ->
  outputData <> [] ->
  Forall (fun b => (b <= 255)%N) inputData ->
  Forall (fun b => (b <= 255)%N) outputData ->
  let w' := exec (updateVisualizer inputData outputData) w in
  updateVisualizer inputData outputData w = (Ok tt, w')
  /\ w' = set_volume (volume w') w
  /\ (0 <= volume w')%Q
  /\ (volume w' <= 255)%Q
  /\ (connectionState w <> CONNECTED -> volume w' = 0)
  /\ (connectionState w = CONNECTED ->
      inputAnalyzerRef w <> None ->
      outputAnalyzerRef w <> None ->
      (mean inputData <= volume w')%Q
      /\ (mean outputData <= volume w')%Q
      /\ (volume w' = mean inputData \/ volume w' = mean outputData)).
Proof.
  intros Hin Hout Hbin Hbout; cbv zeta; unfold exec.
  rewrite updateVisualizer_spec; cbn [snd volume set_volume].
  destruct (mean_bounds _ Hin Hbin) as [Hi0 Hi255].
  destruct (mean_bounds _ Hout Hbout) as [Ho0 Ho255].
  split; [reflexivity|].
  split; [destruct w; reflexivity|].
  assert (Hlevel : (0 <= level inputData outputData w)%Q
                   /\ (level inputData outputData w <= 255)%Q).
  { unfold level; destruct (connectionState w);
      try (split; [apply Qle_refl|discriminate]).
    destruct (inputAnalyzerRef w), (outputAnalyzerRef w); split;
      try (eapply Qle_trans; [|apply Q.le_max_l]; first [exact Hi0|apply Qle_refl]);
      apply Q.max_lub; first [assumption|discriminate]. }
  split; [exact (proj1 Hlevel)|].
  split; [exact (proj2 Hlevel)|].
  split.
  - intros Hcs; unfold level; destruct (connectionState w);
      try reflexivity; contradiction.
  - intros Hcs Hia Hoa; unfold level; rewrite Hcs.
    destruct (inputAnalyzerRef w); [|contradiction].
    destruct (outputAnalyzerRef w); [|contradiction].
    split; [apply Q.le_max_l|].
    split; [apply Q.le_max_r|].
    unfold Qmax, GenericMinMax.gmax.
    destruct (mean inputData ?= mean outputData); auto.
Qed.

(** ** The user's words *)

Lemma userText_app (a b : list TranscriptMessage) :
  userText (a ++ b) = userText a ++ userText b.
Proof. apply flat_map_app. Qed.

Lemma userText_last (l : list TranscriptMessage)
    (m m' : TranscriptMessage) :
  lastOpt l = Some m ->
  role m = assistant ->
  role m' = assistant ->
  userText (removelast l ++ [m']) = userText l.
Proof.
  intros E Hm Hm'.
  rewrite (lastOpt_Some _ _ _ E) at 2.
  rewrite !userText_app; cbn [userText flat_map]; unfold isUser.
  rewrite Hm, Hm'; reflexivity.
Qed.

Lemma userText_upsertPartial (now : Z) (t : JSString)
    (l : list TranscriptMessage) :
  userText (upsertPartial now t l) = userText l.
Proof.
  unfold upsertPartial.
  assert (Hnew : userText (l ++ [assistantPartial now t]) = userText l)
    by (rewrite userText_app; apply app_nil_r).
  destruct (lastOpt l) as [m|] eqn:E; [|exact Hnew].
  destruct (Role_eqb (role m) assistant && isPartial m) eqn:C; [|exact Hnew].
  apply andb_prop in C as [Hrole _].
  assert (Hm : role m = assistant) by (destruct (role m); [discriminate|reflexivity]).
  apply (userText_last l m _ E Hm); exact Hm.
Qed.

Lemma userText_finalizeLast (l : list TranscriptMessage) :
  userText (finalizeLast l) = userText l.
Proof.
  unfold finalizeLast.
  destruct (lastOpt l) as [m|] eqn:E; [|reflexivity].
  destruct (Role_eqb (role m) assistant) eqn:Hrole; [|reflexivity].
  assert (Hm : role m = assistant) by (destruct (role m); [discriminate|reflexivity]).
  apply (userText_last l m _ E Hm); exact Hm.
Qed.

Lemma userText_runUpdater (now : Z) (current : JSString) (updater : Updater)
    (l : list TranscriptMessage) :
  userText (runUpdater now current updater l)
  = userText l
    ++ match updater with
       | AppendUser pending => pending
       | _ => []
       end.
Proof.
  destruct updater as [pending| |]; cbn [runUpdater].
  - rewrite userText_app.
    cbn [userText flat_map isUser userMessage role text Role_eqb].
    rewrite app_nil_r; reflexivity.
  - rewrite userText_upsertPartial, app_nil_r; reflexivity.
  - rewrite userText_finalizeLast, app_nil_r; reflexivity.
Qed.

(** The user lines that a render shows depend neither on its clock nor
    on what the assistant accumulator holds. *)
Lemma userText_processUpdates (now now' : Z) (current current' : JSString)
    (queue : list Update) (l l' : list TranscriptMessage) :
  userText l = userText l' ->
  userText (processUpdates now current queue l)
  = userText (processUpdates now' current' queue l').
Proof.
  revert l l'; induction queue as [|update queue IH]; intros l l' H;
    [exact H|].
  cbn [processUpdates fold_left]; apply IH.
  destruct update as [state|updater]; cbn [applyUpdate]; [reflexivity|].
  rewrite !userText_runUpdater, H; reflexivity.
Qed.

Lemma userText_shown (now now' : Z) (current current' : JSString)
    (v : View) :
  userText (shown now current v) = userText (shown now' current' v).
Proof.
  destruct v as [[[log q] i] o]; cbn [shown].
  apply userText_processUpdates; reflexivity.
Qed.

(** The events of a message move the user's words from the accumulator to
    the queue, and add the input deltas to the accumulator. *)
Lemma runView_userText (env : Env) (es : list Event) (v : View) (now : Z)
    (current : JSString) :
  userText (shown now current (runView env es v))
  ++ snd (fst (runView env es v))
  = userText (shown now current v) ++ snd (fst v) ++ inputsOf es.
Proof.
  revert v; induction es as [|e es IH]; intros v.
  - cbn [runView fold_left inputsOf flat_map]; rewrite app_nil_r; reflexivity.
  - cbn [runView fold_left inputsOf flat_map].
    fold (runView env es (stepView env v e)); fold (inputsOf es).
    rewrite IH; clear IH.
    assert (Hflush :
      userText (shown now current (flushView env v))
      ++ snd (fst (flushView env v))
      = userText (shown now current v) ++ snd (fst v)).
    { rewrite shown_flushView.
      destruct (flushView_cells env v) as (_ & -> & _).
      destruct (blank (snd (fst v))); [reflexivity|].
      rewrite userText_app, app_nil_r.
      cbn [userText flat_map isUser userMessage role text Role_eqb].
      rewrite app_nil_r; reflexivity. }
    destruct e as [t|t|]; unfold stepView.
    + destruct v as [[[log q] i] o]; cbn [shown fst snd].
      rewrite <- !app_assoc; reflexivity.
    + destruct (flushView env v) as [[[log1 q1] i1] o1].
      cbn [shown fst snd] in *.
      rewrite processUpdates_dispatch, userText_runUpdater, app_nil_r.
      rewrite app_assoc, Hflush, <- app_assoc; reflexivity.
    + destruct (flushView env v) as [[[log1 q1] i1] o1].
      cbn [shown fst snd] in *.
      destruct (truthy o1); cbn [shown fst snd];
        rewrite ?processUpdates_dispatch, ?userText_runUpdater, ?app_nil_r;
        rewrite app_assoc, Hflush, <- app_assoc; reflexivity.
Qed.

Lemma accepted_fixtures (w w' : World) (em : Env * LiveServerMessage) :
  fixtures w' = fixtures w -> accepted w' em = accepted w em.
Proof.
  intros H; apply fixtures_eq in H.
  destruct H as (_ & _ & _ & Hctx & Hnode & _).
  unfold accepted, audioFails; rewrite Hctx, Hnode; reflexivity.
Qed.

Lemma eventsOf_cons (cb : Callback) (cbs : list Callback) :
  eventsOf (cb :: cbs)
  = match cb with
    | Message _ message => events message
    | _ => []
    end ++ eventsOf cbs.
Proof.
  unfold eventsOf; cbn [messagesOf flat_map]; rewrite flat_map_app.
  destruct cb; try reflexivity.
  cbn [flat_map snd]; rewrite app_nil_r; reflexivity.
Qed.

(** X17. No word of the user is lost or said twice by the message handler:
    after any run of messages, of renders, of sources that end and of
    frames of the meter, the user lines of the log that the next render
    shows, one after the other, followed by the text still pending in the
    user accumulator, are what they were before the run followed by the
    input deltas of the messages that were handled (those without the
    interrupted flag and not dropped at the decoder), in arrival order.
    Blank deltas wait in the accumulator for the words that follow them.
    The user lines that a render shows do not depend on when it comes. *)
Theorem user_words_are_kept (cbs : list Callback) (w : World)
    (now now' : Z) :
  forallb duringSession cbs = true ->
  let w' := session cbs w in
  userText (rendered now' w') ++ currentInputTransRef w'
  = userText (rendered now w) ++ currentInputTransRef w
    ++ inputsOf (eventsOf (filter (handled w) cbs)).
Proof.
  cbv zeta; revert w; induction cbs as [|cb cbs IH]; intros w Hcbs.
  - cbn [session fold_left filter eventsOf messagesOf flat_map inputsOf].
    rewrite app_nil_r, !rendered_shown.
    rewrite (userText_shown now' now _ (currentOutputTransRef w));
      reflexivity.
  - cbn [forallb] in Hcbs; apply andb_prop in Hcbs as [Hcb Hcbs].
    cbn [session fold_left filter]; fold (session cbs (exec (react cb) w)).
    rewrite (IH _ Hcbs); clear IH.
    assert (Hfilter : filter (handled (exec (react cb) w)) cbs
                      = filter (handled w) cbs).
    { apply filter_ext; intros cb'; destruct cb'; try reflexivity.
      cbn [handled]; apply accepted_fixtures, react_fixtures; exact Hcb. }
    rewrite Hfilter; clear Hfilter.
    set (rest := inputsOf (eventsOf (filter (handled w) cbs))).
    assert (Hstep :
      userText (rendered now (exec (react cb) w))
      ++ currentInputTransRef (exec (react cb) w)
      = userText (rendered now w) ++ currentInputTransRef w
        ++ inputsOf (if handled w cb
                     then match cb with
                          | Message _ message => events message
                          | _ => []
                          end
                     else [])).
    { destruct cb as [key p|f|key p f|f|b|env msg| |err|s|i o|t];
        try discriminate; cbn [handled react].
      - change (exec (onmessage env msg) w) with (deliver (env, msg) w).
        rewrite !rendered_shown.
        destruct (accepted w (env, msg)) eqn:Hacc.
        + pose proof (runView_userText env (events msg) (view w) now
                        (currentOutputTransRef (deliver (env, msg) w))) as H.
          pose proof (deliver_view _ _ Hacc) as Hv; cbn [fst snd] in Hv.
          rewrite <- Hv in H; cbn [view fst snd] in H.
          cbn [view]; rewrite H.
          rewrite (userText_shown now now _ (currentOutputTransRef w));
            reflexivity.
        + destruct (deliver_rejected _ _ Hacc) as (H1 & H2 & H3).
          cbn [inputsOf flat_map]; rewrite app_nil_r, H3.
          rewrite !shown_view, H1, H2.
          rewrite (userText_processUpdates now now _
                     (currentOutputTransRef w) _ _ (transcript w));
            reflexivity.
      - cbn [inputsOf flat_map]; rewrite app_nil_r; reflexivity.
      - cbn [inputsOf flat_map]; rewrite app_nil_r.
        unfold exec; rewrite updateVisualizer_spec; reflexivity.
      - cbn [inputsOf flat_map]; rewrite app_nil_r.
        destruct (render_transcript t w) as (_ & _ & Hin & _).
        rewrite !rendered_shown, render_view, shown_renderView, Hin.
        rewrite (userText_shown t now _ (currentOutputTransRef w));
          reflexivity. }
    rewrite app_assoc, Hstep, <- !app_assoc; do 2 f_equal.
    destruct (handled w cb) eqn:Hh; [|reflexivity].
    rewrite eventsOf_cons; unfold inputsOf; rewrite flat_map_app.
    reflexivity.
Qed.

End UseLiveGemini.

(** ** The hook on concrete inputs *)

Local Abbreviation connect' := (connect 16000 24000 demoStopThrows).
Local Abbreviation onmessage' :=
  (onmessage 24000 demoDecodeBase64 demoDecodeAudioData demoStopThrows).
Local Abbreviation deliver' :=
  (deliver 24000 demoDecodeBase64 demoDecodeAudioData demoStopThrows).
Local Abbreviation deliverAll' :=
  (deliverAll 24000 demoDecodeBase64 demoDecodeAudioData demoStopThrows).
Local Abbreviation toggle' :=
  (handleToggleConnection 16000 24000 demoStopThrows demoCloseThrows).
Local Abbreviation session' :=
  (session 16000 24000 demoDecodeBase64 demoDecodeAudioData demoStopThrows
     demoCloseThrows).

(** The hook after a successful [connect] and the opening of the
    transport. *)
Local Abbreviation connectedWorld :=
  (exec (onopen false)
     (exec (connect' (Some (utf16 "key")) platformOk) initialWorld)).

(** The connected hook with two units in flight. *)
Local Abbreviation playingWorld :=
  (deliverAll'
     [(at_ (1 # 2) 1000, audioMessage (utf16 "AAAAAAAA"));
      (at_ (1 # 2) 1001, audioMessage (utf16 "AAAAAAAAAAAAAAAA"))]
     connectedWorld).

Lemma demo_duration_nonneg (audioData : list N) (ctx : Handle)
    (audioBuffer : AudioBuffer) :
  demoDecodeAudioData audioData ctx 24000 = Ok audioBuffer ->
  (0 <= duration audioBuffer)%Q.
Proof.
  unfold demoDecodeAudioData.
  destruct (Nat.even (List.length audioData)); [|discriminate].
  intros [= <-]; unfold Qle; cbn [duration Qnum Qden]; lia.
Qed.

(** C8 on the initial hook, with the key unset and with an empty key. *)
Lemma connect_without_credential_witness :
  connect' None platformOk initialWorld
  = (Ok tt, set_error (Some API_KEY_MISSING) initialWorld)
  /\ connectionState (exec (connect' (Some []) platformOk) initialWorld)
     = DISCONNECTED.
Proof.
  split.
  - exact (proj1 (connect_without_credential 16000 24000 demoStopThrows
                    None platformOk initialWorld eq_refl)).
  - destruct (connect_without_credential 16000 24000 demoStopThrows
                (Some []) platformOk initialWorld eq_refl)
      as (_ & _ & Hstate & _).
    rewrite Hstate; reflexivity.
Defined.

(** C4 when the microphone is denied, and when the transport fails to open
    with an error that has no message: the hook ends Disconnected, with
    stream and session cleared and a message in the error field. *)
Lemma connect_failure_witness :
  (let w' := exec (connect' (Some (utf16 "key")) platformDeniesMicrophone)
               initialWorld in
   connectionState w' = DISCONNECTED
   /\ sessionRef w' = None
   /\ streamRef w' = None
   /\ exists msg, error w' = Some msg /\ truthy msg = true)
  /\ (let w' := exec (connect' (Some (utf16 "key")) platformTransportFails)
                  initialWorld in
      connectionState w' = DISCONNECTED
      /\ sessionRef w' = None
      /\ streamRef w' = None
      /\ exists msg, error w' = Some msg /\ truthy msg = true).
Proof.
  cbv zeta; split.
  - destruct (connect_failure_funnels_through_cleanup 16000 24000
                demoStopThrows (Some (utf16 "key")) platformDeniesMicrophone
                initialWorld eq_refl eq_refl)
      as (err & w1 & _ & H).
    cbv zeta in H.
    destruct H as (_ & _ & _ & Hmsg & _ & Herr & Hstate & _ & _ & Hstream
                   & _ & _ & Hsession & _).
    split; [exact Hstate|]. split; [exact Hsession|]. split; [exact Hstream|].
    exists (orElse (message err) INIT_FAILED); split; [exact Herr|exact Hmsg].
  - destruct (connect_failure_funnels_through_cleanup 16000 24000
                demoStopThrows (Some (utf16 "key")) platformTransportFails
                initialWorld eq_refl eq_refl)
      as (err & w1 & _ & H).
    cbv zeta in H.
    destruct H as (_ & _ & _ & Hmsg & _ & Herr & Hstate & _ & _ & Hstream
                   & _ & _ & Hsession & _).
    split; [exact Hstate|]. split; [exact Hsession|]. split; [exact Hstream|].
    exists (orElse (message err) INIT_FAILED); split; [exact Herr|exact Hmsg].
Defined.

(** C2 on the connected hook: two buffers that arrive together, a payload
    that fails to decode, and a buffer that arrives before the queue has
    run dry. *)
Lemma playback_schedule_witness :
  let ms := [(at_ (1 # 2) 1000, audioMessage (utf16 "AAAAAAAA"));
             (at_ (1 # 2) 1001, audioMessage (utf16 "AAAAAAAAAAAAAAAA"));
             (at_ (1 # 2) 1002, audioMessage (utf16 "AAAA"));
             (at_ (1 # 2) 1003, audioMessage (utf16 "AAAAAAAA"))] in
  let w := exec (write set_nextStartTimeRef (1 # 2)) connectedWorld in
  exists new,
    trace (deliverAll' ms w) = trace w ++ new
    /\ nondecreasing (map fst (unitsOf new))
    /\ noOverlapFrom (1 # 2) (unitsOf new)
    /\ backToBackFrom (1 # 2) (unitsOf new).
Proof.
  cbv zeta.
  destruct (playback_schedule_monotonic_and_gapless 24000 demoDecodeBase64
              demoDecodeAudioData demoStopThrows demo_duration_nonneg)
    as [_ Hrun].
  destruct (Hrun
              [(at_ (1 # 2) 1000, audioMessage (utf16 "AAAAAAAA"));
               (at_ (1 # 2) 1001, audioMessage (utf16 "AAAAAAAAAAAAAAAA"));
               (at_ (1 # 2) 1002, audioMessage (utf16 "AAAA"));
               (at_ (1 # 2) 1003, audioMessage (utf16 "AAAAAAAA"))]
              (exec (write set_nextStartTimeRef (1 # 2)) connectedWorld)
              eq_refl)
    as (new & Htr & Hnd & Hno & Hpace).
  exists new.
  split; [exact Htr|]. split; [exact Hnd|]. split; [exact Hno|].
  apply Hpace; vm_compute; reflexivity.
Defined.

(** C3 on the hook with two units in flight: the interruption, then a
    message without audio, then a buffer at clock 7/10. *)
Lemma interruption_resets_playback_witness :
  let w1 := deliver' (at_ (1 # 2) 1002, interruptedMessage) playingWorld in
  let w2 := deliverAll' [(at_ (3 # 5) 1003, inputDeltaMessage (utf16 "wait"))]
              w1 in
  activeSourcesRef w1 = []
  /\ nextStartTimeRef w1 = 0
  /\ trace (deliver' (at_ (7 # 10) 1004, audioMessage (utf16 "AAAAAAAA")) w2)
     = trace w2
       ++ [SourceStart (nextObject w2) {| duration := 3 # 24000 |}
             (Qmax 0 (7 # 10))].
Proof.
  cbv zeta.
  destruct (interruption_resets_playback 24000 demoDecodeBase64
              demoDecodeAudioData demoStopThrows (at_ (1 # 2) 1002)
              interruptedMessage playingWorld eq_refl)
    as (_ & Hset & Hcursor & _ & Hnext).
  cbv zeta in Hnext.
  split; [exact Hset|]. split; [exact Hcursor|].
  destruct (Hnext [(at_ (3 # 5) 1003, inputDeltaMessage (utf16 "wait"))]
              (at_ (7 # 10) 1004) (audioMessage (utf16 "AAAAAAAA"))
              {| duration := 3 # 24000 |}
              ltac:(vm_compute; reflexivity) eq_refl
              ltac:(vm_compute; reflexivity)) as (Htr & _).
  rewrite Htr; f_equal.
Defined.

(** C9 on the hook with two units in flight and a first output delta
    that React has run but not rendered: a message with the interrupted
    flag and everything else besides. *)
Lemma interrupted_message_witness :
  let w := deliver' (at_ (1 # 2) 1002, outputDeltaMessage (utf16 "Hel"))
             playingWorld in
  let w' := exec (onmessage' (at_ (1 # 2) 1003) interruptedWithPayload) w in
  trace w' = trace w ++ map SourceStop (activeSourcesRef w)
  /\ currentInputTransRef w' = currentInputTransRef w
  /\ transcript w' = transcript w
  /\ rendered 1004 w' = [assistantPartial 1002 (utf16 "Hel")].
Proof.
  cbv zeta.
  destruct (interrupted_message_only_interrupts 24000 demoDecodeBase64
              demoDecodeAudioData demoStopThrows (at_ (1 # 2) 1003)
              interruptedWithPayload
              (deliver' (at_ (1 # 2) 1002, outputDeltaMessage (utf16 "Hel"))
                 playingWorld)
              eq_refl)
    as (_ & _ & Htr & _ & Hin & Hlog & _ & Hrender).
  split; [exact Htr|]. split; [exact Hin|]. split; [exact Hlog|].
  rewrite (Hrender eq_refl 1004%Z); vm_compute; reflexivity.
Defined.

(** C6 on the initial hook with a pending user text: the first message
    batches the end of the user text with the first output delta; a second
    delta follows, a render, a message of audio, and a third delta batched
    with an input delta of white space.  The log at a render after the
    second message, and at a render after the last. *)
Lemma output_deltas_collapse_witness :
  let w := exec (write set_currentInputTransRef (utf16 "what is ")) initialWorld in
  let first := Message (at_ 0 1000)
                 (batchMessage (Some (utf16 "up")) (Some (utf16 "Not")) false) in
  let second := Message (busyAt 0 1001) (outputDeltaMessage (utf16 " much")) in
  let audio := Message (at_ 0 1003) (audioMessage (utf16 "AAAAAAAA")) in
  let third := Message (at_ 0 1004)
                 (batchMessage (Some (utf16 " ")) (Some (utf16 ".")) false) in
  (exists flushedAt i ts,
     transcript (session' [first; second; Render 1005] w)
     = [userMessage flushedAt (utf16 "what is up");
        mkTranscriptMessage i assistant (utf16 "Not much") true ts])
  /\ (exists flushedAt i ts,
        transcript
          (session' [first; second; Render 1002; audio; third; Render 1005] w)
        = [userMessage flushedAt (utf16 "what is up");
           mkTranscriptMessage i assistant (utf16 "Not much.") true ts]).
Proof.
  cbv zeta.
  pose proof (output_deltas_collapse_into_one_partial 16000 24000
                demoDecodeBase64 demoDecodeAudioData demoStopThrows
                demoCloseThrows
                (exec (write set_currentInputTransRef (utf16 "what is "))
                   initialWorld)
                (at_ 0 1000)
                (batchMessage (Some (utf16 "up")) (Some (utf16 "Not")) false)
                [Message (busyAt 0 1001) (outputDeltaMessage (utf16 " much"));
                 Render 1002;
                 Message (at_ 0 1003) (audioMessage (utf16 "AAAAAAAA"));
                 Message (at_ 0 1004)
                   (batchMessage (Some (utf16 " ")) (Some (utf16 ".")) false)]
                eq_refl eq_refl eq_refl eq_refl eq_refl (fun _ => eq_refl))
    as Hrun.
  cbv zeta in Hrun; split.
  - destruct (Hrun 1%nat 1005%Z) as (us & i & ts & Hlog & Hus & _).
    unfold userLine in Hus; change (blank _) with false in Hus.
    cbv iota in Hus; destruct Hus as [flushedAt ->].
    exists flushedAt, i, ts.
    cbn [firstn app] in Hlog; rewrite Hlog; reflexivity.
  - destruct (Hrun 4%nat 1005%Z) as (us & i & ts & Hlog & Hus & _).
    unfold userLine in Hus; change (blank _) with false in Hus.
    cbv iota in Hus; destruct Hus as [flushedAt ->].
    exists flushedAt, i, ts.
    cbn [firstn app] in Hlog; rewrite Hlog; reflexivity.
Defined.



(** C5 on the hook with two units in flight, one of whose sources throws on
    [stop]: [cleanup] returns, and a second run returns the same world. *)
Lemma cleanup_witness :
  let w' := exec (cleanup demoStopThrows) playingWorld in
  cleanup demoStopThrows playingWorld = (Ok tt, w')
  /\ connectionState w' = DISCONNECTED
  /\ cleanup demoStopThrows w' = (Ok tt, w').
Proof.
  cbv zeta.
  destruct (cleanup_idempotent_and_partial_init_safe demoStopThrows
              playingWorld) as (Hret & Hstate & H).
  cbv zeta in H.
  destruct H as (_ & _ & _ & _ & _ & _ & _ & _ & _ & Hagain & _).
  split; [exact Hret|]. split; [exact Hstate|exact Hagain].
Defined.


(** The runs above, computed. *)
Example connect_microphone_denied :
  let w' := exec (connect' (Some (utf16 "key")) platformDeniesMicrophone)
              initialWorld in
  error w'
  = Some (utf16 "Microphone access denied. Please allow permissions in your browser settings.")
  /\ connectionState w' = DISCONNECTED
  /\ trace w'
     = [NewAudioContext 0 16000; NewAudioContext 1 24000; CreateNode 1 2;
        CreateNode 1 3; CreateNode 1 4; CreateNode 0 5; GetUserMedia;
        ContextClose 0; ContextClose 1].
Proof. cbv zeta; split; [|split]; vm_compute; reflexivity. Qed.

Example connect_transport_fails :
  let w' := exec (connect' (Some (utf16 "key")) platformTransportFails)
              initialWorld in
  error w' = Some INIT_FAILED
  /\ connectionState w' = DISCONNECTED
  /\ trace w'
     = [NewAudioContext 0 16000; NewAudioContext 1 24000; CreateNode 1 2;
        CreateNode 1 3; CreateNode 1 4; CreateNode 0 5; GetUserMedia;
        LiveConnect 7; StopTracks 6; ContextClose 0; ContextClose 1].
Proof. cbv zeta; split; [|split]; vm_compute; reflexivity. Qed.

Example playing_then_interrupted :
  unitsOf (trace playingWorld) = [(1 # 2, 3 # 24000); (24006 # 48000, 6 # 24000)]
  /\ activeSourcesRef playingWorld = [10; 11]%nat
  /\ trace (deliver' (at_ (1 # 2) 1002, interruptedWithPayload) playingWorld)
     = trace playingWorld ++ [SourceStop 10; SourceStop 11].
Proof. split; [|split]; vm_compute; reflexivity. Qed.

(** The turns of the witnesses above, computed: the log that each run
    ends with. *)
Example turns_computed :
  transcript
    (session'
       [Message (at_ 0 1000) (inputDeltaMessage (utf16 "hel"));
        Message (at_ 0 1001)
          (batchMessage (Some (utf16 "lo")) (Some (utf16 "Hi")) false);
        Render 1002;
        Message (at_ 0 1003) (batchMessage None (Some (utf16 " there")) true);
        Render 1004]
       initialWorld)
  = [userMessage 1001 (utf16 "hello");
     mkTranscriptMessage (utf16 "1002") assistant (utf16 "Hi there") false
       1002]
  /\ transcript
       (session'
          [Message (at_ 0 1000) (outputDeltaMessage (utf16 "Hel"));
           Message (at_ 0 1001) (outputDeltaMessage (utf16 "lo"));
           Render 1002;
           Message (at_ 0 1003) turnCompleteMessage;
           Render 1004]
          initialWorld)
     = [mkTranscriptMessage (utf16 "1000") assistant (utf16 "Hello") false
          1000]
  /\ transcript
       (session'
          [Message (busyAt 0 1000) (outputDeltaMessage (utf16 "Hel"));
           Render 1001;
           Message (at_ 0 1002) (outputDeltaMessage (utf16 "lo"));
           Message (at_ 0 1003) turnCompleteMessage;
           Render 1004]
          initialWorld)
     = [mkTranscriptMessage (utf16 "1001") assistant (utf16 "Hello") false
          1001].
Proof. split; [|split]; vm_compute; reflexivity. Qed.

(** A teardown or an interruption between the dispatch of an updater and
    the render that runs it: the updater of the output delta "lo", which
    waits in the queue, runs after [cleanup] or the interruption branch has
    emptied the assistant accumulator, and the entry that showed "Hel" is
    shown with an empty text. *)
Example teardown_before_render :
  let w := session'
             [Message (at_ 0 1000) (outputDeltaMessage (utf16 "Hel"));
              Render 1001;
              Message (busyAt 0 1002) (outputDeltaMessage (utf16 "lo"))]
             connectedWorld in
  transcript w = [assistantPartial 1000 (utf16 "Hel")]
  /\ rendered 1003 w = [assistantPartial 1000 (utf16 "Hello")]
  /\ rendered 1003 (exec (disconnect demoStopThrows demoCloseThrows true) w)
     = [assistantPartial 1000 []]
  /\ rendered 1003 (deliver' (at_ 0 1002, interruptedMessage) w)
     = [assistantPartial 1000 []].
Proof. cbv zeta; split; [|split; [|split]]; vm_compute; reflexivity. Qed.

(** A whole turn in one message (an input delta, an output delta and the
    turn-complete flag): the updater of the assistant entry runs after the
    handler has emptied the assistant accumulator, so the entry is shown
    with an empty text, whether React runs the flush of the user text at
    once or at the render. *)
Example batched_turn_shows_empty_reply :
  let message := batchMessage (Some (utf16 "hello")) (Some (utf16 "Hi")) true in
  transcript (session' [Message (at_ 0 1000) message; Render 1001] initialWorld)
  = [userMessage 1000 (utf16 "hello");
     mkTranscriptMessage (utf16 "1001") assistant [] false 1001]
  /\ transcript
       (session' [Message (busyAt 0 1000) message; Render 1001] initialWorld)
     = [userMessage 1001 (utf16 "hello");
        mkTranscriptMessage (utf16 "1001") assistant [] false 1001].
Proof. cbv zeta; split; vm_compute; reflexivity. Qed.

(** ** Counterexamples to the specification as written *)


(** C6 as stated fails.  An input delta between two output deltas of one
    turn (no interruption, no turn-complete) splits the partial: after "He"
    (out), a render, "x" (in), "llo" (out) and a render the log has two
    partial assistant entries, around the user entry.  And after an
    interruption the partial of the interrupted utterance is still at the
    end of the log: the deltas of the next turn are written into that
    entry, and the log gains none. *)
Lemma output_deltas_split_or_reuse_partial :
  transcript
    (session'
       [Message (at_ 0 1000) (outputDeltaMessage (utf16 "He"));
        Render 1001;
        Message (at_ 0 1002) (inputDeltaMessage (utf16 "x"));
        Message (at_ 0 1003) (outputDeltaMessage (utf16 "llo"));
        Render 1004]
       initialWorld)
  = [assistantPartial 1000 (utf16 "He"); userMessage 1003 (utf16 "x");
     assistantPartial 1004 (utf16 "Hello")]
  /\ (let w := session'
                 [Message (at_ 0 1000) (outputDeltaMessage (utf16 "Hel"));
                  Render 1001;
                  Message (at_ 0 1002) interruptedMessage;
                  Render 1003]
                 initialWorld in
      let w' := session'
                  [Message (at_ 0 1004) (outputDeltaMessage (utf16 "So"));
                   Render 1005;
                   Message (at_ 0 1006) (outputDeltaMessage (utf16 "rry"));
                   Render 1007] w in
      currentOutputTransRef w = []
      /\ transcriptQueue w = []
      /\ transcript w = [assistantPartial 1000 (utf16 "Hel")]
      /\ transcript w' = [assistantPartial 1000 (utf16 "Sorry")]
      /\ List.length (transcript w') = List.length (transcript w)).
Proof.
  cbv zeta; split; [|split; [|split; [|split; [|split]]]];
    vm_compute; reflexivity.
Qed.


(** ** More of the hook on concrete inputs *)

(** X1 on the initial hook. *)
Lemma connect_acquires_resources_witness :
  connectionState (exec (connect' (Some (utf16 "key")) platformOk) initialWorld)
  = CONNECTING
  /\ streamRef (exec (connect' (Some (utf16 "key")) platformOk) initialWorld)
     = Some 6%nat.
Proof.
  destruct (connect_acquires_resources 16000 24000 demoStopThrows
              (Some (utf16 "key")) platformOk initialWorld eq_refl eq_refl)
    as (_ & Hstate & _ & _ & _ & Hstream & _).
  split; [exact Hstate|exact Hstream].
Defined.

(** X2 when the output context cannot be built: the input context, object
    0, is closed again. *)
Lemma connect_without_audio_context_witness :
  let p := mkPlatform None (Some (newError "not supported")) None None in
  error (exec (connect' (Some (utf16 "key")) p) initialWorld)
  = Some (utf16
      "Could not initialize AudioContext. Your browser may not support it.")
  /\ trace (exec (connect' (Some (utf16 "key")) p) initialWorld)
     = [NewAudioContext 0 16000; ContextClose 0].
Proof.
  cbv zeta.
  destruct (connect_without_audio_context 16000 24000 demoStopThrows
              (Some (utf16 "key"))
              (mkPlatform None (Some (newError "not supported")) None None)
              initialWorld (newError "not supported") eq_refl
              (or_intror (conj eq_refl eq_refl)))
    as (Herr & _ & _ & _ & _ & _ & new & Htr & _ & _ & Hnew).
  split; [exact Herr|].
  rewrite Htr, (Hnew eq_refl); reflexivity.
Defined.

(** X3 when the permission is denied. *)
Lemma connect_without_microphone_witness :
  error (exec (connect' (Some (utf16 "key")) platformDeniesMicrophone)
           initialWorld)
  = Some (utf16 "Microphone access denied. Please allow permissions in your browser settings.").
Proof.
  destruct (connect_without_microphone 16000 24000 demoStopThrows
              (Some (utf16 "key")) platformDeniesMicrophone initialWorld
              (mkExn (utf16 "NotAllowedError") (utf16 "Permission denied"))
              eq_refl eq_refl eq_refl eq_refl)
    as (_ & _ & Hdenied & _).
  exact (Hdenied (or_introl eq_refl)).
Defined.

(** X5 for a cancellation, on a hook that shows an earlier error. *)
Lemma transport_error_is_classified_witness :
  let w := set_error (Some (utf16 "earlier")) connectedWorld in
  let err := mkExn (utf16 "Error") (utf16 "Request cancelled by user") in
  error (exec (onerror demoStopThrows err) w) = Some (utf16 "earlier").
Proof.
  cbv zeta.
  destruct (transport_error_is_classified demoStopThrows
              (mkExn (utf16 "Error") (utf16 "Request cancelled by user"))
              (set_error (Some (utf16 "earlier")) connectedWorld))
    as (_ & _ & _ & _ & _ & _ & Hcancelled & _).
  rewrite (Hcancelled (utf16 "Request ") (utf16 " by user") eq_refl).
  reflexivity.
Defined.

(** X7 on the initial hook, with one unit played to its end, a frame of
    the meter and a message of text while the session is live. *)
Lemma toggle_round_trip_witness :
  let key := Some (utf16 "key") in
  let live := [Message (at_ (1 # 2) 1000) (audioMessage (utf16 "AAAAAAAA"));
               Frame [12%N; 200%N] [0%N; 0%N];
               Ended 10;
               Message (at_ 1 1001) (outputDeltaMessage (utf16 "Hi"))] in
  let w4 :=
    exec (toggle' key platformOk true)
      (session' live
         (exec (onopen false)
            (exec (toggle' key platformOk false) initialWorld))) in
  connectionState w4 = DISCONNECTED
  /\ streamRef w4 = None
  /\ sessionRef w4 = None.
Proof.
  cbv zeta.
  destruct (toggle_round_trip 16000 24000 demoDecodeBase64
              demoDecodeAudioData demoStopThrows demoCloseThrows
              (Some (utf16 "key")) platformOk platformOk false true false
              [Message (at_ (1 # 2) 1000) (audioMessage (utf16 "AAAAAAAA"));
               Frame [12%N; 200%N] [0%N; 0%N];
               Ended 10;
               Message (at_ 1 1001) (outputDeltaMessage (utf16 "Hi"))]
              initialWorld eq_refl eq_refl
              ltac:(discriminate) eq_refl)
    as (_ & _ & _ & Hstate & _ & Hsession & Hstream & _).
  split; [exact Hstate|split; [exact Hstream|exact Hsession]].
Defined.

(** X8 on a session in which two units are scheduled, the first ends, and
    an interruption stops the second. *)
Lemma in_flight_set_is_exact_witness :
  let cbs := [Connect (Some (utf16 "key")) platformOk;
              Open false;
              Message (at_ (1 # 2) 1000) (audioMessage (utf16 "AAAAAAAA"));
              Message (at_ (1 # 2) 1001) (audioMessage (utf16 "AAAAAAAA"));
              Ended 10;
              Message (at_ 1 1002) interruptedMessage] in
  NoDup (activeSourcesRef (session' cbs initialWorld))
  /\ NoDup (startedIn (trace (session' cbs initialWorld))).
Proof.
  cbv zeta.
  destruct (in_flight_set_is_exact 16000 24000 demoDecodeBase64
              demoDecodeAudioData demoStopThrows demoCloseThrows
              [Connect (Some (utf16 "key")) platformOk;
               Open false;
               Message (at_ (1 # 2) 1000) (audioMessage (utf16 "AAAAAAAA"));
               Message (at_ (1 # 2) 1001) (audioMessage (utf16 "AAAAAAAA"));
               Ended 10;
               Message (at_ 1 1002) interruptedMessage])
    as (Hnd & _ & _ & _ & Hstarted).
  split; [exact Hnd|exact Hstarted].
Defined.

(** X9 when the transport closes while a unit is in flight. *)
Lemma teardown_silences_playback_witness :
  let cbs := [Connect (Some (utf16 "key")) platformOk;
              Open false;
              Message (at_ (1 # 2) 1000) (audioMessage (utf16 "AAAAAAAA"))] in
  activeSourcesRef (session' (cbs ++ [Close]) initialWorld) = [].
Proof.
  cbv zeta.
  exact (proj1 (teardown_silences_playback 16000 24000 demoDecodeBase64
                  demoDecodeAudioData demoStopThrows demoCloseThrows
                  [Connect (Some (utf16 "key")) platformOk;
                   Open false;
                   Message (at_ (1 # 2) 1000)
                     (audioMessage (utf16 "AAAAAAAA"))]
                  Close (or_introl eq_refl))).
Defined.

(** A message with a payload that is not base64 (three characters), an
    output delta and the turn-complete flag. *)
Local Abbreviation undecodable :=
  {| serverContent := Some
       {| interrupted := None; turnComplete := Some true;
          modelTurn := Some {| parts := Some [ {| inlineData := Some {| data := Some (utf16 "AAA") |} |} ] |};
          inputTranscription := None;
          outputTranscription := Some {| transcriptionText := Some (utf16 "lost") |} |} |}.

(** X10 on the connected hook. *)
Lemma undecodable_audio_drops_message_witness :
  view (deliver' (at_ 0 1000, undecodable) connectedWorld)
  = view connectedWorld
  /\ error (deliver' (at_ 0 1000, undecodable) connectedWorld)
     = error connectedWorld.
Proof.
  destruct (undecodable_audio_drops_message 24000 demoDecodeBase64
              demoDecodeAudioData demoStopThrows (at_ 0 1000) undecodable
              connectedWorld eq_refl ltac:(vm_compute; reflexivity))
    as (_ & _ & _ & Hview & _ & _ & _ & Herror).
  split; [exact Hview|exact Herror].
Defined.

(** X11 on the hook before its first [connect]. *)
Lemma late_messages_reach_no_audio_witness :
  let ms := [(at_ 0 1000, audioMessage (utf16 "AAAAAAAA"));
             (at_ 0 1001, interruptedMessage);
             (at_ 0 1002, outputDeltaMessage (utf16 "Hi"))] in
  trace (deliverAll' ms initialWorld) = []
  /\ activeSourcesRef (deliverAll' ms initialWorld) = [].
Proof.
  cbv zeta.
  destruct (late_messages_reach_no_audio 24000 demoDecodeBase64
              demoDecodeAudioData demoStopThrows
              [(at_ 0 1000, audioMessage (utf16 "AAAAAAAA"));
               (at_ 0 1001, interruptedMessage);
               (at_ 0 1002, outputDeltaMessage (utf16 "Hi"))]
              initialWorld eq_refl eq_refl)
    as (Htrace & _ & Hactive & _).
  split; [exact Htrace|exact Hactive].
Defined.

(** The hook after one assistant line, finalized and rendered. *)
Local Abbreviation spokenWorld :=
  (session'
     [Message (at_ 0 1000) (outputDeltaMessage (utf16 "Hi"));
      Render 1001;
      Message (at_ 0 1002) turnCompleteMessage;
      Render 1003]
     connectedWorld).

(** X12 over a teardown and a reconnect. *)
Lemma log_and_error_writers_witness :
  let cbs := [Close; Connect (Some (utf16 "key")) platformOk; Open false] in
  transcript (session' cbs spokenWorld) = transcript spokenWorld.
Proof.
  cbv zeta.
  exact (proj1 (proj1 (log_and_error_writers 16000 24000 demoDecodeBase64
                         demoDecodeAudioData demoStopThrows demoCloseThrows
                         [Close; Connect (Some (utf16 "key")) platformOk;
                          Open false]
                         spokenWorld) eq_refl)).
Defined.

(** X13 for the finalized line, over the next turn and a teardown. *)
Lemma transcript_entries_settle_witness :
  let cbs := [Message (at_ 0 1004) (inputDeltaMessage (utf16 "why"));
              Message (at_ 0 1005) (outputDeltaMessage (utf16 "Because"));
              Render 1006;
              Close] in
  let m := mkTranscriptMessage (numberToString 1000) assistant (utf16 "Hi")
             false 1000 in
  exists m',
    nth_error (transcript (session' cbs spokenWorld)) 0 = Some m'
    /\ m' = m.
Proof.
  cbv zeta.
  destruct (transcript_entries_settle 16000 24000 demoDecodeBase64
              demoDecodeAudioData demoStopThrows demoCloseThrows
              [Message (at_ 0 1004) (inputDeltaMessage (utf16 "why"));
               Message (at_ 0 1005) (outputDeltaMessage (utf16 "Because"));
               Render 1006;
               Close]
              spokenWorld 0
              (mkTranscriptMessage (numberToString 1000) assistant
                 (utf16 "Hi") false 1000)
              ltac:(vm_compute; reflexivity)
              ltac:(vm_compute; reflexivity))
    as (m' & Hnth & _ & _ & _ & Hsame).
  exists m'; split; [exact Hnth|].
  apply Hsame; right; left; reflexivity.
Defined.

(** X14 and X15 on the initial hook. *)
Lemma user_entries_are_whole_witness :
  let cbs := [Message (at_ 0 1000) (inputDeltaMessage (utf16 " "));
              Message (at_ 0 1001) (inputDeltaMessage (utf16 "hello"));
              Message (busyAt 0 1002) turnCompleteMessage;
              Render 1003] in
  Forall wellFormed (transcript (session' cbs initialWorld)).
Proof.
  cbv zeta.
  exact (user_entries_are_whole 16000 24000 demoDecodeBase64
           demoDecodeAudioData demoStopThrows demoCloseThrows
           [Message (at_ 0 1000) (inputDeltaMessage (utf16 " "));
            Message (at_ 0 1001) (inputDeltaMessage (utf16 "hello"));
            Message (busyAt 0 1002) turnCompleteMessage;
            Render 1003]
           initialWorld eq_refl (Forall_nil _)).
Defined.

Lemma transcript_is_chronological_witness :
  let cbs := [Message (at_ 0 1000) (inputDeltaMessage (utf16 "hello"));
              Message (at_ 0 1000) (outputDeltaMessage (utf16 "Hi"));
              Frame [1%N] [2%N];
              Render 1001;
              Message (at_ 0 1002) turnCompleteMessage;
              Render 1002] in
  StronglySorted Z.le (map timestamp (transcript (session' cbs initialWorld))).
Proof.
  cbv zeta.
  refine (transcript_is_chronological 16000 24000 demoDecodeBase64
            demoDecodeAudioData demoStopThrows demoCloseThrows
            [Message (at_ 0 1000) (inputDeltaMessage (utf16 "hello"));
             Message (at_ 0 1000) (outputDeltaMessage (utf16 "Hi"));
             Frame [1%N] [2%N];
             Render 1001;
             Message (at_ 0 1002) turnCompleteMessage;
             Render 1002]
            initialWorld 0 eq_refl _ (SSorted_nil _) (Forall_nil _)).
  cbn; lia.
Defined.

(** X16 on the connected hook. *)
Lemma level_meter_bounds_witness :
  (volume (exec (updateVisualizer [12%N; 200%N] [0%N; 0%N]) connectedWorld)
   <= 255)%Q.
Proof.
  destruct (level_meter_bounds [12%N; 200%N] [0%N; 0%N] connectedWorld
              ltac:(discriminate) ltac:(discriminate)
              ltac:(repeat constructor; discriminate)
              ltac:(repeat constructor; discriminate))
    as (_ & _ & _ & Hle & _).
  exact Hle.
Defined.

(** X17 on the initial hook: a blank delta, a word batched with an output
    delta, a render, an interruption, another word and a turn-complete. *)
Lemma user_words_are_kept_witness :
  let cbs := [Message (at_ 0 1000) (inputDeltaMessage (utf16 " "));
              Message (at_ 0 1001)
                (batchMessage (Some (utf16 "hello")) (Some (utf16 "Hi")) false);
              Render 1002;
              Message (at_ 0 1003) interruptedMessage;
              Message (busyAt 0 1004) (inputDeltaMessage (utf16 "wait"));
              Message (at_ 0 1005) turnCompleteMessage] in
  let w' := session' cbs initialWorld in
  userText (rendered 1006 w') ++ currentInputTransRef w'
  = utf16 " hellowait".
Proof.
  cbv zeta.
  rewrite (user_words_are_kept 16000 24000 demoDecodeBase64
             demoDecodeAudioData demoStopThrows demoCloseThrows
             [Message (at_ 0 1000) (inputDeltaMessage (utf16 " "));
              Message (at_ 0 1001)
                (batchMessage (Some (utf16 "hello")) (Some (utf16 "Hi")) false);
              Render 1002;
              Message (at_ 0 1003) interruptedMessage;
              Message (busyAt 0 1004) (inputDeltaMessage (utf16 "wait"));
              Message (at_ 0 1005) turnCompleteMessage]
             initialWorld 0 1006 eq_refl).
  reflexivity.
Defined.

(** ** The smart tools: splitting and joining *)

Import SmartTools.

Lemma split_nonempty (sep : N) (s : JSString) : split sep s <> [].
Proof.
  destruct s as [|c r]; cbn [split]; [discriminate|].
  destruct (c =? sep)%N; [discriminate|].
  destruct (split sep r); discriminate.
Qed.

(** A string without the separator is one piece. *)
Lemma split_none (sep : N) (s : JSString) :
  ~ In sep s -> split sep s = [s].
Proof.
  induction s as [|c r IH]; intros Hnin; cbn [split]; [reflexivity|].
  assert (Hc : (c =? sep)%N = false)
    by (apply N.eqb_neq; intros ->; apply Hnin; left; reflexivity).
  rewrite Hc, IH; [reflexivity|].
  intros H; apply Hnin; right; exact H.
Qed.

Lemma split_app (sep : N) (p s : JSString) :
  ~ In sep p -> split sep (p ++ sep :: s) = p :: split sep s.
Proof.
  induction p as [|c r IH]; intros Hnin; cbn [app split].
  - rewrite N.eqb_refl; reflexivity.
  - assert (Hc : (c =? sep)%N = false)
      by (apply N.eqb_neq; intros ->; apply Hnin; left; reflexivity).
    rewrite Hc, IH; [reflexivity|].
    intros H; apply Hnin; right; exact H.
Qed.

(** Joining pieces that do not hold the separator and splitting again
    gives the pieces back. *)
Lemma split_join (sep : N) (pieces : list JSString) :
  pieces <> [] ->
  Forall (fun p => ~ In sep p) pieces ->
  split sep (join [sep] pieces) = pieces.
Proof.
  induction pieces as [|p rest IH]; intros Hne Hall; [contradiction|].
  inversion Hall as [|p' rest' Hp Hrest]; subst.
  destruct rest as [|q rest]; cbn [join].
  - apply split_none; exact Hp.
  - cbn [app]; rewrite (split_app sep p _ Hp).
    f_equal; apply IH; [discriminate|exact Hrest].
Qed.

(** Splitting and joining again gives the string back. *)
Lemma join_split (sep : N) (s : JSString) : join [sep] (split sep s) = s.
Proof.
  induction s as [|c r IH]; [reflexivity|].
  cbn [split].
  destruct (c =? sep)%N eqn:Hc.
  - apply N.eqb_eq in Hc; subst c.
    cbn [join]; destruct (split sep r) eqn:E;
      [exfalso; exact (split_nonempty sep r E)|].
    rewrite IH; reflexivity.
  - destruct (split sep r) as [|piece pieces] eqn:E;
      [exfalso; exact (split_nonempty sep r E)|].
    cbn [join] in *; destruct pieces; rewrite <- IH; reflexivity.
Qed.

Lemma join_app (sep : JSString) (a b : list JSString) :
  a <> [] -> b <> [] ->
  join sep (a ++ b) = join sep a ++ sep ++ join sep b.
Proof.
  induction a as [|x a IH]; intros Ha Hb; [contradiction|].
  destruct a as [|y a].
  - cbn [app join]; destruct b; [contradiction|reflexivity].
  - change ((x :: y :: a) ++ b) with (x :: (y :: a) ++ b).
    cbn [join app] in *.
    rewrite IH by (assumption || discriminate).
    cbn [app]; rewrite <- !app_assoc; reflexivity.
Qed.

(** ** The smart tools: trimming *)

Lemma trimStart_length (s : JSString) :
  (List.length (trimStart s) <= List.length s)%nat.
Proof.
  induction s as [|c r IH]; cbn [trimStart List.length]; [lia|].
  destruct (isWhiteSpace c); cbn [List.length]; lia.
Qed.

Lemma trimStart_same_length (s : JSString) :
  List.length (trimStart s) = List.length s -> trimStart s = s.
Proof.
  destruct s as [|c r]; cbn [trimStart]; [reflexivity|].
  destruct (isWhiteSpace c); [|reflexivity].
  pose proof (trimStart_length r); cbn [List.length]; lia.
Qed.

Lemma trimStart_head (c : N) (s : JSString) :
  isWhiteSpace c = false -> trimStart (c :: s) = c :: s.
Proof. intros H; cbn [trimStart]; rewrite H; reflexivity. Qed.

(** A string is trimmed exactly when neither end can be stripped. *)
Lemma trim_fixed (s : JSString) :
  trim s = s <-> trimStart s = s /\ trimStart (rev s) = rev s.
Proof.
  unfold trim, trimEnd; split.
  - intros H.
    assert (Hlen : List.length (trimStart (rev (trimStart s)))
                   = List.length s)
      by (rewrite <- (length_rev (trimStart _)), H; reflexivity).
    pose proof (trimStart_length (rev (trimStart s))) as H1.
    pose proof (trimStart_length s) as H2.
    rewrite length_rev in H1.
    assert (Hs : trimStart s = s) by (apply trimStart_same_length; lia).
    split; [exact Hs|].
    rewrite Hs in Hlen.
    apply trimStart_same_length; rewrite length_rev; exact Hlen.
  - intros [H1 H2]; rewrite H1, H2; apply rev_involutive.
Qed.

(** A string that starts and ends with a code unit that is not white space
    is trimmed. *)
Lemma trim_edges (x y : N) (s : JSString) :
  isWhiteSpace x = false ->
  isWhiteSpace y = false ->
  trim (x :: s ++ [y]) = x :: s ++ [y].
Proof.
  intros Hx Hy; apply trim_fixed; split.
  - apply trimStart_head; exact Hx.
  - change (x :: s ++ [y]) with ((x :: s) ++ [y]).
    rewrite rev_app_distr; apply trimStart_head; exact Hy.
Qed.

Lemma trimStart_fixed_head (s : JSString) :
  trimStart s = s ->
  match s with
  | [] => True
  | c :: _ => isWhiteSpace c = false
  end.
Proof.
  destruct s as [|c r]; [trivial|].
  cbn [trimStart]; destruct (isWhiteSpace c); [|reflexivity].
  intros H; pose proof (trimStart_length r) as Hlen.
  rewrite H in Hlen; cbn [List.length] in Hlen; lia.
Qed.

(** White space at the two ends of a trimmed string is stripped. *)
Lemma trim_padded (pre post : JSString) (c : JSString) :
  blank pre = true ->
  blank post = true ->
  trim c = c ->
  trim (pre ++ c ++ post) = c.
Proof.
  intros Hpre Hpost Hc; apply trim_fixed in Hc as [H1 H2].
  assert (Hstart : forall t, trimStart (pre ++ t) = trimStart t).
  { intros t; induction pre as [|x pre IH]; [reflexivity|].
    cbn [blank forallb] in Hpre; apply andb_prop in Hpre as [Hx Hpre].
    cbn [app trimStart]; rewrite Hx; exact (IH Hpre). }
  assert (Hend : forall t, trimStart (rev post ++ t) = trimStart t).
  { intros t; rewrite <- blank_rev in Hpost.
    induction (rev post) as [|x l IH]; [reflexivity|].
    cbn [blank forallb] in Hpost; apply andb_prop in Hpost as [Hx Hl].
    cbn [app trimStart]; rewrite Hx; exact (IH Hl). }
  unfold trim, trimEnd; rewrite Hstart.
  destruct c as [|x c].
  - cbn [app]; rewrite (trimStart_blank post Hpost); reflexivity.
  - pose proof (trimStart_fixed_head _ H1) as Hx; cbn beta iota in Hx.
    cbn [app]; rewrite (trimStart_head x _ Hx).
    change (x :: c ++ post) with ((x :: c) ++ post).
    rewrite rev_app_distr, Hend, H2; apply rev_involutive.
Qed.

(** ** The smart tools: the table editor *)

Lemma join_cons (sep : JSString) (x y : JSString) (l : list JSString) :
  join sep (x :: y :: l) = x ++ sep ++ join sep (y :: l).
Proof. reflexivity. Qed.

(** A table line, cut at its bars. *)
Lemma tableLine_pieces (cells : list JSString) :
  cells <> [] ->
  tableLine cells = join [BAR] ([] :: map padded cells ++ [[]]).
Proof.
  intros Hne; unfold tableLine.
  change (utf16 "| ") with [BAR; 32%N].
  change (utf16 " | ") with [32%N; BAR; 32%N].
  change (utf16 " |") with [32%N; BAR].
  assert (H : join [BAR] (map padded cells ++ [[]])
              = 32%N :: join [32%N; BAR; 32%N] cells ++ [32%N; BAR]).
  { induction cells as [|c cells IH]; [contradiction|].
    destruct cells as [|c' cells].
    - cbn [map app join padded]; rewrite <- app_assoc; reflexivity.
    - specialize (IH ltac:(discriminate)).
      cbn [map app] in *.
      rewrite join_cons, IH, join_cons.
      unfold padded; cbn [app]; rewrite <- !app_assoc; reflexivity. }
  destruct cells as [|c cells]; [contradiction|].
  cbn [map app] in *; rewrite join_cons, H; reflexivity.
Qed.

Lemma padded_plain (c : JSString) :
  plainCell c ->
  ~ In BAR (padded c) /\ ~ In LF (padded c) /\ trim (padded c) = c.
Proof.
  intros (Htrim & Hbar & Hlf); unfold padded.
  split; [|split].
  - cbn [In]; rewrite in_app_iff; cbn [In].
    intros [H|[H|[H|[]]]]; try discriminate; contradiction.
  - cbn [In]; rewrite in_app_iff; cbn [In].
    intros [H|[H|[H|[]]]]; try discriminate; contradiction.
  - exact (trim_padded [32%N] [32%N] c eq_refl eq_refl Htrim).
Qed.

(** The filter of [splitRow] on the cells of a table line: it drops the
    empty piece before the first bar and the empty piece after the last
    one, and keeps everything in between. *)
Lemma filterFrom_inner (f : JSString -> nat -> bool) (i : nat)
    (row : list JSString) :
  (forall c j, (i <= j < i + List.length row)%nat -> f c j = true) ->
  f [] (i + List.length row)%nat = false ->
  filterFrom f i (row ++ [[]]) = row.
Proof.
  revert i; induction row as [|c row IH]; intros i Hkeep Hdrop.
  - cbn [app filterFrom List.length] in *.
    rewrite Nat.add_0_r in Hdrop; rewrite Hdrop; reflexivity.
  - cbn [app filterFrom List.length] in *.
    rewrite Hkeep by lia; f_equal; apply IH.
    + intros c' j Hj; apply Hkeep; lia.
    + rewrite <- Hdrop; f_equal; lia.
Qed.

(** Reading a table line gives back the row it was written from. *)
Lemma splitRow_tableLine (row : list JSString) :
  plainRow row -> splitRow (tableLine row) = row.
Proof.
  intros [Hne Hplain]; unfold splitRow.
  rewrite (tableLine_pieces row Hne).
  rewrite split_join; [|discriminate|].
  - assert (Hmap : map trim ([] :: map padded row ++ [[]])
                   = [] :: row ++ [[]]).
    { cbn [map]; rewrite map_app, map_map; cbn [map]; f_equal; f_equal.
      clear Hne; induction Hplain as [|c row Hc Hrow IH]; [reflexivity|].
      cbn [map]; rewrite IH.
      destruct (padded_plain c Hc) as (_ & _ & ->); reflexivity. }
    rewrite Hmap; cbn [filterFrom Nat.eqb truthy negb andb].
    apply filterFrom_inner.
    + intros c j Hj.
      assert (Hlen : (@List.length JSString ([] :: row ++ [[]]) - 1
                      = 1 + List.length row)%nat).
      { cbn [List.length]; rewrite length_app; cbn [List.length]; lia. }
      rewrite Hlen.
      assert (H0 : (j =? 0)%nat = false) by (apply Nat.eqb_neq; lia).
      assert (H1 : (j =? 1 + List.length row)%nat = false)
        by (apply Nat.eqb_neq; lia).
      rewrite H0, H1; reflexivity.
    + assert (Hlen : (@List.length JSString ([] :: row ++ [[]]) - 1
                      = 1 + List.length row)%nat).
      { cbn [List.length]; rewrite length_app; cbn [List.length]; lia. }
      rewrite Hlen, Nat.eqb_refl; reflexivity.
  - constructor; [intros []|].
    apply Forall_app; split; [|constructor; [intros []|constructor]].
    apply Forall_map.
    eapply Forall_impl; [|exact Hplain].
    intros c Hc; exact (proj1 (padded_plain c Hc)).
Qed.

(** A table line starts and ends with a bar. *)
Lemma tableLine_shape (cells : list JSString) :
  exists s, tableLine cells = BAR :: s ++ [BAR].
Proof.
  exists (32%N :: join (utf16 " | ") cells ++ [32%N]).
  unfold tableLine.
  change (utf16 "| ") with [BAR; 32%N].
  change (utf16 " |") with [32%N; BAR].
  cbn [app]; rewrite <- app_assoc; reflexivity.
Qed.

Lemma join_shape (ls : list JSString) :
  ls <> [] ->
  Forall (fun l => exists s, l = BAR :: s ++ [BAR]) ls ->
  exists s, join [LF] ls = BAR :: s ++ [BAR].
Proof.
  induction ls as [|l ls IH]; intros Hne Hall; [contradiction|].
  inversion Hall as [|l' ls' [s Hl] Hls]; subst.
  destruct ls as [|l' ls]; [exists s; reflexivity|].
  destruct (IH ltac:(discriminate) Hls) as [s' Hs'].
  rewrite join_cons, Hs'.
  exists (s ++ [BAR] ++ [LF] ++ BAR :: s').
  cbn [app]; rewrite <- !app_assoc; reflexivity.
Qed.

Lemma shaped_trim (l : JSString) :
  (exists s, l = BAR :: s ++ [BAR]) ->
  trim l = l /\ (0 <? List.length (trim l))%nat = true.
Proof.
  intros [s ->].
  rewrite (trim_edges BAR BAR s eq_refl eq_refl); split; reflexivity.
Qed.

Lemma In_join (x : N) (sep : JSString) (ls : list JSString) :
  In x (join sep ls) -> In x sep \/ exists l, In l ls /\ In x l.
Proof.
  induction ls as [|l ls IH]; [intros []|].
  destruct ls as [|l' ls].
  - cbn [join]; intros H; right; exists l; split; [left; reflexivity|exact H].
  - rewrite join_cons, !in_app_iff; intros [H|[H|H]].
    + right; exists l; split; [left; reflexivity|exact H].
    + left; exact H.
    + destruct (IH H) as [H'|(l0 & Hl0 & Hx)]; [left; exact H'|].
      right; exists l0; split; [right; exact Hl0|exact Hx].
Qed.

Lemma tableLine_no_LF (cells : list JSString) :
  Forall (fun c => ~ In LF c) cells -> ~ In LF (tableLine cells).
Proof.
  intros Hall; unfold tableLine.
  change (utf16 "| ") with [BAR; 32%N].
  change (utf16 " |") with [32%N; BAR].
  change (utf16 " | ") with [32%N; BAR; 32%N].
  rewrite !in_app_iff; intros [H|[H|H]].
  - cbn [In] in H; destruct H as [H|[H|[]]]; discriminate.
  - apply In_join in H as [H|(c & Hc & Hx)].
    + cbn [In] in H; destruct H as [H|[H|[H|[]]]]; discriminate.
    + rewrite Forall_forall in Hall; exact (Hall c Hc Hx).
  - cbn [In] in H; destruct H as [H|[H|[]]]; discriminate.
Qed.

Lemma filter_all (A : Type) (f : A -> bool) (l : list A) :
  Forall (fun x => f x = true) l -> filter f l = l.
Proof.
  induction 1 as [|x l Hx Hl IH]; [reflexivity|].
  cbn [filter]; rewrite Hx, IH; reflexivity.
Qed.

(** Parsing the markdown that [serializeTable] writes gives back the
    headers and the rows it was written from. *)
Lemma parseTable_serializeTable (currentHeaders : list JSString)
    (currentRows : list (list JSString)) (t : Table) :
  plainRow currentHeaders ->
  Forall plainRow currentRows ->
  parseTable (serializeTable currentHeaders currentRows) t
  = {| headers := currentHeaders; rows := currentRows |}.
Proof.
  intros Hheaders Hrows.
  set (H := tableLine currentHeaders).
  set (Sep := tableLine (map (fun _ => utf16 "---") currentHeaders)).
  set (ls := H :: Sep :: map tableLine currentRows).
  assert (Hshape : Forall (fun l => exists s, l = BAR :: s ++ [BAR]) ls).
  { repeat constructor; try apply tableLine_shape.
    apply Forall_map, Forall_forall; intros row _; apply tableLine_shape. }
  assert (Hlf : Forall (fun l => ~ In LF l) ls).
  { constructor; [|constructor].
    - apply tableLine_no_LF.
      eapply Forall_impl; [|exact (proj2 Hheaders)].
      intros c Hc; exact (proj2 (proj2 Hc)).
    - apply tableLine_no_LF, Forall_map, Forall_forall.
      intros c _ [Hx|[Hx|[Hx|[]]]]; discriminate.
    - apply Forall_map.
      eapply Forall_impl; [|exact Hrows].
      intros row [_ Hrow]; apply tableLine_no_LF.
      eapply Forall_impl; [|exact Hrow].
      intros c Hc; exact (proj2 (proj2 Hc)). }
  assert (Htrim : trim (serializeTable currentHeaders currentRows)
                  = join [LF] ls).
  { unfold serializeTable; fold H; fold Sep; cbv zeta.
    destruct currentRows as [|row currentRows].
    - cbn [map join]; rewrite app_nil_r.
      assert (Hj : join [LF] ls = H ++ [LF] ++ Sep) by reflexivity.
      rewrite Hj.
      assert (Hshaped : exists s, H ++ [LF] ++ Sep = BAR :: s ++ [BAR]).
      { rewrite <- Hj; apply join_shape; [discriminate|exact Hshape]. }
      replace (H ++ [LF] ++ Sep ++ [LF])
        with ([] ++ (H ++ [LF] ++ Sep) ++ [LF])
        by (cbn [app]; rewrite <- !app_assoc; reflexivity).
      apply trim_padded; try reflexivity.
      exact (proj1 (shaped_trim _ Hshaped)).
    - assert (Hj : join [LF] ls
                   = H ++ [LF] ++ Sep ++ [LF]
                     ++ join [LF] (map tableLine (row :: currentRows)))
        by reflexivity.
      rewrite <- Hj.
      apply shaped_trim, join_shape; [discriminate|exact Hshape]. }
  unfold parseTable; rewrite Htrim.
  rewrite split_join; [|discriminate|exact Hlf].
  rewrite filter_all.
  2:{ eapply Forall_impl; [|exact Hshape].
      intros l Hl; exact (proj2 (shaped_trim l Hl)). }
  cbn [ls List.length Nat.ltb Nat.leb nth skipn].
  f_equal.
  - apply splitRow_tableLine; exact Hheaders.
  - rewrite map_map.
    assert (Hmap : map (fun x => splitRow (tableLine x)) currentRows
                   = currentRows).
    { clear -Hrows; induction Hrows as [|row rows Hrow _ IH];
        [reflexivity|].
      cbn [map]; rewrite IH, (splitRow_tableLine row Hrow); reflexivity. }
    rewrite Hmap; apply filter_all.
    eapply Forall_impl; [|exact Hrows].
    intros row [Hne _]; destruct row; [contradiction|reflexivity].
Qed.

Lemma filterFrom_Forall (A : Type) (P : A -> Prop) (f : A -> nat -> bool)
    (i : nat) (l : list A) :
  Forall P l -> Forall P (filterFrom f i l).
Proof.
  intros H; revert i; induction H as [|x l Hx Hl IH]; intros i;
    cbn [filterFrom]; [constructor|].
  destruct (f x i); [constructor; [exact Hx|apply IH]|apply IH].
Qed.

Lemma filterFrom_keep_all (A : Type) (f : A -> nat -> bool) (i : nat)
    (l : list A) :
  (forall x j, (i <= j)%nat -> f x j = true) -> filterFrom f i l = l.
Proof.
  revert i; induction l as [|x l IH]; intros i H; [reflexivity|].
  cbn [filterFrom]; rewrite H by lia; f_equal; apply IH.
  intros y j Hj; apply H; lia.
Qed.

Lemma filterFrom_ext (A : Type) (f g : A -> nat -> bool) (i : nat)
    (l : list A) :
  (forall x j, f x j = g x j) -> filterFrom f i l = filterFrom g i l.
Proof.
  intros H; revert i; induction l as [|x l IH]; intros i; [reflexivity|].
  cbn [filterFrom]; rewrite H, IH; reflexivity.
Qed.

(** [rows.filter((_, i) => i !== index)] drops the row at [index]. *)
Lemma filterFrom_delete (A : Type) (index k : nat) (l : list A) :
  filterFrom (fun _ i => negb (i =? k + index)%nat) k l
  = firstn index l ++ skipn (S index) l.
Proof.
  revert index k; induction l as [|x l IH]; intros index k.
  - destruct index; reflexivity.
  - cbn [filterFrom]; destruct index as [|index].
    + rewrite Nat.add_0_r, Nat.eqb_refl; cbn [negb firstn skipn app].
      apply filterFrom_keep_all.
      intros y j Hj; apply negb_true_iff, Nat.eqb_neq; lia.
    + assert (Hk : (k =? k + S index)%nat = false)
        by (apply Nat.eqb_neq; lia).
      rewrite Hk.
      change (firstn (S index) (x :: l) ++ skipn (S (S index)) (x :: l))
        with (x :: (firstn index l ++ skipn (S index) l)).
      cbn [negb]; f_equal.
      rewrite <- (IH index (S k)).
      apply filterFrom_ext; intros y j.
      replace (S k + index)%nat with (k + S index)%nat by lia.
      reflexivity.
Qed.

(** X18. Writing a table as markdown and parsing the markdown gives the
    table back, whatever the state of the editor was: for headers and rows
    that a table line can carry (at least one header, no row without a
    cell, and in every cell no bar, no line feed and no white space at
    either end), [parseTable] of [serializeTable] is the identity; the
    separator line is skipped, and a table without rows is read back
    without rows.  The edits keep the editor and its markdown in step:
    the markdown that [addRow] and [deleteRow] hand to [onUpdate] parses
    back to the very state they set, [deleteRow] having dropped the row at
    the index (none when the index is out of range). *)
Theorem table_markdown_round_trip (currentHeaders : list JSString)
    (currentRows : list (list JSString)) :
  plainRow currentHeaders ->
  Forall plainRow currentRows ->
  let t := {| headers := currentHeaders; rows := currentRows |} in
  (forall t0,
     parseTable (serializeTable currentHeaders currentRows) t0 = t)
  /\ (forall toLowerCase t0,
        parseTable (snd (addRow toLowerCase t)) t0 = fst (addRow toLowerCase t))
  /\ (forall index t0,
        parseTable (snd (deleteRow index t)) t0 = fst (deleteRow index t)
        /\ rows (fst (deleteRow index t))
           = firstn index currentRows ++ skipn (S index) currentRows).
Proof.
  intros Hheaders Hrows; cbv zeta.
  split; [|split].
  - intros t0; apply parseTable_serializeTable; assumption.
  - intros toLowerCase t0; unfold addRow; cbn [fst snd headers rows].
    apply parseTable_serializeTable; [exact Hheaders|].
    apply Forall_app; split; [exact Hrows|].
    constructor; [|constructor].
    destruct Hheaders as [Hne _]; split.
    + destruct currentHeaders; [contradiction|discriminate].
    + apply Forall_map, Forall_forall; intros h _.
      destruct (includes (toLowerCase h) (utf16 "status")).
      * split; [reflexivity|].
        split; intros [H|[H|[H|[]]]]; discriminate.
      * split; [reflexivity|split; intros []].
  - intros index t0; unfold deleteRow; cbn [fst snd headers rows].
    split.
    + apply parseTable_serializeTable; [exact Hheaders|].
      apply filterFrom_Forall; exact Hrows.
    + exact (filterFrom_delete _ index 0 currentRows).
Qed.

(** ** The smart tools: the renderer *)

Lemma join_snoc (sep : JSString) (ls : list JSString) (l : JSString) :
  ls <> [] -> join sep (ls ++ [l]) = join sep ls ++ sep ++ l.
Proof. intros H; apply join_app; [exact H|discriminate]. Qed.

Lemma join_snoc_more (sep : JSString) (ls : list JSString)
    (a b : JSString) :
  join sep (ls ++ [a ++ sep ++ b]) = join sep (ls ++ [a]) ++ sep ++ b.
Proof.
  destruct ls as [|x ls]; [reflexivity|].
  rewrite !join_snoc by discriminate.
  rewrite <- !app_assoc; reflexivity.
Qed.

Lemma alternating_kinds (bs bs' : list Block) :
  map isTable bs = map isTable bs' -> alternating bs -> alternating bs'.
Proof.
  revert bs'; induction bs as [|b bs IH]; intros [|b' bs'] H;
    try discriminate; [trivial|].
  cbn [map] in H; injection H as Hb Hbs.
  cbn [alternating]; intros [Hhead Hrest]; split; [|exact (IH _ Hbs Hrest)].
  destruct bs as [|c bs], bs' as [|c' bs']; try discriminate; [trivial|].
  cbn [map] in Hbs; injection Hbs as Hc _; congruence.
Qed.

Lemma alternating_snoc (bs : list Block) (a b : Block) :
  alternating (bs ++ [a]) ->
  isTable a <> isTable b ->
  alternating (bs ++ [a; b]).
Proof.
  induction bs as [|c bs IH]; intros H Hab.
  - cbn [app alternating]; repeat split; exact Hab.
  - cbn [app alternating] in *; destruct H as [Hhead Hrest].
    split; [|exact (IH Hrest Hab)].
    destruct bs as [|d bs]; exact Hhead.
Qed.

(** The two flushes at the end add what is pending. *)
Lemma flush_pending (r : Renderer) :
  renderedElements (flushTable (flushText r))
  = renderedElements r ++ pending r.
Proof.
  destruct r as [B T Tb b]; unfold flushText, flushTable, pending.
  cbn [currentTextBuffer tableBuffer renderedElements inTable].
  destruct T as [|t T], Tb as [|tb Tb];
    cbn [currentTextBuffer tableBuffer renderedElements inTable app];
    rewrite <- ?app_assoc, ?app_nil_r; reflexivity.
Qed.

(** A buffer that gets one more line. *)
Lemma inStep_grow (bs : list Block) (buffer lines : list JSString)
    (line : JSString) (wrap : JSString -> Block) :
  (forall x y, isTable (wrap x) = isTable (wrap y)) ->
  (forall x, blockText (wrap x) = x) ->
  buffer <> [] ->
  alternating (bs ++ [wrap (join [LF] buffer)]) ->
  join [LF] (map blockText (bs ++ [wrap (join [LF] buffer)]))
  = join [LF] lines ->
  lines <> [] ->
  alternating (bs ++ [wrap (join [LF] (buffer ++ [line]))])
  /\ join [LF] (map blockText (bs ++ [wrap (join [LF] (buffer ++ [line]))]))
     = join [LF] (lines ++ [line]).
Proof.
  intros Hkind Htext Hne Halt Hjoin Hlines; split.
  - eapply alternating_kinds; [|exact Halt].
    rewrite !map_app; cbn [map].
    rewrite (Hkind (join [LF] (buffer ++ [line])) (join [LF] buffer)).
    reflexivity.
  - rewrite map_app in Hjoin; cbn [map] in Hjoin; rewrite Htext in Hjoin.
    rewrite map_app; cbn [map]; rewrite Htext.
    rewrite (join_snoc _ buffer line Hne), join_snoc_more, Hjoin.
    rewrite (join_snoc _ lines line Hlines); reflexivity.
Qed.

(** A block is closed and a buffer of the other kind gets its first
    line. *)
Lemma inStep_switch (bs : list Block) (a : Block) (lines : list JSString)
    (line : JSString) (wrap : JSString -> Block) :
  isTable a <> isTable (wrap line) ->
  (forall x, blockText (wrap x) = x) ->
  alternating (bs ++ [a]) ->
  join [LF] (map blockText (bs ++ [a])) = join [LF] lines ->
  lines <> [] ->
  alternating ((bs ++ [a]) ++ [wrap (join [LF] [line])])
  /\ join [LF] (map blockText ((bs ++ [a]) ++ [wrap (join [LF] [line])]))
     = join [LF] (lines ++ [line]).
Proof.
  intros Hkind Htext Halt Hjoin Hlines; split.
  - rewrite <- app_assoc; apply alternating_snoc; assumption.
  - rewrite map_app; cbn [map join]; rewrite Htext.
    rewrite join_snoc by (rewrite map_app; destruct (map blockText bs);
                          discriminate).
    rewrite Hjoin, (join_snoc _ lines line Hlines); reflexivity.
Qed.

(** One line more keeps the loop in step. *)
Lemma renderLine_inStep (r : Renderer) (lines : list JSString)
    (line : JSString) :
  inStep r lines -> inStep (renderLine r line) (lines ++ [line]).
Proof.
  destruct r as [B T Tb b]; unfold inStep, renderLine, pending.
  cbn [renderedElements currentTextBuffer tableBuffer inTable].
  intros (Ha & Hb & Halt & Hjoin & Hempty).
  destruct (isTableLine line), b; cbn [negb];
    unfold flushText, flushTable;
    cbn [renderedElements currentTextBuffer tableBuffer inTable].
  - (* a table line, in a table *)
    destruct (Ha eq_refl) as [-> HTb].
    destruct Tb as [|tb Tb]; [contradiction|].
    cbn [app] in *.
    assert (Hlines : lines <> []).
    { intros H; apply Hempty in H; destruct B; discriminate. }
    destruct (inStep_grow B (tb :: Tb) lines line TableBlock
                ltac:(reflexivity) ltac:(reflexivity) ltac:(discriminate)
                Halt Hjoin Hlines) as [Halt' Hjoin'].
    split; [intros _; split; [reflexivity|discriminate]|].
    split; [discriminate|].
    split; [exact Halt'|].
    split; [exact Hjoin'|].
    split; intros H; [destruct B; discriminate|destruct lines; discriminate].
  - (* a table line, after text *)
    destruct (Hb eq_refl) as [-> HB].
    rewrite app_nil_r in *.
    destruct T as [|t T].
    + rewrite (HB eq_refl) in *; cbn [app] in *.
      assert (Hlines : lines = []) by (apply Hempty; reflexivity).
      subst lines; cbn [app].
      split; [intros _; split; [reflexivity|discriminate]|].
      split; [discriminate|].
      split; [cbn; auto|].
      split; [reflexivity|].
      split; discriminate.
    + cbn [currentTextBuffer renderedElements tableBuffer app] in *.
      assert (Hlines : lines <> []).
      { intros H; apply Hempty in H; destruct B; discriminate. }
      destruct (inStep_switch B (TextBlock (join [LF] (t :: T))) lines line
                  TableBlock ltac:(discriminate) ltac:(reflexivity)
                  Halt Hjoin Hlines) as [Halt' Hjoin'].
      split; [intros _; split; [reflexivity|discriminate]|].
      split; [discriminate|].
      split; [exact Halt'|].
      split; [exact Hjoin'|].
      split; intros H; [destruct B; discriminate|destruct lines; discriminate].
  - (* a line of text, after a table *)
    destruct (Ha eq_refl) as [-> HTb].
    destruct Tb as [|tb Tb]; [contradiction|].
    cbn [currentTextBuffer renderedElements tableBuffer app] in *.
    assert (Hlines : lines <> []).
    { intros H; apply Hempty in H; destruct B; discriminate. }
    destruct (inStep_switch B (TableBlock (join [LF] (tb :: Tb))) lines line
                TextBlock ltac:(discriminate) ltac:(reflexivity)
                Halt Hjoin Hlines) as [Halt' Hjoin'].
    split; [discriminate|].
    split.
    { intros _; split; [reflexivity|intros H; discriminate]. }
    split; [exact Halt'|].
    split; [exact Hjoin'|].
    split; intros H; [destruct B; discriminate|destruct lines; discriminate].
  - (* a line of text, in text *)
    destruct (Hb eq_refl) as [-> HB].
    rewrite app_nil_r in *.
    destruct T as [|t T].
    + rewrite (HB eq_refl) in *; cbn [app] in *.
      assert (Hlines : lines = []) by (apply Hempty; reflexivity).
      subst lines; cbn [app].
      split; [discriminate|].
      split; [intros _; split; [reflexivity|discriminate]|].
      split; [cbn; auto|].
      split; [reflexivity|].
      split; discriminate.
    + cbn [app] in *.
      assert (Hlines : lines <> []).
      { intros H; apply Hempty in H; destruct B; discriminate. }
      destruct (inStep_grow B (t :: T) lines line TextBlock
                  ltac:(reflexivity) ltac:(reflexivity) ltac:(discriminate)
                  Halt Hjoin Hlines) as [Halt' Hjoin'].
      split; [discriminate|].
      split; [intros _; split; [reflexivity|discriminate]|].
      split; [exact Halt'|].
      split; [exact Hjoin'|].
      split; intros H; [destruct B; discriminate|destruct lines; discriminate].
Qed.

Lemma fold_inStep (ls : list JSString) (r : Renderer)
    (lines : list JSString) :
  inStep r lines -> inStep (fold_left renderLine ls r) (lines ++ ls).
Proof.
  revert r lines; induction ls as [|l ls IH]; intros r lines H.
  - rewrite app_nil_r; exact H.
  - cbn [fold_left].
    replace (lines ++ l :: ls) with ((lines ++ [l]) ++ ls)
      by (rewrite <- app_assoc; reflexivity).
    apply IH, renderLine_inStep; exact H.
Qed.

(** X19. The renderer loses nothing and cuts at the right places: for
    every result text, the texts of the blocks it renders (the text of a
    text block, the markdown handed to a table editor), joined by line
    feeds, are the result text itself; and no two blocks next to each
    other are of the same kind, so that a run of table lines makes one
    table and the text between two tables one block. *)
Theorem render_keeps_the_text (content : JSString) :
  join [LF] (map blockText (renderContent content)) = content
  /\ alternating (renderContent content).
Proof.
  unfold renderContent; cbv zeta; rewrite flush_pending.
  set (start := {| renderedElements := []; currentTextBuffer := [];
                   tableBuffer := []; inTable := false |}).
  assert (Hstart : inStep start []).
  { unfold inStep, start, pending; cbn.
    repeat split; auto; discriminate. }
  destruct (fold_inStep (split LF content) start [] Hstart)
    as (_ & _ & Halt & Hjoin & _).
  cbn [app] in Hjoin.
  split; [rewrite Hjoin; apply join_split|exact Halt].
Qed.

(** ** The smart tools: check boxes *)

Lemma matchUnchecked_none (s : JSString) :
  ~ In 91%N s -> matchUnchecked s = None.
Proof.
  induction s as [|c r IH]; intros Hnin; [reflexivity|].
  cbn [matchUnchecked].
  assert (Hc : (c =? 91)%N = false)
    by (apply N.eqb_neq; intros ->; apply Hnin; left; reflexivity).
  rewrite Hc, IH; [reflexivity|].
  intros H; apply Hnin; right; exact H.
Qed.

Lemma matchUnchecked_skip (before s : JSString) :
  ~ In 91%N before ->
  matchUnchecked (before ++ s)
  = match matchUnchecked s with
    | Some (b, a) => Some (before ++ b, a)
    | None => None
    end.
Proof.
  induction before as [|c r IH]; intros Hnin.
  - cbn [app]; destruct (matchUnchecked s) as [[b a]|]; reflexivity.
  - cbn [app matchUnchecked].
    assert (Hc : (c =? 91)%N = false)
      by (apply N.eqb_neq; intros ->; apply Hnin; left; reflexivity).
    rewrite Hc, IH by (intros H; apply Hnin; right; exact H).
    destruct (matchUnchecked s) as [[b a]|]; reflexivity.
Qed.

Lemma matchChecked_none (s : JSString) :
  ~ In 91%N s -> matchChecked s = None.
Proof.
  induction s as [|c r IH]; intros Hnin; [reflexivity|].
  cbn [matchChecked].
  assert (Hc : (c =? 91)%N = false)
    by (apply N.eqb_neq; intros ->; apply Hnin; left; reflexivity).
  rewrite Hc, IH by (intros H; apply Hnin; right; exact H).
  destruct r as [|x [|d after]]; reflexivity.
Qed.

Lemma matchChecked_skip (before s : JSString) :
  ~ In 91%N before ->
  matchChecked (before ++ s)
  = match matchChecked s with
    | Some (b, a) => Some (before ++ b, a)
    | None => None
    end.
Proof.
  induction before as [|c r IH]; intros Hnin.
  - cbn [app]; destruct (matchChecked s) as [[b a]|]; reflexivity.
  - cbn [app matchChecked].
    assert (Hc : (c =? 91)%N = false)
      by (apply N.eqb_neq; intros ->; apply Hnin; left; reflexivity).
    rewrite Hc, IH by (intros H; apply Hnin; right; exact H).
    destruct (matchChecked s) as [[b a]|];
      destruct (r ++ s) as [|x [|d after]]; reflexivity.
Qed.

(** X20. A click on a check box toggles it, and a second click toggles it
    back.  In a cell whose only opening bracket is the one of its box,
    [toggleCheckbox] turns an empty box (brackets with any white space
    between them, also none) into "[x]" and a box with "x" or "X" into
    "[ ]", leaving the text before and after the box as it is; so two
    clicks on "[ ]" or on "[x]" give the cell back.  A cell without an
    opening bracket is left alone. *)
Theorem toggleCheckbox_toggles (before after : JSString) :
  ~ In 91%N before ->
  ~ In 91%N after ->
  (forall ws,
     blank ws = true ->
     toggleCheckbox (before ++ [91%N] ++ ws ++ [93%N] ++ after)
     = before ++ utf16 "[x]" ++ after)
  /\ toggleCheckbox (before ++ utf16 "[x]" ++ after)
     = before ++ utf16 "[ ]" ++ after
  /\ toggleCheckbox (before ++ utf16 "[X]" ++ after)
     = before ++ utf16 "[ ]" ++ after
  /\ toggleCheckbox (toggleCheckbox (before ++ utf16 "[ ]" ++ after))
     = before ++ utf16 "[ ]" ++ after
  /\ toggleCheckbox (toggleCheckbox (before ++ utf16 "[x]" ++ after))
     = before ++ utf16 "[x]" ++ after
  /\ toggleCheckbox before = before.
Proof.
  intros Hbefore Hafter.
  assert (Hempty : forall ws,
    blank ws = true ->
    toggleCheckbox (before ++ [91%N] ++ ws ++ [93%N] ++ after)
    = before ++ utf16 "[x]" ++ after).
  { intros ws Hws; unfold toggleCheckbox.
    rewrite (matchUnchecked_skip _ _ Hbefore).
    cbn [app matchUnchecked N.eqb Pos.eqb].
    assert (Hskip : trimStart (ws ++ 93%N :: after) = 93%N :: after).
    { clear -Hws; induction ws as [|c ws IH]; [reflexivity|].
      cbn [blank forallb] in Hws; apply andb_prop in Hws as [Hc Hws].
      cbn [app trimStart]; rewrite Hc; exact (IH Hws). }
    rewrite Hskip; cbn [N.eqb Pos.eqb]; rewrite app_nil_r; reflexivity. }
  assert (Hchecked : forall x,
    x = 120%N \/ x = 88%N ->
    toggleCheckbox (before ++ [91%N; x; 93%N] ++ after)
    = before ++ utf16 "[ ]" ++ after).
  { intros x Hx; unfold toggleCheckbox.
    rewrite (matchUnchecked_skip _ _ Hbefore).
    assert (Hno : matchUnchecked ([91%N; x; 93%N] ++ after) = None).
    { cbn [app matchUnchecked N.eqb Pos.eqb].
      rewrite (matchUnchecked_none after Hafter).
      destruct Hx as [-> | ->]; reflexivity. }
    rewrite Hno, (matchChecked_skip _ _ Hbefore).
    cbn [app matchChecked N.eqb Pos.eqb andb].
    destruct Hx as [-> | ->]; cbn [N.eqb Pos.eqb orb andb];
      rewrite app_nil_r; reflexivity. }
  split; [exact Hempty|].
  split; [exact (Hchecked 120%N (or_introl eq_refl))|].
  split; [exact (Hchecked 88%N (or_intror eq_refl))|].
  split.
  { change (utf16 "[ ]") with ([91%N] ++ [32%N] ++ [93%N]) at 1.
    rewrite <- !app_assoc, (Hempty [32%N] eq_refl).
    exact (Hchecked 120%N (or_introl eq_refl)). }
  split.
  { change (utf16 "[x]") with [91%N; 120%N; 93%N] at 1.
    rewrite (Hchecked 120%N (or_introl eq_refl)).
    change (utf16 "[ ]") with ([91%N] ++ [32%N] ++ [93%N]).
    rewrite <- !app_assoc; exact (Hempty [32%N] eq_refl). }
  unfold toggleCheckbox.
  rewrite (matchUnchecked_none _ Hbefore), (matchChecked_none _ Hbefore).
  reflexivity.
Qed.

(** ** The smart tools: the history *)

Lemma skipn_cons (A : Type) (n : nat) (x : A) (l : list A) :
  skipn (S n) (x :: l) = skipn n l.
Proof. reflexivity. Qed.

(** X21. [saveToHistory] keeps what comes after the first fifty entries of
    the new list ([slice(50)]): the entry it has just made is never among
    them, and the forty-nine entries before it are dropped as well.  So
    with at most 49 entries in the history a save leaves the history and
    the local storage empty, while the current id is the id of the entry
    that was not kept; and a history that is empty stays empty under any
    run of saves, edits and clears. *)
Theorem history_never_fills (Chunk : Type) :
  (forall now tool query result grounding (s : Store Chunk),
     let s' := saveToHistory now tool query result grounding s in
     history s' = skipn 49 (history s)
     /\ stored s' = Some (skipn 49 (history s))
     /\ currentHistoryId s' = Some (numberToString now)
     /\ ((List.length (history s) <= 49)%nat ->
         history s' = [] /\ stored s' = Some []))
  /\ (forall actions (s : Store Chunk),
        history s = [] ->
        history (fold_left applyAction actions s) = []).
Proof.
  split.
  - intros now tool query result grounding s; cbv zeta.
    unfold saveToHistory; cbn [history stored currentHistoryId id].
    rewrite !(skipn_cons _ 49%nat).
    do 3 (split; [reflexivity|]).
    intros Hlen; rewrite (skipn_all2 (history s)) by exact Hlen.
    split; reflexivity.
  - induction actions as [|a actions IH]; intros s Hs; [exact Hs|].
    cbn [fold_left]; apply IH.
    destruct a as [now tool query result grounding|newContent|];
      cbn [applyAction].
    + unfold saveToHistory; cbn [history].
      rewrite (skipn_cons _ 49%nat), Hs; reflexivity.
    + unfold handleContentUpdate.
      destruct (currentHistoryId s) as [current|]; [|exact Hs].
      destruct (truthy current); cbn [history]; [|exact Hs].
      rewrite Hs; reflexivity.
    + reflexivity.
Qed.

(** ** The smart tools on concrete inputs *)

(** X18 on a task list with two rows, read into an editor that showed
    something else. *)
Lemma table_markdown_round_trip_witness :
  let hs := [utf16 "Task"; utf16 "Status"] in
  let rs := [[utf16 "Buy milk"; utf16 "[ ]"]; [utf16 "Call Bob"; []]] in
  parseTable (serializeTable hs rs) {| headers := [utf16 "Old"]; rows := [] |}
  = {| headers := hs; rows := rs |}.
Proof.
  cbv zeta.
  refine (proj1 (table_markdown_round_trip
                   [utf16 "Task"; utf16 "Status"]
                   [[utf16 "Buy milk"; utf16 "[ ]"]; [utf16 "Call Bob"; []]]
                   _ _) _).
  - split; [discriminate|].
    repeat constructor; try (vm_compute; intuition discriminate).
  - repeat constructor; try discriminate;
      try (vm_compute; intuition discriminate).
Defined.

(** X20 on a cell with a label before its box. *)
Lemma toggleCheckbox_toggles_witness :
  toggleCheckbox (utf16 "done [ ]") = utf16 "done [x]"
  /\ toggleCheckbox (toggleCheckbox (utf16 "done [ ]")) = utf16 "done [ ]".
Proof.
  destruct (toggleCheckbox_toggles (utf16 "done ") []
              ltac:(vm_compute; intuition discriminate)
              ltac:(intros []))
    as (Hempty & _ & _ & Htwice & _).
  split.
  - exact (Hempty [32%N] eq_refl).
  - exact Htwice.
Defined.

(** X21 on a fresh history: two results saved, the second one edited. *)
Lemma history_never_fills_witness :
  let fresh : Store nat :=
    {| history := []; currentHistoryId := None; resultText := [];
       stored := None |} in
  history
    (fold_left applyAction
       [Save 1000 FAST (utf16 "hi") (utf16 "Hello") [];
        Save 2000 PLANNER (utf16 "plan") (utf16 "| A |") [];
        Edit (utf16 "| B |")]
       fresh)
  = [].
Proof.
  cbv zeta.
  exact (proj2 (history_never_fills nat)
           [Save 1000 FAST (utf16 "hi") (utf16 "Hello") [];
            Save 2000 PLANNER (utf16 "plan") (utf16 "| A |") [];
            Edit (utf16 "| B |")]
           {| history := []; currentHistoryId := None; resultText := [];
              stored := None |}
           eq_refl).
Defined.
